(** * AstSymbolTable: a shallow embedding of api-extractor's symbol table

    The TypeScript class [AstSymbolTable] builds and caches [AstSymbol],
    [AstDeclaration] and [AstModule] objects on top of the TypeScript
    compiler.  The compiler (and the small helper classes that wrap it) is
    an oracle here: a record of functions.  Objects live in three heaps
    (lists indexed by reference), the four caches are finite maps, and
    every method is a function in a state-and-exception monad.  Recursion
    that the source bounds only by the finiteness of the program under
    analysis takes a fuel argument. *)

From Stdlib Require Import ZArith.
From stdpp Require Import base option gmap sets list strings.

Set Default Proof Using "Type".
Local Open Scope Z_scope.
Local Open Scope nat_scope.

(** ** The TypeScript side *)

Abbreviation TsSymbol := nat (only parsing).
Abbreviation TsNode := nat (only parsing).

(** The members of [ts.SyntaxKind] that the table tests for by name. *)
Inductive SyntaxKind :=
| SourceFile
| ExportDeclaration
| ExportSpecifier
| JSDocComment
| TypeReference
| ExpressionWithTypeArguments
| ComputedPropertyName
| Identifier
| OtherKind (code : nat).

Global Instance SyntaxKind_eq_dec : EqDecision SyntaxKind.
Proof. solve_decision. Defined.

(** [ts.SymbolFlags], as the bit masks of the compiler. *)
Module SymbolFlags.
Definition TypeLiteral : Z := 2048.
Definition TypeParameter : Z := 262144.
Definition Alias : Z := 2097152.
Definition Transient : Z := 33554432.
End SymbolFlags.

(** [ts.InternalSymbolName.ExportStar] *)
Definition ExportStar : string := "__export".

(** Everything the table asks of the compiler, of [TypeScriptHelpers], of
    [SymbolAnalyzer] and of [PackageMetadataManager].  A [ts.SourceFile] is
    a [ts.Node]. *)
Record TsProgram := {
  (* ts.Symbol *)
  sym_flags : TsSymbol → Z;
  sym_name : TsSymbol → string;
  sym_escapedName : TsSymbol → string;
  sym_declarations : TsSymbol → option (list TsNode);
  sym_exports : TsSymbol → option (list TsSymbol);
  (* ts.Node *)
  node_kind : TsNode → SyntaxKind;
  node_parent : TsNode → option TsNode;
  node_getChildren : TsNode → list TsNode;
  node_getSourceFile : TsNode → TsNode;
  node_getText : TsNode → string;
  sourceFile_fileName : TsNode → string;
  (* ts.ExportSpecifier: the trimmed text of [propertyName] and of [name] *)
  exportSpecifier_propertyName : TsNode → option string;
  exportSpecifier_name : TsNode → string;
  (* ts.TypeChecker and ts.Program *)
  getExportsOfModule : TsSymbol → list TsSymbol;
  getSymbolAtLocation : TsNode → option TsSymbol;
  program_getSourceFile : string → option TsNode;
  isExternalModuleNameRelative : string → bool;
  (* TypeScriptHelpers *)
  getSymbolForDeclaration : TsNode → option TsSymbol;
  followAliases : TsSymbol → TsSymbol;
  getImmediateAliasedSymbol : TsSymbol → option TsSymbol;
  findFirstParent : TsNode → SyntaxKind → option TsNode;
  findFirstChildNode : TsNode → SyntaxKind → option TsNode;
  getModuleSpecifier : TsNode → option string;
  getResolvedModule : TsNode → string → option string;
  (* SymbolAnalyzer *)
  isAstDeclaration : SyntaxKind → bool;
  isAmbient : TsSymbol → bool;
  (* PackageMetadataManager *)
  isAedocSupportedFor : string → bool
}.

(** ** The objects of the table *)

Abbreviation SymRef := nat (only parsing).
Abbreviation DeclRef := nat (only parsing).
Abbreviation ModRef := nat (only parsing).

Record IAstImportOptions := {
  exportName : string;
  modulePath : string
}.

(** Modelled from the spec: the class [AstImport] is not among the sources.
    The spec gives an import identity the two fields [exportedName] and
    [modulePath] and makes two of them equal iff both fields match, so the
    [key] under which [_astSymbolsByImportKey] files a symbol is the pair. *)
Record AstImport := {
  imp_exportName : string;
  imp_modulePath : string
}.

Definition new_AstImport (o : IAstImportOptions) : AstImport :=
  {| imp_exportName := exportName o; imp_modulePath := modulePath o |}.

Definition key (i : AstImport) : string * string :=
  (imp_exportName i, imp_modulePath i).

(** Modelled from the spec: the class [AstSymbol] is not among the sources.
    Its fields are the constructor arguments that [_fetchAstSymbol] passes
    (with [rootAstSymbol] defaulting to the node itself), the list of
    declarations it owns, and the flag that [_notifyAnalyzed] raises. *)
Record AstSymbol := {
  localName : string;
  followedSymbol : TsSymbol;
  astImport : option AstImport;
  parentAstSymbol : option SymRef;
  rootAstSymbol : SymRef;
  nominal : bool;
  astDeclarations : list DeclRef;
  _analyzed : bool
}.

(** Modelled from the spec: the class [AstDeclaration] is not among the
    sources.  The spec gives it the syntax node, the owning symbol, the
    parent link, the children and the set of referenced symbols. *)
Record AstDeclaration := {
  declaration : TsNode;
  astSymbol : SymRef;
  parent : option DeclRef;
  children : list DeclRef;
  referencedAstSymbols : list SymRef
}.

(** Modelled from the spec: the class [AstModule] is not among the sources.
    [exportedSymbols] is a [Map] from name to symbol, [starExportedModules]
    a [Set] of modules, iterated in insertion order. *)
Record AstModule := {
  sourceFile : TsNode;
  externalModulePath : option string;
  exportedSymbols : gmap string SymRef;
  starExportedModules : list ModRef
}.

(** The state of one [AstSymbolTable]: its four caches and the objects
    allocated so far. *)
Record AstSymbolTable := {
  _astSymbolsBySymbol : gmap TsSymbol SymRef;
  _astDeclarationsByDeclaration : gmap TsNode DeclRef;
  _astSymbolsByImportKey : gmap (string * string) SymRef;
  _astModulesBySourceFile : gmap TsNode ModRef;
  symbols : list AstSymbol;
  declarations : list AstDeclaration;
  modules : list AstModule
}.

Definition new_AstSymbolTable : AstSymbolTable :=
  {| _astSymbolsBySymbol := ∅; _astDeclarationsByDeclaration := ∅;
     _astSymbolsByImportKey := ∅; _astModulesBySourceFile := ∅;
     symbols := []; declarations := []; modules := [] |}.

(** Field updates. *)
Definition with_bySymbol (f : gmap TsSymbol SymRef → gmap TsSymbol SymRef)
    (T : AstSymbolTable) : AstSymbolTable :=
  {| _astSymbolsBySymbol := f (_astSymbolsBySymbol T);
     _astDeclarationsByDeclaration := _astDeclarationsByDeclaration T;
     _astSymbolsByImportKey := _astSymbolsByImportKey T;
     _astModulesBySourceFile := _astModulesBySourceFile T;
     symbols := symbols T; declarations := declarations T; modules := modules T |}.

Definition with_byDeclaration (f : gmap TsNode DeclRef → gmap TsNode DeclRef)
    (T : AstSymbolTable) : AstSymbolTable :=
  {| _astSymbolsBySymbol := _astSymbolsBySymbol T;
     _astDeclarationsByDeclaration := f (_astDeclarationsByDeclaration T);
     _astSymbolsByImportKey := _astSymbolsByImportKey T;
     _astModulesBySourceFile := _astModulesBySourceFile T;
     symbols := symbols T; declarations := declarations T; modules := modules T |}.

Definition with_byImportKey
    (f : gmap (string * string) SymRef → gmap (string * string) SymRef)
    (T : AstSymbolTable) : AstSymbolTable :=
  {| _astSymbolsBySymbol := _astSymbolsBySymbol T;
     _astDeclarationsByDeclaration := _astDeclarationsByDeclaration T;
     _astSymbolsByImportKey := f (_astSymbolsByImportKey T);
     _astModulesBySourceFile := _astModulesBySourceFile T;
     symbols := symbols T; declarations := declarations T; modules := modules T |}.

Definition with_bySourceFile (f : gmap TsNode ModRef → gmap TsNode ModRef)
    (T : AstSymbolTable) : AstSymbolTable :=
  {| _astSymbolsBySymbol := _astSymbolsBySymbol T;
     _astDeclarationsByDeclaration := _astDeclarationsByDeclaration T;
     _astSymbolsByImportKey := _astSymbolsByImportKey T;
     _astModulesBySourceFile := f (_astModulesBySourceFile T);
     symbols := symbols T; declarations := declarations T; modules := modules T |}.

Definition with_symbols (f : list AstSymbol → list AstSymbol)
    (T : AstSymbolTable) : AstSymbolTable :=
  {| _astSymbolsBySymbol := _astSymbolsBySymbol T;
     _astDeclarationsByDeclaration := _astDeclarationsByDeclaration T;
     _astSymbolsByImportKey := _astSymbolsByImportKey T;
     _astModulesBySourceFile := _astModulesBySourceFile T;
     symbols := f (symbols T); declarations := declarations T; modules := modules T |}.

Definition with_declarations (f : list AstDeclaration → list AstDeclaration)
    (T : AstSymbolTable) : AstSymbolTable :=
  {| _astSymbolsBySymbol := _astSymbolsBySymbol T;
     _astDeclarationsByDeclaration := _astDeclarationsByDeclaration T;
     _astSymbolsByImportKey := _astSymbolsByImportKey T;
     _astModulesBySourceFile := _astModulesBySourceFile T;
     symbols := symbols T; declarations := f (declarations T); modules := modules T |}.

Definition with_modules (f : list AstModule → list AstModule)
    (T : AstSymbolTable) : AstSymbolTable :=
  {| _astSymbolsBySymbol := _astSymbolsBySymbol T;
     _astDeclarationsByDeclaration := _astDeclarationsByDeclaration T;
     _astSymbolsByImportKey := _astSymbolsByImportKey T;
     _astModulesBySourceFile := _astModulesBySourceFile T;
     symbols := symbols T; declarations := declarations T; modules := f (modules T) |}.

(** ** Exceptions and the monad of the methods *)

(** One constructor per [throw] of the source, carrying what the message
    is built from.  [TypeError] is the runtime's own, raised where the
    source reads a property of a value that its type says is never
    [undefined]. *)
Inductive Thrown :=
| Error_UnsupportedExport (name : string)
| Error_UnimplementedExportDeclarationKind (text : string)
| Error_SymbolNotFoundForIdentifier (text : string)
| InternalError_UnableToAnalyzeExport (exportName : string)
| InternalError_CouldNotResolveModuleName (moduleSpecifier : string)
| InternalError_FailedToLocate (resolvedFileName : string)
| InternalError_UnableToFindConstructedAstDeclaration
| InternalError_UnableToFindSymbolForNode
| InternalError_FollowedSymbolWithNoDeclarations
| InternalError_UnimplementedLanguageFeature (name : string) (kind : SyntaxKind)
| InternalError_UnableToConstructParent (name : string)
| InternalError_MissingParentDeclaration
| InternalError_MissingParentAstDeclaration
| InternalError_ImportedAfterNonImported (localName : string)
| TypeError.

Definition isInternalError (e : Thrown) : bool :=
  match e with
  | Error_UnsupportedExport _ | Error_UnimplementedExportDeclarationKind _
  | Error_SymbolNotFoundForIdentifier _ | TypeError => false
  | _ => true
  end.

(** How a call ends.  [OutOfFuel] and [Dangling] belong to the model only:
    the first cuts a recursion that has used up its fuel, the second stands
    for following a reference to an object that was never allocated, which
    no JavaScript program can do. *)
Inductive Outcome (A : Type) :=
| Ok (a : A)
| Throw (e : Thrown)
| OutOfFuel
| Dangling.
Arguments Ok {A} a.
Arguments Throw {A} e.
Arguments OutOfFuel {A}.
Arguments Dangling {A}.

Definition M (A : Type) : Type := AstSymbolTable → AstSymbolTable * Outcome A.

Definition ret {A} (a : A) : M A := λ T, (T, Ok a).

Definition bind {A B} (m : M A) (k : A → M B) : M B :=
  λ T, match m T with
       | (T1, Ok a) => k a T1
       | (T1, Throw e) => (T1, Throw e)
       | (T1, OutOfFuel) => (T1, OutOfFuel)
       | (T1, Dangling) => (T1, Dangling)
       end.

Notation "'let*' x ':=' m 'in' k" := (bind m (λ x, k))
  (at level 10, x name, m at level 100, k at level 200, only parsing).
Notation "'do*' m 'in' k" := (bind m (λ _, k))
  (at level 10, m at level 100, k at level 200, only parsing).

Definition throw {A} (e : Thrown) : M A := λ T, (T, Throw e).
Definition outOfFuel {A} : M A := λ T, (T, OutOfFuel).
Definition dangling {A} : M A := λ T, (T, Dangling).
Definition gets {A} (f : AstSymbolTable → A) : M A := λ T, (T, Ok (f T)).
Definition modify (f : AstSymbolTable → AstSymbolTable) : M unit := λ T, (f T, Ok tt).

(** [for (const x of xs) body(x)] over a list fixed when the loop starts. *)
Fixpoint forEach {A} (xs : list A) (body : A → M unit) : M unit :=
  match xs with
  | [] => ret tt
  | x :: xs' => do* body x in forEach xs' body
  end.

(** Reading an object through a reference. *)
Definition getSymbol (r : SymRef) : M AstSymbol :=
  let* s := gets (λ T, symbols T !! r) in
  match s with Some s => ret s | None => dangling end.

Definition getDeclaration (r : DeclRef) : M AstDeclaration :=
  let* d := gets (λ T, declarations T !! r) in
  match d with Some d => ret d | None => dangling end.

Definition getModule (r : ModRef) : M AstModule :=
  let* m := gets (λ T, modules T !! r) in
  match m with Some m => ret m | None => dangling end.

(** ** AstSymbol, AstDeclaration and AstModule: constructors and members *)

Definition set_astDeclarations (ds : list DeclRef) (s : AstSymbol) : AstSymbol :=
  {| localName := localName s; followedSymbol := followedSymbol s;
     astImport := astImport s; parentAstSymbol := parentAstSymbol s;
     rootAstSymbol := rootAstSymbol s; nominal := nominal s;
     astDeclarations := ds; _analyzed := _analyzed s |}.

Definition set_analyzed (s : AstSymbol) : AstSymbol :=
  {| localName := localName s; followedSymbol := followedSymbol s;
     astImport := astImport s; parentAstSymbol := parentAstSymbol s;
     rootAstSymbol := rootAstSymbol s; nominal := nominal s;
     astDeclarations := astDeclarations s; _analyzed := true |}.

Definition set_children (cs : list DeclRef) (d : AstDeclaration) : AstDeclaration :=
  {| declaration := declaration d; astSymbol := astSymbol d; parent := parent d;
     children := cs; referencedAstSymbols := referencedAstSymbols d |}.

Definition set_referencedAstSymbols (rs : list SymRef) (d : AstDeclaration)
    : AstDeclaration :=
  {| declaration := declaration d; astSymbol := astSymbol d; parent := parent d;
     children := children d; referencedAstSymbols := rs |}.

Definition set_exportedSymbols (es : gmap string SymRef) (m : AstModule) : AstModule :=
  {| sourceFile := sourceFile m; externalModulePath := externalModulePath m;
     exportedSymbols := es; starExportedModules := starExportedModules m |}.

Definition set_externalModulePath (p : option string) (m : AstModule) : AstModule :=
  {| sourceFile := sourceFile m; externalModulePath := p;
     exportedSymbols := exportedSymbols m;
     starExportedModules := starExportedModules m |}.

Definition set_starExportedModules (ms : list ModRef) (m : AstModule) : AstModule :=
  {| sourceFile := sourceFile m; externalModulePath := externalModulePath m;
     exportedSymbols := exportedSymbols m; starExportedModules := ms |}.

(** [Set.prototype.add] on a set kept in insertion order. *)
Definition set_add (x : nat) (xs : list nat) : list nat :=
  if bool_decide (x ∈ xs) then xs else xs ++ [x].

(** Modelled from the spec: the getter [AstSymbol.imported] is not among the
    sources.  [analyze] reads it under the comment "Walk up to the root of
    the tree, looking for any imports along the way": a symbol counts as
    imported when its root carries an import. *)
Definition symbol_imported (ss : list AstSymbol) (r : SymRef) : option bool :=
  match ss !! r with
  | Some s =>
      match ss !! rootAstSymbol s with
      | Some root => Some (bool_decide (is_Some (astImport root)))
      | None => None
      end
  | None => None
  end.

(** Modelled from the spec: the getter [AstSymbol.analyzed] is not among the
    sources.  [analyze] raises the flag of the root only and documents that
    it "ensures that AstSymbol.analyzed is true for the provided symbol": the
    getter reads the flag of the root. *)
Definition symbol_analyzed (ss : list AstSymbol) (r : SymRef) : option bool :=
  match ss !! r with
  | Some s =>
      match ss !! rootAstSymbol s with
      | Some root => Some (_analyzed root)
      | None => None
      end
  | None => None
  end.

Definition liftOption {A} (o : option A) : M A :=
  match o with Some a => ret a | None => dangling end.

Definition imported (r : SymRef) : M bool :=
  let* b := gets (λ T, symbol_imported (symbols T) r) in liftOption b.

Definition analyzed (r : SymRef) : M bool :=
  let* b := gets (λ T, symbol_analyzed (symbols T) r) in liftOption b.

(** [AstSymbol._notifyAnalyzed()] *)
Definition _notifyAnalyzed (r : SymRef) : M unit :=
  do* getSymbol r in
  modify (with_symbols (alter set_analyzed r)).

(** [new AstSymbol({...})]: the object is allocated at the end of the heap;
    without a [rootAstSymbol] argument the node is its own root. *)
Definition new_AstSymbol (localName : string) (followedSymbol : TsSymbol)
    (astImport : option AstImport) (parentAstSymbol : option SymRef)
    (rootAstSymbol : option SymRef) (nominal : bool) : M SymRef :=
  let* r := gets (λ T, length (symbols T)) in
  do* modify (with_symbols (λ ss, ss ++
        [ {| localName := localName; followedSymbol := followedSymbol;
             astImport := astImport; parentAstSymbol := parentAstSymbol;
             rootAstSymbol := default r rootAstSymbol; nominal := nominal;
             astDeclarations := []; _analyzed := false |} ])) in
  ret r.

(** [new AstDeclaration({declaration, astSymbol, parent})]: the new node is
    attached to its symbol and, when it has one, to its parent. *)
Definition new_AstDeclaration (declaration : TsNode) (astSymbol : SymRef)
    (parent : option DeclRef) : M DeclRef :=
  let* r := gets (λ T, length (declarations T)) in
  do* modify (with_declarations (λ ds, ds ++
        [ {| declaration := declaration; astSymbol := astSymbol; parent := parent;
             children := []; referencedAstSymbols := [] |} ])) in
  do* modify (with_symbols
        (alter (λ s, set_astDeclarations (astDeclarations s ++ [r]) s) astSymbol)) in
  do* match parent with
      | Some p => modify (with_declarations
                    (alter (λ d, set_children (children d ++ [r]) d) p))
      | None => ret tt
      end in
  ret r.

(** [AstDeclaration._notifyReferencedAstSymbol]: the spec keeps the
    referenced symbols as a set that only grows. *)
Definition _notifyReferencedAstSymbol (d : DeclRef) (referenced : SymRef) : M unit :=
  do* getDeclaration d in
  modify (with_declarations
    (alter (λ x, set_referencedAstSymbols (set_add referenced (referencedAstSymbols x)) x) d)).

(** [new AstModule(sourceFile)] *)
Definition new_AstModule (sourceFile : TsNode) : M ModRef :=
  let* r := gets (λ T, length (modules T)) in
  do* modify (with_modules (λ ms, ms ++
        [ {| sourceFile := sourceFile; externalModulePath := None;
             exportedSymbols := ∅; starExportedModules := [] |} ])) in
  ret r.

Section AstSymbolTable.
Context (P : TsProgram).

(** ** [_tryFindFirstAstDeclarationParent] *)

Fixpoint whileCurrentNode (fuel : nat) (currentNode : option TsNode)
    : M (option TsNode) :=
  match fuel with
  | 0 => outOfFuel
  | S fuel' =>
      match currentNode with
      | None => ret None
      | Some n =>
          if isAstDeclaration P (node_kind P n) then ret (Some n)
          else whileCurrentNode fuel' (node_parent P n)
      end
  end.

Definition _tryFindFirstAstDeclarationParent (fuel : nat) (node : TsNode)
    : M (option TsNode) :=
  whileCurrentNode fuel (node_parent P node).

(** ** [_fetchAstSymbol] *)

(** The mask of the first filter. *)
Definition filteredFlags : Z :=
  Z.lor (Z.lor SymbolFlags.TypeParameter SymbolFlags.TypeLiteral)
        SymbolFlags.Transient.

(** One iteration of the loop that creates an [AstDeclaration] per
    declaration and wires it to its parent declaration. *)
Definition createDeclaration (fuel : nat) (astSymbol : SymRef)
    (parentAstSymbol : option SymRef) (declaration : TsNode) : M unit :=
  let* parentAstDeclaration :=
    match parentAstSymbol with
    | Some _ =>
        let* parentDeclaration := _tryFindFirstAstDeclarationParent fuel declaration in
        match parentDeclaration with
        | None => throw InternalError_MissingParentDeclaration
        | Some pd =>
            let* found := gets (λ T, _astDeclarationsByDeclaration T !! pd) in
            match found with
            | None => throw InternalError_MissingParentAstDeclaration
            | Some pad => ret (Some pad)
            end
        end
    | None => ret None
    end in
  let* astDeclaration := new_AstDeclaration declaration astSymbol parentAstDeclaration in
  modify (with_byDeclaration (<[declaration := astDeclaration]>)).

Definition createDeclarations (fuel : nat) (decls : list TsNode)
    (astSymbol : SymRef) (parentAstSymbol : option SymRef) : M unit :=
  forEach decls (createDeclaration fuel astSymbol parentAstSymbol).

(** The loop that rejects a declaration of a kind that is not an
    [AstDeclaration]. *)
Definition requireAstDeclarations (followedSymbol : TsSymbol)
    (decls : list TsNode) : M unit :=
  forEach decls (λ declaration,
    if isAstDeclaration P (node_kind P declaration) then ret tt
    else throw (InternalError_UnimplementedLanguageFeature
                  (sym_name P followedSymbol) (node_kind P declaration))).

Fixpoint _fetchAstSymbol (fuel : nat) (followedSymbol : TsSymbol)
    (addIfMissing : bool) (astImportOptions : option IAstImportOptions)
    : M (option SymRef) :=
  match fuel with
  | 0 => outOfFuel
  | S fuel' =>
    if negb (Z.land (sym_flags P followedSymbol) filteredFlags =? 0)%Z then ret None
    else if isAmbient P followedSymbol then ret None
    else
      let* cached := gets (λ T, _astSymbolsBySymbol T !! followedSymbol) in
      let* astSymbol :=
        match cached with
        | Some a => ret a
        | None =>
          match sym_declarations P followedSymbol with
          | None | Some [] => throw InternalError_FollowedSymbolWithNoDeclarations
          | Some (d0 :: ds) =>
            let astImport := new_AstImport <$> astImportOptions in
            let* byKey :=
              match astImport with
              | Some i =>
                  let* a := gets (λ T, _astSymbolsByImportKey T !! key i) in
                  match a with
                  | Some a' =>
                      do* modify (with_bySymbol (<[followedSymbol := a']>)) in
                      ret (Some a')
                  | None => ret None
                  end
              | None => ret None
              end in
            match byKey with
            | Some a => ret a
            | None =>
              let nominal :=
                (bool_decide (ds = []) && bool_decide (node_kind P d0 = SourceFile))
                || (bool_decide (is_Some astImport)
                    && negb (isAedocSupportedFor P
                               (sourceFile_fileName P (node_getSourceFile P d0)))) in
              let* parentAstSymbol :=
                if nominal then ret None
                else
                  do* requireAstDeclarations followedSymbol (d0 :: ds) in
                  let* arbitaryParentDeclaration :=
                    _tryFindFirstAstDeclarationParent fuel' d0 in
                  match arbitaryParentDeclaration with
                  | None => ret None
                  | Some pd =>
                      match getSymbolForDeclaration P pd with
                      | None => throw TypeError
                      | Some parentSymbol =>
                          let* p := _fetchAstSymbol fuel' parentSymbol addIfMissing None in
                          match p with
                          | None => throw (InternalError_UnableToConstructParent
                                             (sym_name P followedSymbol))
                          | Some p' => ret (Some p')
                          end
                      end
                  end in
              let* rootAstSymbol :=
                match parentAstSymbol with
                | Some p => let* ps := getSymbol p in ret (Some (rootAstSymbol ps))
                | None => ret None
                end in
              let* astSymbol :=
                new_AstSymbol (sym_name P followedSymbol) followedSymbol astImport
                              parentAstSymbol rootAstSymbol nominal in
              do* modify (with_bySymbol (<[followedSymbol := astSymbol]>)) in
              do* match astImport with
                  | Some i => modify (with_byImportKey (<[key i := astSymbol]>))
                  | None => ret tt
                  end in
              do* createDeclarations fuel' (d0 :: ds) astSymbol parentAstSymbol in
              ret astSymbol
            end
          end
        end in
      match astImportOptions with
      | Some _ =>
          let* isImported := imported astSymbol in
          if negb isImported then
            let* s := getSymbol astSymbol in
            throw (InternalError_ImportedAfterNonImported (localName s))
          else ret (Some astSymbol)
      | None => ret (Some astSymbol)
      end
  end.

(** ** [tryGetAstSymbol] *)

Definition tryGetAstSymbol (fuel : nat) (symbol : TsSymbol) : M (option SymRef) :=
  _fetchAstSymbol fuel symbol false None.

(** ** [getChildAstDeclarationByNode] *)

(** How [getChildAstDeclarationByNode] fails: one constructor per [throw]
    of the method.  [ChildLookup_Dangling] belongs to the model only, as
    [Dangling] does. *)
Inductive ChildLookupError :=
| Error_NotAnalyzed
| Error_ChildDeclarationNotFound
| InternalError_ChildNotAttached
| ChildLookup_Dangling.

(** The method only reads the table: it checks that the symbol of the
    parent declaration is analyzed, looks the node up in
    [_astDeclarationsByDeclaration], and checks that the declaration found
    has [parentAstDeclaration] as its parent. *)
Definition getChildAstDeclarationByNode (node : TsNode)
    (parentAstDeclaration : DeclRef) (T : AstSymbolTable)
    : ChildLookupError + DeclRef :=
  match declarations T !! parentAstDeclaration with
  | None => inl ChildLookup_Dangling
  | Some pd =>
      match symbol_analyzed (symbols T) (astSymbol pd) with
      | None => inl ChildLookup_Dangling
      | Some false => inl Error_NotAnalyzed
      | Some true =>
          match _astDeclarationsByDeclaration T !! node with
          | None => inl Error_ChildDeclarationNotFound
          | Some childAstDeclaration =>
              match declarations T !! childAstDeclaration with
              | None => inl ChildLookup_Dangling
              | Some cd =>
                  if bool_decide (parent cd = Some parentAstDeclaration)
                  then inr childAstDeclaration
                  else inl InternalError_ChildNotAttached
              end
          end
      end
  end.

(** ** [_tryGetExportOfAstModule] and [_getExportOfAstModule] *)

(** The loop over [astModule.starExportedModules]; [recur] is the
    recursive call, and the set of visited modules is handed on from one
    probe to the next. *)
Fixpoint tryStarExportedModules
    (recur : ModRef → gset ModRef → M (option SymRef * gset ModRef))
    (stars : list ModRef) (visitedAstModules : gset ModRef)
    : M (option SymRef * gset ModRef) :=
  match stars with
  | [] => ret (None, visitedAstModules)
  | starExportedModule :: rest =>
      let* r := recur starExportedModule visitedAstModules in
      match r with
      | (Some a, visited') => ret (Some a, visited')
      | (None, visited') => tryStarExportedModules recur rest visited'
      end
  end.

(** The set [visitedAstModules] is updated in place by the source; here it
    is passed in and returned. *)
Fixpoint _tryGetExportOfAstModule (fuel : nat) (exportName : string)
    (astModule : ModRef) (visitedAstModules : gset ModRef)
    : M (option SymRef * gset ModRef) :=
  match fuel with
  | 0 => outOfFuel
  | S fuel' =>
      if bool_decide (astModule ∈ visitedAstModules) then ret (None, visitedAstModules)
      else
        let visited := {[astModule]} ∪ visitedAstModules in
        let* m := getModule astModule in
        match exportedSymbols m !! exportName with
        | Some a => ret (Some a, visited)
        | None =>
            tryStarExportedModules (_tryGetExportOfAstModule fuel' exportName)
              (starExportedModules m) visited
        end
  end.

Definition _getExportOfAstModule (fuel : nat) (exportName : string)
    (astModule : ModRef) : M SymRef :=
  let* r := _tryGetExportOfAstModule fuel exportName astModule ∅ in
  match fst r with
  | None => throw (InternalError_UnableToAnalyzeExport exportName)
  | Some a => ret a
  end.

(** ** Module resolution *)

(** [astModule.exportedSymbols.set(name, astSymbol)] *)
Definition exportedSymbols_set (astModule : ModRef) (name : string)
    (a : SymRef) : M unit :=
  do* getModule astModule in
  modify (with_modules
    (alter (λ m, set_exportedSymbols (<[name := a]> (exportedSymbols m)) m) astModule)).

(** [astModule.starExportedModules.add(m)] *)
Definition starExportedModules_add (astModule : ModRef) (target : ModRef) : M unit :=
  do* getModule astModule in
  modify (with_modules
    (alter (λ m, set_starExportedModules (set_add target (starExportedModules m)) m)
           astModule)).

Section OpenRecursion.
(** [fetchAstModuleBySourceFile], [_collectExportForAstModule],
    [_collectExportsFromExportStar] and [_fetchSpecifierAstModule] call
    one another; [recur] stands for [fetchAstModuleBySourceFile] in the
    three helpers. *)
Context (recur : TsNode → option string → M ModRef).

Definition _fetchSpecifierAstModule (exportStarDeclaration : TsNode)
    : M (option ModRef) :=
  match getModuleSpecifier P exportStarDeclaration with
  | None | Some EmptyString => ret None
  | Some moduleSpecifier =>
      match getResolvedModule P (node_getSourceFile P exportStarDeclaration)
              moduleSpecifier with
      | None => throw (InternalError_CouldNotResolveModuleName moduleSpecifier)
      | Some resolvedFileName =>
          match program_getSourceFile P resolvedFileName with
          | None => throw (InternalError_FailedToLocate resolvedFileName)
          | Some moduleSourceFile =>
              let* specifierAstModule := recur moduleSourceFile (Some moduleSpecifier) in
              ret (Some specifierAstModule)
          end
      end
  end.

Definition _collectExportsFromExportStar (astModule : ModRef)
    (exportStarDeclaration : TsNode) : M unit :=
  if bool_decide (node_kind P exportStarDeclaration = ExportDeclaration) then
    let* starExportedModule := _fetchSpecifierAstModule exportStarDeclaration in
    match starExportedModule with
    | Some m => starExportedModules_add astModule m
    | None => ret tt
    end
  else ret tt.

(** The [for] loop over [current.declarations] inside the [while]: the
    result is [true] when the loop left the whole function through its
    [return]. *)
Fixpoint forCurrentDeclarations (fuel : nat) (astModule : ModRef)
    (exportedSymbol : TsSymbol) (decls : list TsNode) : M bool :=
  match decls with
  | [] => ret false
  | declaration :: rest =>
      match findFirstParent P declaration ExportDeclaration with
      | Some exportDeclaration =>
          if bool_decide (node_kind P declaration = ExportSpecifier) then
            let exportName :=
              default (exportSpecifier_name P declaration)
                      (exportSpecifier_propertyName P declaration) in
            let* specifierAstModule := _fetchSpecifierAstModule exportDeclaration in
            match specifierAstModule with
            | Some m =>
                let* exportedAstSymbol := _getExportOfAstModule fuel exportName m in
                do* exportedSymbols_set astModule (sym_name P exportedSymbol)
                                        exportedAstSymbol in
                ret true
            | None => forCurrentDeclarations fuel astModule exportedSymbol rest
            end
          else throw (Error_UnimplementedExportDeclarationKind
                        (node_getText P declaration))
      | None => forCurrentDeclarations fuel astModule exportedSymbol rest
      end
  end.

(** What follows the [while] loop: "assume it is a normal declaration". *)
Definition collectNormalDeclaration (fuel : nat) (astModule : ModRef)
    (exportedSymbol current : TsSymbol) : M unit :=
  let* fetchedAstSymbol := _fetchAstSymbol fuel current true None in
  match fetchedAstSymbol with
  | Some a => exportedSymbols_set astModule (sym_name P exportedSymbol) a
  | None => ret tt
  end.

(** The [while (true)] loop, one unit of [steps] per iteration. *)
Fixpoint whileTrue (steps fuel : nat) (astModule : ModRef)
    (exportedSymbol current : TsSymbol) : M unit :=
  match steps with
  | 0 => outOfFuel
  | S steps' =>
      let* returned :=
        forCurrentDeclarations fuel astModule exportedSymbol
          (default [] (sym_declarations P current)) in
      if (returned : bool) then ret tt
      else if (Z.land (sym_flags P current) SymbolFlags.Alias =? 0)%Z then
        collectNormalDeclaration fuel astModule exportedSymbol current
      else
        match getImmediateAliasedSymbol P current with
        | None => collectNormalDeclaration fuel astModule exportedSymbol current
        | Some currentAlias =>
            if bool_decide (currentAlias = current) then
              collectNormalDeclaration fuel astModule exportedSymbol current
            else whileTrue steps' fuel astModule exportedSymbol currentAlias
        end
  end.

Definition _collectExportForAstModule (fuel : nat) (astModule : ModRef)
    (exportedSymbol : TsSymbol) : M unit :=
  whileTrue fuel fuel astModule exportedSymbol exportedSymbol.

(** The external branch of [fetchAstModuleBySourceFile]: one iteration
    of the loop over [getExportsOfModule]. *)
Definition collectExternalExport (fuel : nat) (astModule : ModRef)
    (exportedSymbol : TsSymbol) : M unit :=
  let* m := getModule astModule in
  match externalModulePath m with
  | None => throw TypeError
  | Some path =>
      let astImportOptions :=
        {| exportName := sym_name P exportedSymbol; modulePath := path |} in
      let followedSymbol := followAliases P exportedSymbol in
      let* a := _fetchAstSymbol fuel followedSymbol true (Some astImportOptions) in
      match a with
      | None => throw (Error_UnsupportedExport (sym_name P exportedSymbol))
      | Some a' => exportedSymbols_set astModule (sym_name P exportedSymbol) a'
      end
  end.

(** The local branch: one iteration of the loop over
    [moduleSymbol.exports]. *)
Definition collectLocalExport (fuel : nat) (astModule : ModRef)
    (exportedSymbol : TsSymbol) : M unit :=
  if bool_decide (sym_escapedName P exportedSymbol = ExportStar) then
    forEach (default [] (sym_declarations P exportedSymbol))
            (_collectExportsFromExportStar astModule)
  else _collectExportForAstModule fuel astModule exportedSymbol.

(** The branch for the entry point of an external package. *)
Definition populateExternalModule (fuel : nat) (sourceFile : TsNode)
    (moduleSpecifier : string) (astModule : ModRef) : M unit :=
  do* modify (with_modules
        (alter (set_externalModulePath (Some moduleSpecifier)) astModule)) in
  match getSymbolForDeclaration P sourceFile with
  | None => throw TypeError
  | Some moduleSymbol =>
      forEach (getExportsOfModule P moduleSymbol)
              (collectExternalExport fuel astModule)
  end.

(** The branch for a module of the project. *)
Definition populateLocalModule (fuel : nat) (sourceFile : TsNode)
    (astModule : ModRef) : M unit :=
  match getSymbolForDeclaration P sourceFile with
  | None => throw TypeError
  | Some moduleSymbol =>
      forEach (default [] (sym_exports P moduleSymbol))
              (collectLocalExport fuel astModule)
  end.

(** The body of [fetchAstModuleBySourceFile]. *)
Definition fetchAstModuleBySourceFile_body (fuel : nat) (sourceFile : TsNode)
    (moduleSpecifier : option string) : M ModRef :=
  let* cached := gets (λ T, _astModulesBySourceFile T !! sourceFile) in
  match cached with
  | Some astModule => ret astModule
  | None =>
      let* astModule := new_AstModule sourceFile in
      do* modify (with_bySourceFile (<[sourceFile := astModule]>)) in
      do* match moduleSpecifier with
          | Some spec =>
              if negb (isExternalModuleNameRelative P spec)
              then populateExternalModule fuel sourceFile spec astModule
              else populateLocalModule fuel sourceFile astModule
          | None => populateLocalModule fuel sourceFile astModule
          end in
      ret astModule
  end.
End OpenRecursion.

Fixpoint fetchAstModuleBySourceFile (fuel : nat) (sourceFile : TsNode)
    (moduleSpecifier : option string) : M ModRef :=
  match fuel with
  | 0 => outOfFuel
  | S fuel' =>
      fetchAstModuleBySourceFile_body (fetchAstModuleBySourceFile fuel') fuel'
        sourceFile moduleSpecifier
  end.

(** ** [analyze] and the walk of the child tree *)

Definition _fetchAstSymbolForNode (fuel : nat) (node : TsNode) : M (option SymRef) :=
  if negb (isAstDeclaration P (node_kind P node)) then ret None
  else
    match getSymbolForDeclaration P node with
    | None => throw InternalError_UnableToFindSymbolForNode
    | Some symbol => _fetchAstSymbol fuel symbol true None
    end.

Definition _fetchAstDeclaration (fuel : nat) (node : TsNode) : M (option DeclRef) :=
  let* astSymbol := _fetchAstSymbolForNode fuel node in
  match astSymbol with
  | None => ret None
  | Some _ =>
      let* astDeclaration := gets (λ T, _astDeclarationsByDeclaration T !! node) in
      match astDeclaration with
      | None => throw InternalError_UnableToFindConstructedAstDeclaration
      | Some d => ret (Some d)
      end
  end.

(** The [case] group of the [switch]: a reference to another symbol. *)
Definition isTypeReferenceLike (k : SyntaxKind) : bool :=
  match k with
  | TypeReference | ExpressionWithTypeArguments | ComputedPropertyName => true
  | _ => false
  end.

Definition recordReference (fuel : nat) (node : TsNode)
    (governingAstDeclaration : DeclRef) : M unit :=
  match findFirstChildNode P node Identifier with
  | None => ret tt
  | Some symbolNode =>
      match getSymbolAtLocation P symbolNode with
      | None => throw (Error_SymbolNotFoundForIdentifier (node_getText P symbolNode))
      | Some symbol =>
          let* referencedAstSymbol := _fetchAstSymbol fuel symbol true None in
          match referencedAstSymbol with
          | Some a => _notifyReferencedAstSymbol governingAstDeclaration a
          | None => ret tt
          end
      end
  end.

Fixpoint _analyzeChildTree (fuel : nat) (node : TsNode)
    (governingAstDeclaration : DeclRef) : M unit :=
  match fuel with
  | 0 => outOfFuel
  | S fuel' =>
      if bool_decide (node_kind P node = JSDocComment) then ret tt
      else
        do* (if isTypeReferenceLike (node_kind P node)
             then recordReference fuel' node governingAstDeclaration
             else ret tt) in
        let* newGoverningAstDeclaration := _fetchAstDeclaration fuel' node in
        forEach (node_getChildren P node) (λ childNode,
          _analyzeChildTree fuel' childNode
            (default governingAstDeclaration newGoverningAstDeclaration))
  end.

(** The first half of [analyze]: the child tree of every declaration of
    the root is filled out, then the root is notified. *)
Definition analyzeRoot (fuel : nat) (rootAstSymbol : SymRef) : M unit :=
  let* root := getSymbol rootAstSymbol in
  do* forEach (astDeclarations root) (λ astDeclaration,
        let* d := getDeclaration astDeclaration in
        _analyzeChildTree fuel (declaration d) astDeclaration) in
  _notifyAnalyzed rootAstSymbol.

(** The declarations below [d], [d] first, then its children in order. *)
Fixpoint declarationSubtree (fuel : nat) (ds : list AstDeclaration) (d : DeclRef)
    : option (list DeclRef) :=
  match fuel with
  | 0 => None
  | S fuel' =>
      match ds !! d with
      | None => None
      | Some x =>
          rest ← mapM (declarationSubtree fuel' ds) (children x);
          Some (d :: concat rest)
      end
  end.

(** Modelled from the spec: [AstSymbol.forEachDeclarationRecursive] and
    the getters of [AstDeclaration] are not among the sources.  The spec
    has [analyze] called "on every referenced symbol collected anywhere in
    the subtree": the callback runs once for every declaration that is in
    the tree of the symbol when the traversal starts, on the referenced
    symbols that the declaration holds at that time. *)
Definition forEachDeclarationRecursive (fuel : nat) (a : SymRef)
    (action : DeclRef → list SymRef → M unit) : M unit :=
  let* s := getSymbol a in
  let* ds := gets declarations in
  match mapM (declarationSubtree fuel ds) (astDeclarations s) with
  | None => outOfFuel
  | Some trees =>
      forEach (concat trees) (λ d,
        match ds !! d with
        | Some x => action d (referencedAstSymbols x)
        | None => dangling
        end)
  end.

(** The callback that [analyze] hands to [forEachDeclarationRecursive],
    with [recur] for the recursive call of [analyze]. *)
Definition analyzeReferenced (recur : SymRef → M unit)
    (referenced : list SymRef) : M unit :=
  forEach referenced (λ referencedAstSymbol,
    let* isImported := imported referencedAstSymbol in
    if negb isImported then recur referencedAstSymbol else ret tt).

Fixpoint analyze (fuel : nat) (astSymbol : SymRef) : M unit :=
  match fuel with
  | 0 => outOfFuel
  | S fuel' =>
      let* isAnalyzed := analyzed astSymbol in
      if (isAnalyzed : bool) then ret tt
      else
        let* s := getSymbol astSymbol in
        if nominal s then _notifyAnalyzed astSymbol
        else
          do* analyzeRoot fuel' (rootAstSymbol s) in
          match astImport s with
          | Some _ => ret tt
          | None =>
              forEachDeclarationRecursive fuel' (rootAstSymbol s)
                (λ _ referenced, analyzeReferenced (analyze fuel') referenced)
          end
  end.

End AstSymbolTable.

(** * The vocabulary of the statements

    The relations and predicates that the theorems below are stated
    with. *)

(** A symbol node at a later state: the [readonly] fields are the same and
    the flag [_analyzed] is not lowered. *)
Definition symbol_extends (s s' : AstSymbol) : Prop :=
  localName s' = localName s ∧ followedSymbol s' = followedSymbol s ∧
  astImport s' = astImport s ∧ parentAstSymbol s' = parentAstSymbol s ∧
  rootAstSymbol s' = rootAstSymbol s ∧ nominal s' = nominal s ∧
  (_analyzed s = true → _analyzed s' = true).

(** A declaration node at a later state: children and referenced symbols
    are only added. *)
Definition declaration_extends (d d' : AstDeclaration) : Prop :=
  declaration d' = declaration d ∧ astSymbol d' = astSymbol d ∧
  parent d' = parent d ∧ children d ⊆ children d' ∧
  referencedAstSymbols d ⊆ referencedAstSymbols d'.

(** A module at a later state: exported names and wildcard targets are
    only added. *)
Definition module_extends (m m' : AstModule) : Prop :=
  sourceFile m' = sourceFile m ∧
  dom (exportedSymbols m) ⊆ dom (exportedSymbols m') ∧
  starExportedModules m ⊆ starExportedModules m'.

(** A heap at a later state: every reference is still allocated, and its
    object is a later state of what it was. *)
Definition heap_extends {A} (R : A → A → Prop) (h h' : list A) : Prop :=
  ∀ i x, h !! i = Some x → ∃ x', h' !! i = Some x' ∧ R x x'.

(** [extends T T']: the table [T'] may come after [T] in a run. *)
Record extends (T T' : AstSymbolTable) : Prop := {
  ext_bySymbol : _astSymbolsBySymbol T ⊆ _astSymbolsBySymbol T';
  ext_byImportKey : _astSymbolsByImportKey T ⊆ _astSymbolsByImportKey T';
  ext_bySourceFile : _astModulesBySourceFile T ⊆ _astModulesBySourceFile T';
  ext_symbols : heap_extends symbol_extends (symbols T) (symbols T');
  ext_declarations : heap_extends declaration_extends (declarations T) (declarations T');
  ext_modules : heap_extends module_extends (modules T) (modules T')
}.

(** [keeps I m]: whatever its outcome, [m] leaves a table that satisfies
    [I] when it starts from one that does. *)
Definition keeps {A} (I : AstSymbolTable → Prop) (m : M A) : Prop :=
  ∀ T, I T → I (m T).1.

(** [m] only adds to the table. *)
Definition monotone {A} (m : M A) : Prop := ∀ T, extends T (m T).1.

(** The two caches of symbol nodes are those of [T0]. *)
Definition same_symbol_caches (T0 T : AstSymbolTable) : Prop :=
  _astSymbolsBySymbol T = _astSymbolsBySymbol T0 ∧
  _astSymbolsByImportKey T = _astSymbolsByImportKey T0.

(** Two computations that behave alike on every table. *)
Definition meq {A} (m m' : M A) : Prop := ∀ T, m T = m' T.

(** The declaration [d] has a declaration node, allocated at or after
    [len0], that belongs to the symbol node [r]. *)
Definition declared (T : AstSymbolTable) (len0 : nat) (r : SymRef) (d : TsNode) : Prop :=
  ∃ dr dn, _astDeclarationsByDeclaration T !! d = Some dr ∧
    declarations T !! dr = Some dn ∧ declaration dn = d ∧ astSymbol dn = r ∧
    len0 ≤ dr.

(** The modules allocated so far, as a set of references. *)
Definition allModules (T : AstSymbolTable) : gset nat :=
  list_to_set (seq 0 (length (modules T))).

(** No module wildcard-exports a module that was never allocated. *)
Definition modules_closed (T : AstSymbolTable) : Prop :=
  ∀ i m j, modules T !! i = Some m → j ∈ starExportedModules m →
    j < length (modules T).

(** What a finished lookup may return: the table is untouched; a result
    comes with a larger set of visited modules and is "not found" when no
    module at all exports the name; [dangling] stands for what can have gone
    wrong with the references; nothing is thrown and the fuel is not used up. *)
Definition lookup_post (T : AstSymbolTable) (exportName : string)
    (dangling : Prop) (visited : gset nat)
    (res : AstSymbolTable * Outcome (option nat * gset nat)) : Prop :=
  res.1 = T ∧
  match res.2 with
  | Ok (r, visited') =>
      visited ⊆ visited' ∧
      ((∀ i m, modules T !! i = Some m → exportedSymbols m !! exportName = None) →
       r = None)
  | Dangling => dangling
  | Throw _ | OutOfFuel => False
  end.

(** What a finished [analyze] leaves behind for its argument. *)
Definition analyze_done (T : AstSymbolTable) (a : nat) : Prop :=
  symbol_analyzed (symbols T) a = Some true ∨
  ∃ s, symbols T !! a = Some s ∧ nominal s = true ∧ _analyzed s = true ∧
       is_Some (symbols T !! rootAstSymbol s).

(** The source file [target] is what an [export * from '...'] declaration
    of the module [sf] resolves to. *)
Definition wildcardTarget (P : TsProgram) (sf target : nat) : Prop :=
  ∃ moduleSymbol exps exportedSymbol decls d moduleSpecifier resolvedFileName,
    getSymbolForDeclaration P sf = Some moduleSymbol ∧
    sym_exports P moduleSymbol = Some exps ∧
    exportedSymbol ∈ exps ∧
    sym_escapedName P exportedSymbol = ExportStar ∧
    sym_declarations P exportedSymbol = Some decls ∧
    d ∈ decls ∧
    node_kind P d = ExportDeclaration ∧
    getModuleSpecifier P d = Some moduleSpecifier ∧
    moduleSpecifier ≠ "" ∧
    getResolvedModule P (node_getSourceFile P d) moduleSpecifier = Some resolvedFileName ∧
    program_getSourceFile P resolvedFileName = Some target.

(** The specifier does not name the entry point of an external package. *)
Definition isLocalSpecifier (P : TsProgram) (moduleSpecifier : option string) : Prop :=
  match moduleSpecifier with
  | Some spec => isExternalModuleNameRelative P spec = true
  | None => True
  end.

(** The two filters at the head of [_fetchAstSymbol]. *)
Definition filteredOut (P : TsProgram) (s : nat) : Prop :=
  Z.land (sym_flags P s) filteredFlags ≠ 0%Z ∨ isAmbient P s = true.

(** No declaration of [c] makes the [for] loop of
    [_collectExportForAstModule] resolve a module: a declaration is either
    outside any export declaration, or an export specifier of an export
    declaration without a module specifier. *)
Definition notReexported (P : TsProgram) (c : nat) : Prop :=
  ∀ d, d ∈ default [] (sym_declarations P c) →
    match findFirstParent P d ExportDeclaration with
    | None => True
    | Some exportDeclaration =>
        node_kind P d = ExportSpecifier ∧
        (getModuleSpecifier P exportDeclaration = None ∨
         getModuleSpecifier P exportDeclaration = Some "")
    end.

(** [aliasChain P n e t]: the [while] loop started at [e] leaves through
    one of its [break]s after [n] alias steps, with [current = t]. *)
Inductive aliasChain (P : TsProgram) : nat → nat → nat → Prop :=
| aliasChain_break c :
    notReexported P c →
    Z.land (sym_flags P c) SymbolFlags.Alias = 0%Z ∨
    getImmediateAliasedSymbol P c = None ∨
    getImmediateAliasedSymbol P c = Some c →
    aliasChain P 0 c c
| aliasChain_step n c currentAlias t :
    notReexported P c →
    Z.land (sym_flags P c) SymbolFlags.Alias ≠ 0%Z →
    getImmediateAliasedSymbol P c = Some currentAlias →
    currentAlias ≠ c →
    aliasChain P n currentAlias t →
    aliasChain P (S n) c t.

(** An invariant that only reads the heap of symbols. *)
Definition on_symbols (J : list AstSymbol → Prop) : AstSymbolTable → Prop :=
  λ T, J (symbols T).

(** A nominal symbol is built without a parent, so it is its own root. *)
Definition nominal_roots (ss : list AstSymbol) : Prop :=
  ∀ i s, ss !! i = Some s → nominal s = true → rootAstSymbol s = i.

(** Every symbol whose [_analyzed] flag is up in [ss] had it up in [ss0]. *)
Definition flags_from (ss0 ss : list AstSymbol) : Prop :=
  ∀ i s, ss !! i = Some s → _analyzed s = true →
    ∃ s0, ss0 !! i = Some s0 ∧ _analyzed s0 = true.

(** The invariants of the heap of symbols that the proofs carry through
    the construction of nodes. *)
Inductive SymbolsInvariant : (list AstSymbol → Prop) → Prop :=
| inv_nominal_roots : SymbolsInvariant nominal_roots
| inv_flags_from ss0 : SymbolsInvariant (flags_from ss0).

(** [subtree ds d d']: the declaration [d'] is [d] or below it. *)
Inductive subtree (ds : list AstDeclaration) : nat → nat → Prop :=
| subtree_here d : subtree ds d d
| subtree_child d x c d' :
    ds !! d = Some x → c ∈ children x → subtree ds c d' → subtree ds d d'.

(** The flags that are up in [T'] were up in [T], or sit on a symbol
    without an import, or on a symbol that [extra] allows. *)
Definition raised_ok (extra : nat → Prop) (T T' : AstSymbolTable) : Prop :=
  ∀ i s', symbols T' !! i = Some s' → _analyzed s' = true →
    (∃ s0, symbols T !! i = Some s0 ∧ _analyzed s0 = true) ∨
    astImport s' = None ∨ extra i.

(** What the expansion of references does to the table: it extends it,
    and it raises the flag of no symbol that carries an import. *)
Definition expansion_ok (T T' : AstSymbolTable) : Prop :=
  extends T T' ∧ raised_ok (λ _, False) T T'.

(** [own_root T a i]: [i] is the root of the symbol node [a]. *)
Definition own_root (T : AstSymbolTable) (a : nat) : nat → Prop :=
  λ i, ∃ sa, symbols T !! a = Some sa ∧ i = rootAstSymbol sa.

(** ** The states of a run, and what holds in all of them *)

(** The states of a run: the empty table, and what the public methods make
    of a state of a run, however the call ends. *)
Inductive reachable (P : TsProgram) : AstSymbolTable → Prop :=
| reachable_new : reachable P new_AstSymbolTable
| reachable_fetchAstModuleBySourceFile fuel sf spec T :
    reachable P T → reachable P (fetchAstModuleBySourceFile P fuel sf spec T).1
| reachable_analyze fuel a T :
    reachable P T → reachable P (analyze P fuel a T).1
| reachable_tryGetAstSymbol fuel s T :
    reachable P T → reachable P (tryGetAstSymbol P fuel s T).1.

(** Every key of [_astSymbolsBySymbol] passes the two filters at the head
    of [_fetchAstSymbol]. *)
Definition keys_pass_filters (P : TsProgram) (T : AstSymbolTable) : Prop :=
  ∀ s r, _astSymbolsBySymbol T !! s = Some r →
    Z.land (sym_flags P s) filteredFlags = 0%Z ∧ isAmbient P s = false.

(** Every node stands for a symbol that passes the two filters, under the
    name of that symbol. *)
Definition nodes_faithful (P : TsProgram) (ss : list AstSymbol) : Prop :=
  ∀ r x, ss !! r = Some x →
    localName x = sym_name P (followedSymbol x) ∧
    Z.land (sym_flags P (followedSymbol x)) filteredFlags = 0%Z ∧
    isAmbient P (followedSymbol x) = false.

(** The cache of declarations and the tree of declarations agree: a cached
    node is the node of its key, a declaration is among the children of its
    parent, and a child has the declaration that lists it as its parent. *)
Definition declarations_consistent (T : AstSymbolTable) : Prop :=
  (∀ n d, _astDeclarationsByDeclaration T !! n = Some d →
     ∃ x, declarations T !! d = Some x ∧ declaration x = n) ∧
  (∀ d x p, declarations T !! d = Some x → parent x = Some p →
     ∃ px, declarations T !! p = Some px ∧ d ∈ children px) ∧
  (∀ p px d, declarations T !! p = Some px → d ∈ children px →
     ∃ x, declarations T !! d = Some x ∧ parent x = Some p).

(** The two caches of symbols and the heap of symbols agree: a node cached
    under a symbol follows that symbol or carries an import, a node cached
    under an import key carries that import, a node without a parent is its
    own root, and a node with a parent was allocated after it and shares
    its root. *)
Definition symbols_consistent (T : AstSymbolTable) : Prop :=
  (∀ s r, _astSymbolsBySymbol T !! s = Some r →
     ∃ x, symbols T !! r = Some x ∧
          (followedSymbol x = s ∨ is_Some (astImport x))) ∧
  (∀ k r, _astSymbolsByImportKey T !! k = Some r →
     ∃ x i, symbols T !! r = Some x ∧ astImport x = Some i ∧ key i = k) ∧
  (∀ r x, symbols T !! r = Some x →
     match parentAstSymbol x with
     | None => rootAstSymbol x = r
     | Some p => p < r ∧ ∃ px, symbols T !! p = Some px ∧
                               rootAstSymbol x = rootAstSymbol px
     end).

(** The module registered for a source file is the module of that file. *)
Definition modules_consistent (T : AstSymbolTable) : Prop :=
  ∀ sf m, _astModulesBySourceFile T !! sf = Some m →
    ∃ x, modules T !! m = Some x ∧ sourceFile x = sf.

(** Every node that carries an import is the node registered under the key
    of that import. *)
Definition imports_registered (T : AstSymbolTable) : Prop :=
  ∀ r x i, symbols T !! r = Some x → astImport x = Some i →
    _astSymbolsByImportKey T !! key i = Some r.

(** An invariant that only reads the heap of modules. *)
Definition on_modules (J : list AstModule → Prop) : AstSymbolTable → Prop :=
  λ T, J (modules T).

(** The entry [r] is that of the external package [spec]. *)
Definition external_entry (sf : TsNode) (spec : string) (r : ModRef)
    (ms : list AstModule) : Prop :=
  ∃ md, ms !! r = Some md ∧ sourceFile md = sf ∧ externalModulePath md = Some spec.

(** [ancestor P k node]: the node [k] steps up the [parent] chain. *)
Fixpoint ancestor (P : TsProgram) (k : nat) (node : TsNode) : option TsNode :=
  match k with
  | 0 => Some node
  | S k' => node_parent P node ≫= ancestor P k'
  end.

(** ** The lookup of an export *)

(** [starReachable T m m']: [m'] is [m] or is reached from it through
    [starExportedModules]. *)
Inductive starReachable (T : AstSymbolTable) : ModRef → ModRef → Prop :=
| starReachable_here m : starReachable T m m
| starReachable_step m md m' m'' :
    modules T !! m = Some md → m' ∈ starExportedModules md →
    starReachable T m' m'' → starReachable T m m''.

(** What a probe that started with the visited set [v] has established
    when it comes back with the set [v']: every module it added exports no
    [exportName] of its own and has all its wildcard targets in [v']. *)
Definition probed (T : AstSymbolTable) (exportName : string)
    (v v' : gset ModRef) : Prop :=
  v ⊆ v' ∧
  ∀ x, x ∈ v' → x ∉ v →
    ∃ md, modules T !! x = Some md ∧ exportedSymbols md !! exportName = None ∧
          ∀ y, y ∈ starExportedModules md → y ∈ v'.

(** What [_tryGetExportOfAstModule] at the module [m] with the visited set
    [v] returns: the table is untouched; a symbol found is exported under
    [exportName] by a module reachable from [m]; without one, [m] is
    visited and the probe is complete; the lookup throws nothing. *)
Definition lookup_spec (T : AstSymbolTable) (exportName : string)
    (m : ModRef) (v : gset ModRef)
    (res : AstSymbolTable * Outcome (option SymRef * gset ModRef)) : Prop :=
  res.1 = T ∧
  match res.2 with
  | Ok (Some a, _) =>
      ∃ m' md', starReachable T m m' ∧ modules T !! m' = Some md' ∧
                exportedSymbols md' !! exportName = Some a
  | Ok (None, v') => m ∈ v' ∧ probed T exportName v v'
  | Throw _ => False
  | OutOfFuel | Dangling => True
  end.

(** ** What module resolution leaves behind *)

(** The keys of the cache of declarations are kept: every declaration that
    has a declaration node in [T] has one in [T'].  The node itself may be
    another one, since [_astDeclarationsByDeclaration.set] overwrites. *)
Definition declaration_keys_kept (T T' : AstSymbolTable) : Prop :=
  dom (_astDeclarationsByDeclaration T) ⊆ dom (_astDeclarationsByDeclaration T').

(** The references to modules are allocated: no module wildcard-exports a
    module that was never allocated, and the registry holds allocated
    modules only. *)
Definition modules_wf (T : AstSymbolTable) : Prop :=
  modules_closed T ∧
  ∀ sf m, _astModulesBySourceFile T !! sf = Some m → m < length (modules T).

(** The exported symbol [e] of the module [sf] is a direct export: an
    entry of [moduleSymbol.exports] other than the [export *] entry. *)
Definition directExport (P : TsProgram) (sf e : nat) : Prop :=
  ∃ moduleSymbol exps,
    getSymbolForDeclaration P sf = Some moduleSymbol ∧
    sym_exports P moduleSymbol = Some exps ∧
    e ∈ exps ∧
    sym_escapedName P e ≠ ExportStar.

(** The entries of [moduleSymbol.exports] of the module [sf] have pairwise
    distinct names, as the entries of a map keyed by name have. *)
Definition distinctExportNames (P : TsProgram) (sf : nat) : Prop :=
  ∀ moduleSymbol exps,
    getSymbolForDeclaration P sf = Some moduleSymbol →
    sym_exports P moduleSymbol = Some exps →
    NoDup (sym_name P <$> exps).

(** The module [i] is [md]. *)
Definition module_is (i : nat) (md : AstModule) : AstSymbolTable → Prop :=
  on_modules (λ ms, ms !! i = Some md).

(** The module [r] binds the name [n] to [v], or not at all. *)
Definition export_is (r : nat) (n : string) (v : option nat) : AstSymbolTable → Prop :=
  on_modules (λ ms, ∃ md, ms !! r = Some md ∧ exportedSymbols md !! n = v).

(** * Example programs

    Small programs, given as oracles, and tables reached by running the
    methods on them.  The theorems are instantiated at these. *)

Definition ClassDeclaration := OtherKind 1.
Definition InterfaceDeclaration := OtherKind 2.
Definition FunctionDeclaration := OtherKind 3.
Definition PropertySignature := OtherKind 4.
Definition ModuleDeclaration := OtherKind 5.

Definition isAstDeclarationKind (k : SyntaxKind) : bool :=
  match k with OtherKind _ => true | _ => false end.

(** this.ts:  export { X as Y } from './m';  export * from './m';  export { G };
    m.ts:     export class X {}
    G is a global (ambient) declaration. *)
Definition reexportProgram : TsProgram := {|
  sym_flags := λ s, match s with 101 | 104 => SymbolFlags.Alias | _ => 32%Z end;
  sym_name := λ s, match s with
                   | 101 => "Y" | 102 => "__export" | 104 | 105 => "G"
                   | 201 => "X" | _ => "" end;
  sym_escapedName := λ s, match s with
                   | 101 => "Y" | 102 => "__export" | 104 | 105 => "G"
                   | 201 => "X" | _ => "" end;
  sym_declarations := λ s, match s with
                   | 100 => Some [1] | 200 => Some [2]
                   | 101 => Some [11] | 102 => Some [12] | 104 => Some [14]
                   | 105 => Some [90] | 201 => Some [20] | _ => None end;
  sym_exports := λ s, match s with
                   | 100 => Some [101; 102; 104] | 200 => Some [201] | _ => None end;
  node_kind := λ n, match n with
                   | 1 | 2 => SourceFile | 10 | 12 | 13 => ExportDeclaration
                   | 11 | 14 => ExportSpecifier | 20 => ClassDeclaration
                   | _ => Identifier end;
  node_parent := λ n, match n with
                   | 10 | 12 | 13 => Some 1 | 11 => Some 10 | 14 => Some 13
                   | 20 => Some 2 | _ => None end;
  node_getChildren := λ _, [];
  node_getSourceFile := λ n, match n with 2 | 20 => 2 | _ => 1 end;
  node_getText := λ _, "";
  sourceFile_fileName := λ n, match n with 2 => "/src/m.ts" | _ => "/src/this.ts" end;
  exportSpecifier_propertyName := λ n, match n with 11 => Some "X" | _ => None end;
  exportSpecifier_name := λ n, match n with 11 => "Y" | _ => "G" end;
  getExportsOfModule := λ _, [];
  getSymbolAtLocation := λ _, None;
  program_getSourceFile := λ f, if bool_decide (f = "/src/m.ts") then Some 2 else None;
  isExternalModuleNameRelative := λ _, true;
  getSymbolForDeclaration := λ n, match n with
                   | 1 => Some 100 | 2 => Some 200 | 20 => Some 201 | _ => None end;
  followAliases := λ s, s;
  getImmediateAliasedSymbol := λ s, match s with
                   | 101 => Some 201 | 104 => Some 105 | _ => None end;
  findFirstParent := λ n k, match n, k with
                   | 11, ExportDeclaration => Some 10
                   | 14, ExportDeclaration => Some 13
                   | _, _ => None end;
  findFirstChildNode := λ _ _, None;
  getModuleSpecifier := λ n, match n with 10 | 12 => Some "./m" | _ => None end;
  getResolvedModule := λ _ spec,
                   if bool_decide (spec = "./m") then Some "/src/m.ts" else None;
  isAstDeclaration := isAstDeclarationKind;
  isAmbient := λ s, bool_decide (s = 105);
  isAedocSupportedFor := λ _, true
|}.

(** lib.ts:   export function f(a: Ext): L      (nodes 30..34)
              interface L { x: N }              (nodes 40..43)
              interface N {}                    (node 50)
    pkg:      export class Ext { h: Hidden }    (nodes 60..62)
              interface Hidden {}               (node 70)
    pkg2:     export namespace R { class C { c: H } }   (nodes 80..83)
              interface H {}                    (node 84) *)
Definition analysisProgram : TsProgram := {|
  sym_flags := λ _, 32%Z;
  sym_name := λ s, match s with
                   | 300 => "f" | 400 => "L" | 401 => "x" | 500 => "N"
                   | 601 => "Ext" | 700 => "Hidden"
                   | 801 => "R" | 802 => "C" | 803 => "H" | _ => "" end;
  sym_escapedName := λ s, match s with
                   | 300 => "f" | 400 => "L" | 401 => "x" | 500 => "N"
                   | 601 => "Ext" | 700 => "Hidden"
                   | 801 => "R" | 802 => "C" | 803 => "H" | _ => "" end;
  sym_declarations := λ s, match s with
                   | 300 => Some [30] | 400 => Some [40] | 401 => Some [41]
                   | 500 => Some [50] | 601 => Some [60] | 700 => Some [70]
                   | 801 => Some [80] | 802 => Some [81] | 803 => Some [84]
                   | _ => None end;
  sym_exports := λ _, None;
  node_kind := λ n, match n with
                   | 1 | 3 | 4 => SourceFile
                   | 30 => FunctionDeclaration
                   | 31 | 33 | 42 | 61 | 82 => TypeReference
                   | 40 | 50 | 70 | 84 => InterfaceDeclaration
                   | 41 => PropertySignature
                   | 60 | 81 => ClassDeclaration
                   | 80 => ModuleDeclaration
                   | _ => Identifier end;
  node_parent := λ n, match n with
                   | 30 | 40 | 50 => Some 1 | 31 | 33 => Some 30 | 32 => Some 31
                   | 34 => Some 33 | 41 => Some 40 | 42 => Some 41 | 43 => Some 42
                   | 60 | 70 => Some 3 | 61 => Some 60 | 62 => Some 61
                   | 80 | 84 => Some 4 | 81 => Some 80 | 82 => Some 81
                   | 83 => Some 82 | _ => None end;
  node_getChildren := λ n, match n with
                   | 30 => [33; 31] | 31 => [32] | 33 => [34]
                   | 40 => [41] | 41 => [42] | 42 => [43]
                   | 60 => [61] | 61 => [62]
                   | 80 => [81] | 81 => [82] | 82 => [83] | _ => [] end;
  node_getSourceFile := λ n, match n with
                   | 3 | 60 | 61 | 62 | 70 => 3
                   | 4 | 80 | 81 | 82 | 83 | 84 => 4 | _ => 1 end;
  node_getText := λ _, "";
  sourceFile_fileName := λ n, match n with
                   | 3 => "/node_modules/pkg/index.d.ts"
                   | 4 => "/node_modules/pkg2/index.d.ts"
                   | _ => "/src/lib.ts" end;
  exportSpecifier_propertyName := λ _, None;
  exportSpecifier_name := λ _, "";
  getExportsOfModule := λ s, match s with 600 => [601] | 800 => [801] | _ => [] end;
  getSymbolAtLocation := λ n, match n with
                   | 32 => Some 400 | 34 => Some 601 | 43 => Some 500
                   | 62 => Some 700 | 83 => Some 803 | _ => None end;
  program_getSourceFile := λ _, None;
  isExternalModuleNameRelative := λ _, false;
  getSymbolForDeclaration := λ n, match n with
                   | 3 => Some 600 | 4 => Some 800
                   | 30 => Some 300 | 40 => Some 400 | 41 => Some 401
                   | 50 => Some 500 | 60 => Some 601 | 70 => Some 700
                   | 80 => Some 801 | 81 => Some 802 | 84 => Some 803
                   | _ => None end;
  followAliases := λ s, s;
  getImmediateAliasedSymbol := λ _, None;
  findFirstParent := λ _ _, None;
  findFirstChildNode := λ n k, match n, k with
                   | 31, Identifier => Some 32 | 33, Identifier => Some 34
                   | 42, Identifier => Some 43 | 61, Identifier => Some 62
                   | 82, Identifier => Some 83 | _, _ => None end;
  getModuleSpecifier := λ _, None;
  getResolvedModule := λ _ _, None;
  isAstDeclaration := isAstDeclarationKind;
  isAmbient := λ _, false;
  isAedocSupportedFor := λ _, true
|}.

(** A program made of top-level classes only: the symbol [s] is a class
    called Widget whose single declaration is the node [s + 100]. *)
Definition flatProgram : TsProgram := {|
  sym_flags := λ _, 32%Z;
  sym_name := λ _, "Widget";
  sym_escapedName := λ _, "Widget";
  sym_declarations := λ s, Some [s + 100];
  sym_exports := λ _, None;
  node_kind := λ _, ClassDeclaration;
  node_parent := λ _, None;
  node_getChildren := λ _, [];
  node_getSourceFile := λ _, 1;
  node_getText := λ _, "";
  sourceFile_fileName := λ _, "/node_modules/widgets/index.d.ts";
  exportSpecifier_propertyName := λ _, None;
  exportSpecifier_name := λ _, "";
  getExportsOfModule := λ _, [];
  getSymbolAtLocation := λ _, None;
  program_getSourceFile := λ _, None;
  isExternalModuleNameRelative := λ _, true;
  getSymbolForDeclaration := λ n, Some (n - 100);
  followAliases := λ s, s;
  getImmediateAliasedSymbol := λ _, None;
  findFirstParent := λ _ _, None;
  findFirstChildNode := λ _ _, None;
  getModuleSpecifier := λ _, None;
  getResolvedModule := λ _ _, None;
  isAstDeclaration := isAstDeclarationKind;
  isAmbient := λ _, false;
  isAedocSupportedFor := λ _, true
|}.

(** The table after the class 10 of [flatProgram] was looked up. *)
Definition widgetTable : AstSymbolTable :=
  (tryGetAstSymbol flatProgram 2 10 new_AstSymbolTable).1.



(** Two modules that wildcard-export each other; the first exports [a]. *)
Definition cycleTable : AstSymbolTable :=
  with_modules (λ _,
    [ {| sourceFile := 1; externalModulePath := None;
         exportedSymbols := {[ "a" := 0 ]}; starExportedModules := [1] |};
      {| sourceFile := 2; externalModulePath := None;
         exportedSymbols := ∅; starExportedModules := [0] |} ])
    new_AstSymbolTable.

(** The table of [reexportProgram] when [this.ts] has just been entered in
    the registry and its exports are about to be collected. *)
Definition enteredTable : AstSymbolTable :=
  (bind (new_AstModule 1) (λ m, modify (with_bySourceFile (<[1 := m]>)))
     new_AstSymbolTable).1.

(** A table with the entry point of an external package. *)
Definition externalTable : AstSymbolTable :=
  with_modules (λ _,
    [ {| sourceFile := 1; externalModulePath := Some "globals";
         exportedSymbols := ∅; starExportedModules := [] |} ])
    new_AstSymbolTable.

(** [analysisProgram]: the package pkg is resolved and [f] is fetched. *)
Definition fetchedTable : AstSymbolTable :=
  (bind (fetchAstModuleBySourceFile analysisProgram 9 3 (Some "pkg")) (λ _,
     _fetchAstSymbol analysisProgram 9 300 true None) new_AstSymbolTable).1.

(** [analysisProgram]: the package pkg2 is resolved and its export, the
    namespace [R], is analyzed. *)
Definition namespaceTable : AstSymbolTable :=
  (bind (fetchAstModuleBySourceFile analysisProgram 9 4 (Some "pkg2")) (λ _,
     analyze analysisProgram 9 0) new_AstSymbolTable).1.

(** The node of [f] in [fetchedTable]. *)
Definition fNode : AstSymbol :=
  {| localName := "f"; followedSymbol := 300; astImport := None;
     parentAstSymbol := None; rootAstSymbol := 1; nominal := false;
     astDeclarations := [1]; _analyzed := false |}.

(** The node of the class [C] in [namespaceTable]. *)
Definition cNode : AstSymbol :=
  {| localName := "C"; followedSymbol := 802; astImport := None;
     parentAstSymbol := Some 0; rootAstSymbol := 0; nominal := false;
     astDeclarations := [1]; _analyzed := false |}.

(** [fetchedTable] after [analyze] on [f]. *)
Definition analyzedTable : AstSymbolTable :=
  (analyze analysisProgram 9 1 fetchedTable).1.

Definition NamespaceExport := OtherKind 6.

(** this.ts:  export * as ns from './m';
    The declaration of [ns] (node 11) is a namespace export, a child of the
    export declaration (node 10) that is no export specifier. *)
Definition namespaceExportProgram : TsProgram := {|
  sym_flags := λ s, match s with 101 => SymbolFlags.Alias | _ => 32%Z end;
  sym_name := λ s, match s with 101 => "ns" | _ => "" end;
  sym_escapedName := λ s, match s with 101 => "ns" | _ => "" end;
  sym_declarations := λ s, match s with
                   | 100 => Some [1] | 101 => Some [11] | _ => None end;
  sym_exports := λ s, match s with 100 => Some [101] | _ => None end;
  node_kind := λ n, match n with
                   | 1 => SourceFile | 10 => ExportDeclaration
                   | 11 => NamespaceExport | _ => Identifier end;
  node_parent := λ n, match n with 10 => Some 1 | 11 => Some 10 | _ => None end;
  node_getChildren := λ _, [];
  node_getSourceFile := λ _, 1;
  node_getText := λ n, match n with 11 => "* as ns" | _ => "" end;
  sourceFile_fileName := λ _, "/src/this.ts";
  exportSpecifier_propertyName := λ _, None;
  exportSpecifier_name := λ _, "";
  getExportsOfModule := λ _, [];
  getSymbolAtLocation := λ _, None;
  program_getSourceFile := λ _, None;
  isExternalModuleNameRelative := λ _, true;
  getSymbolForDeclaration := λ n, match n with 1 => Some 100 | _ => None end;
  followAliases := λ s, s;
  getImmediateAliasedSymbol := λ _, None;
  findFirstParent := λ n k, match n, k with
                   | 11, ExportDeclaration => Some 10 | _, _ => None end;
  findFirstChildNode := λ _ _, None;
  getModuleSpecifier := λ n, match n with 10 => Some "./m" | _ => None end;
  getResolvedModule := λ _ _, None;
  isAstDeclaration := isAstDeclarationKind;
  isAmbient := λ _, false;
  isAedocSupportedFor := λ _, true
|}.

(** [reexportProgram]: m.ts resolved after this.ts was entered. *)
Definition resolvedTable : AstSymbolTable :=
  (fetchAstModuleBySourceFile reexportProgram 4 2 (Some "./m") enteredTable).1.

(** [namespaceExportProgram]: the resolution of this.ts, which fails. *)
Definition failedTable : AstSymbolTable :=
  (fetchAstModuleBySourceFile namespaceExportProgram 5 1 None new_AstSymbolTable).1.

(** [analysisProgram]: the package pkg resolved from the empty table. *)
Definition packageTable : AstSymbolTable :=
  (fetchAstModuleBySourceFile analysisProgram 9 3 (Some "pkg") new_AstSymbolTable).1.

(** [analysisProgram]: the package pkg2 resolved from the empty table. *)
Definition package2Table : AstSymbolTable :=
  (fetchAstModuleBySourceFile analysisProgram 9 4 (Some "pkg2") new_AstSymbolTable).1.

(** [package2Table] after [analyze] on the namespace [R]. *)
Definition analyzedNamespaceTable : AstSymbolTable :=
  (analyze analysisProgram 9 0 package2Table).1.

(** [reexportProgram]: the module symbol of this.ts looked up from the empty
    table. *)
Definition moduleSymbolTable : AstSymbolTable :=
  (tryGetAstSymbol reexportProgram 2 100 new_AstSymbolTable).1.

(** The node of the module symbol in [moduleSymbolTable]. *)
Definition moduleNode : AstSymbol :=
  {| localName := ""; followedSymbol := 100; astImport := None;
     parentAstSymbol := None; rootAstSymbol := 0; nominal := true;
     astDeclarations := [0]; _analyzed := false |}.

(** The node of the class 10 in [widgetTable]. *)
Definition widgetNode : AstSymbol :=
  {| localName := "Widget"; followedSymbol := 10; astImport := None;
     parentAstSymbol := None; rootAstSymbol := 0; nominal := false;
     astDeclarations := [0]; _analyzed := false |}.

Definition nestedImport : IAstImportOptions :=
  {| exportName := "C"; modulePath := "pkg2" |}.

(** [analysisProgram]: the namespace [R] fetched from the empty table. *)
Definition parentTable : AstSymbolTable :=
  (_fetchAstSymbol analysisProgram 8 801 true None new_AstSymbolTable).1.

(** Two modules that wildcard-export each other and export nothing, and a
    third module, which neither of them reaches, that exports [b]. *)
Definition islandTable : AstSymbolTable :=
  with_modules (λ _,
    [ {| sourceFile := 1; externalModulePath := None;
         exportedSymbols := ∅; starExportedModules := [1] |};
      {| sourceFile := 2; externalModulePath := None;
         exportedSymbols := ∅; starExportedModules := [0] |};
      {| sourceFile := 3; externalModulePath := None;
         exportedSymbols := {[ "b" := 0 ]}; starExportedModules := [] |} ])
    new_AstSymbolTable.

(** Three packages, each with one source file that exports a class under
    the name Widget:
    widgets-core (file 5):  export class Widget {}       (symbol 10)
    widgets (file 6):       export { Widget } from 'widgets-core';
    widgets (file 7):       export class Widget {}       (symbol 11)
    Files 6 and 7 are two installed copies of the package widgets, which
    two importing files resolve the specifier to. *)
Definition widgetPackagesProgram : TsProgram := {|
  sym_flags := λ _, 32%Z;
  sym_name := λ s, match s with 10 | 11 | 510 | 610 | 710 => "Widget" | _ => "" end;
  sym_escapedName := λ s, match s with 10 | 11 | 510 | 610 | 710 => "Widget" | _ => "" end;
  sym_declarations := λ s, match s with
                   | 10 => Some [110] | 11 => Some [111]
                   | 500 => Some [5] | 600 => Some [6] | 700 => Some [7]
                   | _ => None end;
  sym_exports := λ _, None;
  node_kind := λ n, match n with
                   | 5 | 6 | 7 => SourceFile | 110 | 111 => ClassDeclaration
                   | _ => Identifier end;
  node_parent := λ n, match n with 110 => Some 5 | 111 => Some 7 | _ => None end;
  node_getChildren := λ _, [];
  node_getSourceFile := λ n, match n with 111 | 7 => 7 | 6 => 6 | _ => 5 end;
  node_getText := λ _, "";
  sourceFile_fileName := λ n, match n with
                   | 6 => "/a/node_modules/widgets/index.d.ts"
                   | 7 => "/b/node_modules/widgets/index.d.ts"
                   | _ => "/node_modules/widgets-core/index.d.ts" end;
  exportSpecifier_propertyName := λ _, None;
  exportSpecifier_name := λ _, "";
  getExportsOfModule := λ s, match s with
                   | 500 => [510] | 600 => [610] | 700 => [710] | _ => [] end;
  getSymbolAtLocation := λ _, None;
  program_getSourceFile := λ _, None;
  isExternalModuleNameRelative := λ _, false;
  getSymbolForDeclaration := λ n, match n with
                   | 5 => Some 500 | 6 => Some 600 | 7 => Some 700
                   | 110 => Some 10 | 111 => Some 11 | _ => None end;
  followAliases := λ s, match s with 510 | 610 => 10 | 710 => 11 | _ => s end;
  getImmediateAliasedSymbol := λ _, None;
  findFirstParent := λ _ _, None;
  findFirstChildNode := λ _ _, None;
  getModuleSpecifier := λ _, None;
  getResolvedModule := λ _ _, None;
  isAstDeclaration := isAstDeclarationKind;
  isAmbient := λ _, false;
  isAedocSupportedFor := λ _, true
|}.

(** [widgetPackagesProgram]: the package widgets-core is resolved from the
    empty table; the symbol 10 gets the node 0, under the import of Widget
    from widgets-core. *)
Definition coreTable : AstSymbolTable :=
  (fetchAstModuleBySourceFile widgetPackagesProgram 5 5 (Some "widgets-core")
     new_AstSymbolTable).1.

(** [coreTable] after the two copies of the package widgets were resolved
    too. *)
Definition widgetPackagesTable : AstSymbolTable :=
  (fetchAstModuleBySourceFile widgetPackagesProgram 5 7 (Some "widgets")
     (fetchAstModuleBySourceFile widgetPackagesProgram 5 6 (Some "widgets")
        coreTable).1).1.

(** this.ts:  export { G } from './m';
    m.ts:     export { G };
    globals:  the entry point (file 3) of a package that exports G.
    G is a global (ambient) declaration. *)
Definition reexportAmbientProgram : TsProgram := {|
  sym_flags := λ s, match s with 101 | 201 => SymbolFlags.Alias | _ => 32%Z end;
  sym_name := λ s, match s with 101 | 201 | 301 | 105 => "G" | _ => "" end;
  sym_escapedName := λ s, match s with 101 | 201 | 301 | 105 => "G" | _ => "" end;
  sym_declarations := λ s, match s with
                   | 100 => Some [1] | 200 => Some [2] | 300 => Some [3]
                   | 101 => Some [11] | 201 => Some [21] | 105 => Some [90]
                   | _ => None end;
  sym_exports := λ s, match s with
                   | 100 => Some [101] | 200 => Some [201] | _ => None end;
  node_kind := λ n, match n with
                   | 1 | 2 | 3 => SourceFile | 10 | 20 => ExportDeclaration
                   | 11 | 21 => ExportSpecifier | _ => Identifier end;
  node_parent := λ n, match n with
                   | 10 => Some 1 | 11 => Some 10 | 20 => Some 2 | 21 => Some 20
                   | _ => None end;
  node_getChildren := λ _, [];
  node_getSourceFile := λ n, match n with 2 | 20 | 21 => 2 | 3 => 3 | _ => 1 end;
  node_getText := λ _, "";
  sourceFile_fileName := λ n, match n with
                   | 2 => "/src/m.ts" | 3 => "/node_modules/globals/index.d.ts"
                   | _ => "/src/this.ts" end;
  exportSpecifier_propertyName := λ _, None;
  exportSpecifier_name := λ _, "G";
  getExportsOfModule := λ s, match s with 300 => [301] | _ => [] end;
  getSymbolAtLocation := λ _, None;
  program_getSourceFile := λ f, if bool_decide (f = "/src/m.ts") then Some 2 else None;
  isExternalModuleNameRelative := λ spec, bool_decide (spec = "./m");
  getSymbolForDeclaration := λ n, match n with
                   | 1 => Some 100 | 2 => Some 200 | 3 => Some 300 | _ => None end;
  followAliases := λ s, match s with 101 | 201 | 301 => 105 | _ => s end;
  getImmediateAliasedSymbol := λ s, match s with
                   | 101 => Some 201 | 201 => Some 105 | _ => None end;
  findFirstParent := λ n k, match n, k with
                   | 11, ExportDeclaration => Some 10
                   | 21, ExportDeclaration => Some 20
                   | _, _ => None end;
  findFirstChildNode := λ _ _, None;
  getModuleSpecifier := λ n, match n with 10 => Some "./m" | _ => None end;
  getResolvedModule := λ _ spec,
                   if bool_decide (spec = "./m") then Some "/src/m.ts" else None;
  isAstDeclaration := isAstDeclarationKind;
  isAmbient := λ s, bool_decide (s = 105);
  isAedocSupportedFor := λ _, true
|}.

(** A table of [reexportAmbientProgram] in which this.ts, m.ts and the
    entry point of the package globals have been entered, as the modules
    0, 1 and 2, and no export has been collected yet. *)
Definition ambientTable : AstSymbolTable :=
  with_bySourceFile (λ _, {[ 1 := 0; 2 := 1; 3 := 2 ]})
    (with_modules (λ _,
       [ {| sourceFile := 1; externalModulePath := None;
            exportedSymbols := ∅; starExportedModules := [] |};
         {| sourceFile := 2; externalModulePath := None;
            exportedSymbols := ∅; starExportedModules := [] |};
         {| sourceFile := 3; externalModulePath := Some "globals";
            exportedSymbols := ∅; starExportedModules := [] |} ])
       new_AstSymbolTable).

(** this.ts:  export class A {}
              export { X as Y } from './m';
              export * from './m';
              export { G };
    m.ts:     export class X {}
    G is a global (ambient) declaration. *)
Definition exportsProgram : TsProgram := {|
  sym_flags := λ s, match s with 101 | 104 => SymbolFlags.Alias | _ => 32%Z end;
  sym_name := λ s, match s with
                   | 101 => "Y" | 102 => "__export" | 103 => "A" | 104 | 105 => "G"
                   | 201 => "X" | _ => "" end;
  sym_escapedName := λ s, match s with
                   | 101 => "Y" | 102 => "__export" | 103 => "A" | 104 | 105 => "G"
                   | 201 => "X" | _ => "" end;
  sym_declarations := λ s, match s with
                   | 100 => Some [1] | 200 => Some [2]
                   | 101 => Some [11] | 102 => Some [12] | 103 => Some [30]
                   | 104 => Some [14] | 105 => Some [90] | 201 => Some [20]
                   | _ => None end;
  sym_exports := λ s, match s with
                   | 100 => Some [103; 101; 102; 104] | 200 => Some [201]
                   | _ => None end;
  node_kind := λ n, match n with
                   | 1 | 2 => SourceFile | 10 | 12 | 13 => ExportDeclaration
                   | 11 | 14 => ExportSpecifier | 20 | 30 => ClassDeclaration
                   | _ => Identifier end;
  node_parent := λ n, match n with
                   | 10 | 12 | 13 | 30 => Some 1 | 11 => Some 10 | 14 => Some 13
                   | 20 => Some 2 | _ => None end;
  node_getChildren := λ _, [];
  node_getSourceFile := λ n, match n with 2 | 20 => 2 | _ => 1 end;
  node_getText := λ _, "";
  sourceFile_fileName := λ n, match n with 2 => "/src/m.ts" | _ => "/src/this.ts" end;
  exportSpecifier_propertyName := λ n, match n with 11 => Some "X" | _ => None end;
  exportSpecifier_name := λ n, match n with 11 => "Y" | _ => "G" end;
  getExportsOfModule := λ _, [];
  getSymbolAtLocation := λ _, None;
  program_getSourceFile := λ f, if bool_decide (f = "/src/m.ts") then Some 2 else None;
  isExternalModuleNameRelative := λ _, true;
  getSymbolForDeclaration := λ n, match n with
                   | 1 => Some 100 | 2 => Some 200 | 20 => Some 201 | 30 => Some 103
                   | _ => None end;
  followAliases := λ s, s;
  getImmediateAliasedSymbol := λ s, match s with
                   | 101 => Some 201 | 104 => Some 105 | _ => None end;
  findFirstParent := λ n k, match n, k with
                   | 11, ExportDeclaration => Some 10
                   | 14, ExportDeclaration => Some 13
                   | _, _ => None end;
  findFirstChildNode := λ _ _, None;
  getModuleSpecifier := λ n, match n with 10 | 12 => Some "./m" | _ => None end;
  getResolvedModule := λ _ spec,
                   if bool_decide (spec = "./m") then Some "/src/m.ts" else None;
  isAstDeclaration := isAstDeclarationKind;
  isAmbient := λ s, bool_decide (s = 105);
  isAedocSupportedFor := λ _, true
|}.

(** [exportsProgram]: this.ts resolved from the empty table. *)
Definition exportsTable : AstSymbolTable :=
  (fetchAstModuleBySourceFile exportsProgram 5 1 None new_AstSymbolTable).1.

(** this.ts:  export * from './m';
    m.ts:     export class X {} *)
Definition starOnlyProgram : TsProgram := {|
  sym_flags := λ _, 32%Z;
  sym_name := λ s, match s with 102 => "__export" | 201 => "X" | _ => "" end;
  sym_escapedName := λ s, match s with 102 => "__export" | 201 => "X" | _ => "" end;
  sym_declarations := λ s, match s with
                   | 100 => Some [1] | 200 => Some [2]
                   | 102 => Some [12] | 201 => Some [20] | _ => None end;
  sym_exports := λ s, match s with
                   | 100 => Some [102] | 200 => Some [201] | _ => None end;
  node_kind := λ n, match n with
                   | 1 | 2 => SourceFile | 12 => ExportDeclaration
                   | 20 => ClassDeclaration | _ => Identifier end;
  node_parent := λ n, match n with 12 => Some 1 | 20 => Some 2 | _ => None end;
  node_getChildren := λ _, [];
  node_getSourceFile := λ n, match n with 2 | 20 => 2 | _ => 1 end;
  node_getText := λ _, "";
  sourceFile_fileName := λ n, match n with 2 => "/src/m.ts" | _ => "/src/this.ts" end;
  exportSpecifier_propertyName := λ _, None;
  exportSpecifier_name := λ _, "";
  getExportsOfModule := λ _, [];
  getSymbolAtLocation := λ _, None;
  program_getSourceFile := λ f, if bool_decide (f = "/src/m.ts") then Some 2 else None;
  isExternalModuleNameRelative := λ _, true;
  getSymbolForDeclaration := λ n, match n with
                   | 1 => Some 100 | 2 => Some 200 | 20 => Some 201 | _ => None end;
  followAliases := λ s, s;
  getImmediateAliasedSymbol := λ _, None;
  findFirstParent := λ _ _, None;
  findFirstChildNode := λ _ _, None;
  getModuleSpecifier := λ n, match n with 12 => Some "./m" | _ => None end;
  getResolvedModule := λ _ spec,
                   if bool_decide (spec = "./m") then Some "/src/m.ts" else None;
  isAstDeclaration := isAstDeclarationKind;
  isAmbient := λ _, false;
  isAedocSupportedFor := λ _, true
|}.

(** [analysisProgram]: the table left by the failed fetch of the nested
    class [C] as the export C of pkg2. *)
Definition failedImportTable : AstSymbolTable :=
  (_fetchAstSymbol analysisProgram 9 802 true (Some nestedImport) new_AstSymbolTable).1.

(** * Verification *)

(** ** How the table evolves

    Within one run nothing is ever removed from the table.  [extends T T']
    says that [T'] may come after [T]: the three caches keyed by compiler
    objects keep their bindings, every object keeps the fields that the
    source declares [readonly], and flags and collections only grow. *)

Global Instance symbol_extends_preorder : PreOrder symbol_extends.
Proof.
  split.
  - intros s. repeat split; auto.
  - intros a b c (?&?&?&?&?&?&?) (?&?&?&?&?&?&?).
    repeat split; try congruence. auto.
Qed.

Global Instance declaration_extends_preorder : PreOrder declaration_extends.
Proof.
  split.
  - intros d. repeat split; auto.
  - intros a b c (?&?&?&?&?) (?&?&?&?&?).
    repeat split; try congruence; etrans; eauto.
Qed.

Global Instance module_extends_preorder : PreOrder module_extends.
Proof.
  split.
  - intros m. repeat split; auto.
  - intros a b c (?&?&?) (?&?&?).
    repeat split; try congruence; etrans; eauto.
Qed.

Global Instance heap_extends_preorder {A} (R : A → A → Prop) `{!PreOrder R} :
  PreOrder (heap_extends R).
Proof.
  split.
  - intros h i x Hx. exists x. split; [done | reflexivity].
  - intros a b c Hab Hbc i x Hx.
    destruct (Hab i x Hx) as (y & Hy & Rxy).
    destruct (Hbc i y Hy) as (z & Hz & Ryz).
    exists z. split; [done | by etrans].
Qed.

Global Instance extends_preorder : PreOrder extends.
Proof.
  split.
  - intros T. split; reflexivity.
  - intros a b c [] []. split; etrans; eauto.
Qed.

Lemma heap_extends_app {A} (R : A → A → Prop) `{!PreOrder R} (h0 h : list A) x :
  heap_extends R h0 h → heap_extends R h0 (h ++ [x]).
Proof.
  intros H i y Hy. destruct (H i y Hy) as (y' & Hy' & Ryy').
  exists y'. split; [| done]. by apply lookup_app_l_Some.
Qed.

Lemma heap_extends_alter {A} (R : A → A → Prop) `{!PreOrder R}
    (f : A → A) (h0 h : list A) i :
  (∀ x, R x (f x)) → heap_extends R h0 h → heap_extends R h0 (alter f i h).
Proof.
  intros Hf H j y Hy. destruct (H j y Hy) as (y' & Hy' & Ryy').
  destruct (decide (i = j)) as [-> | Hne].
  - exists (f y'). split.
    + by rewrite list_lookup_alter_eq, Hy'.
    + etrans; [done | apply Hf].
  - exists y'. split; [| done]. by rewrite list_lookup_alter_ne.
Qed.

(** ** Invariants of computations

    [keeps I m]: whatever its outcome, [m] leaves a table that satisfies [I]
    when it started from one that does.  With [I := extends T0] this says
    that the table stays an extension of an earlier table [T0]. *)
Lemma monotone_keeps {A} (m : M A) T0 : monotone m → keeps (extends T0) m.
Proof. intros Hm T HT. etrans; [done | apply Hm]. Qed.

Lemma keeps_monotone {A} (m : M A) : (∀ T0, keeps (extends T0) m) → monotone m.
Proof. intros Hm T. by apply Hm. Qed.

Lemma monotone_run {A} (m : M A) T T' o : monotone m → m T = (T', o) → extends T T'.
Proof. intros Hm Hrun. specialize (Hm T). by rewrite Hrun in Hm. Qed.

Lemma keeps_run {A} I (m : M A) T T' o : keeps I m → I T → m T = (T', o) → I T'.
Proof. intros Hm HT Hrun. specialize (Hm T HT). by rewrite Hrun in Hm. Qed.

Section Keeps.
Context (I : AstSymbolTable → Prop).

Lemma keeps_ret {A} (a : A) : keeps I (ret a).
Proof. by intros T HT. Qed.

Lemma keeps_throw {A} e : keeps I (@throw A e).
Proof. by intros T HT. Qed.

Lemma keeps_outOfFuel {A} : keeps I (@outOfFuel A).
Proof. by intros T HT. Qed.

Lemma keeps_dangling {A} : keeps I (@dangling A).
Proof. by intros T HT. Qed.

Lemma keeps_gets {A} (f : AstSymbolTable → A) : keeps I (gets f).
Proof. by intros T HT. Qed.

Lemma keeps_modify (f : AstSymbolTable → AstSymbolTable) :
  (∀ T, I T → I (f T)) → keeps I (modify f).
Proof. intros Hf T HT. by apply Hf. Qed.

Lemma keeps_bind {A B} (m : M A) (k : A → M B) :
  keeps I m → (∀ a, keeps I (k a)) → keeps I (bind m k).
Proof.
  intros Hm Hk T HT. unfold bind. specialize (Hm T HT).
  destruct (m T) as [T1 [a | e | |]]; simpl in *; auto.
  by apply Hk.
Qed.

Lemma keeps_bind_gets {A B} (f : AstSymbolTable → A) (k : A → M B) :
  (∀ T, I T → keeps I (k (f T))) → keeps I (bind (gets f) k).
Proof. intros Hk T HT. unfold bind, gets. by apply Hk. Qed.

Lemma keeps_bind_ret {A B} (a : A) (k : A → M B) :
  keeps I (k a) → keeps I (bind (ret a) k).
Proof. intros Hk T HT. unfold bind, ret. by apply Hk. Qed.

Lemma keeps_forEach {A} (xs : list A) (body : A → M unit) :
  (∀ x, keeps I (body x)) → keeps I (forEach xs body).
Proof.
  intros Hb. induction xs as [| x xs IH]; simpl.
  - apply keeps_ret.
  - apply keeps_bind; auto.
Qed.

Lemma keeps_liftOption {A} (o : option A) : keeps I (liftOption o).
Proof. destruct o; [apply keeps_ret | apply keeps_dangling]. Qed.
End Keeps.

Lemma bind_assoc {A B C} (m : M A) (k1 : A → M B) (k2 : B → M C) T :
  bind (bind m k1) k2 T = bind m (λ x, bind (k1 x) k2) T.
Proof. unfold bind. by destruct (m T) as [T1 [a | e | |]]. Qed.

Lemma keeps_bind_assoc {A B C} I (m : M A) (k1 : A → M B) (k2 : B → M C) :
  keeps I (bind m (λ x, bind (k1 x) k2)) → keeps I (bind (bind m k1) k2).
Proof. intros H T HT. rewrite bind_assoc. by apply H. Qed.

Create HintDb keeps discriminated.
Global Hint Resolve keeps_ret keeps_throw keeps_outOfFuel keeps_dangling keeps_gets
  keeps_liftOption : keeps.

(** One step of a proof of [keeps]: the code is run symbolically, a case
    at a time, and calls that are not unfolded are left to the hints. *)
Ltac keeps_step :=
  match goal with
  | |- keeps _ (bind (ret _) _) => apply keeps_bind_ret
  | |- keeps _ (bind (gets _) _) => apply keeps_bind_gets; intros ? ?
  | |- keeps _ (bind (bind _ _) _) => apply keeps_bind_assoc
  | |- keeps _ (bind (match ?x with _ => _ end) _) => destruct x eqn:?
  | |- keeps _ (bind _ _) => apply keeps_bind; [| intros ?]
  | |- keeps _ (forEach _ _) => apply keeps_forEach; intros ?
  | |- keeps _ (match ?x with _ => _ end) => destruct x eqn:?
  | |- keeps _ _ => progress cbv zeta
  | |- keeps _ _ => solve [eauto with keeps]
  end.

(** *** The primitives extend the table *)

Ltac extends_fields :=
  match goal with
  | H : extends _ _ |- extends _ _ => destruct H; split; simpl; try done
  end.

Lemma extends_set_bySymbol T0 k v :
  _astSymbolsBySymbol T0 !! k = None →
  keeps (extends T0) (modify (with_bySymbol (<[k := v]>))).
Proof.
  intros Hk. apply keeps_modify. intros T HT. extends_fields.
  by apply insert_subseteq_r.
Qed.

Lemma extends_set_byImportKey T0 k v :
  _astSymbolsByImportKey T0 !! k = None →
  keeps (extends T0) (modify (with_byImportKey (<[k := v]>))).
Proof.
  intros Hk. apply keeps_modify. intros T HT. extends_fields.
  by apply insert_subseteq_r.
Qed.

Lemma extends_set_bySourceFile T0 k v :
  _astModulesBySourceFile T0 !! k = None →
  keeps (extends T0) (modify (with_bySourceFile (<[k := v]>))).
Proof.
  intros Hk. apply keeps_modify. intros T HT. extends_fields.
  by apply insert_subseteq_r.
Qed.

Lemma extends_with_byDeclaration T0 f :
  keeps (extends T0) (modify (with_byDeclaration f)).
Proof. apply keeps_modify. intros T HT. extends_fields. Qed.

Lemma extends_symbols_app T0 s :
  keeps (extends T0) (modify (with_symbols (λ ss, ss ++ [s]))).
Proof.
  apply keeps_modify. intros T HT. extends_fields.
  by apply heap_extends_app; [apply _ |].
Qed.

Lemma extends_symbols_alter T0 f i :
  (∀ s, symbol_extends s (f s)) →
  keeps (extends T0) (modify (with_symbols (alter f i))).
Proof.
  intros Hf. apply keeps_modify. intros T HT. extends_fields.
  by apply heap_extends_alter; [apply _ | |].
Qed.

Lemma extends_declarations_app T0 d :
  keeps (extends T0) (modify (with_declarations (λ ds, ds ++ [d]))).
Proof.
  apply keeps_modify. intros T HT. extends_fields.
  by apply heap_extends_app; [apply _ |].
Qed.

Lemma extends_declarations_alter T0 f i :
  (∀ d, declaration_extends d (f d)) →
  keeps (extends T0) (modify (with_declarations (alter f i))).
Proof.
  intros Hf. apply keeps_modify. intros T HT. extends_fields.
  by apply heap_extends_alter; [apply _ | |].
Qed.

Lemma extends_modules_app T0 m :
  keeps (extends T0) (modify (with_modules (λ ms, ms ++ [m]))).
Proof.
  apply keeps_modify. intros T HT. extends_fields.
  by apply heap_extends_app; [apply _ |].
Qed.

Lemma extends_modules_alter T0 f i :
  (∀ m, module_extends m (f m)) →
  keeps (extends T0) (modify (with_modules (alter f i))).
Proof.
  intros Hf. apply keeps_modify. intros T HT. extends_fields.
  by apply heap_extends_alter; [apply _ | |].
Qed.

Lemma set_add_subseteq x (xs : list nat) : xs ⊆ set_add x xs.
Proof.
  unfold set_add. case_bool_decide; [done |].
  intros y Hy. apply elem_of_app. by left.
Qed.

Lemma elem_of_set_add x (xs : list nat) : x ∈ set_add x xs.
Proof.
  unfold set_add. case_bool_decide; [done |].
  apply elem_of_app. right. by apply list_elem_of_singleton.
Qed.

Global Hint Resolve extends_with_byDeclaration extends_symbols_app
  extends_declarations_app extends_modules_app : keeps.

Lemma keeps_getSymbol I r : keeps I (getSymbol r).
Proof. unfold getSymbol. repeat keeps_step. Qed.

Lemma keeps_getDeclaration I r : keeps I (getDeclaration r).
Proof. unfold getDeclaration. repeat keeps_step. Qed.

Lemma keeps_getModule I r : keeps I (getModule r).
Proof. unfold getModule. repeat keeps_step. Qed.

Lemma keeps_imported I r : keeps I (imported r).
Proof. unfold imported. repeat keeps_step. Qed.

Lemma keeps_analyzed I r : keeps I (analyzed r).
Proof. unfold analyzed. repeat keeps_step. Qed.

Global Hint Resolve keeps_getSymbol keeps_getDeclaration keeps_getModule
  keeps_imported keeps_analyzed : keeps.

Lemma extends_notifyAnalyzed T0 r : keeps (extends T0) (_notifyAnalyzed r).
Proof.
  unfold _notifyAnalyzed. repeat keeps_step.
  apply extends_symbols_alter. intros s. repeat split; auto.
Qed.

Lemma extends_new_AstSymbol T0 n f i p r b :
  keeps (extends T0) (new_AstSymbol n f i p r b).
Proof. unfold new_AstSymbol. repeat keeps_step. Qed.

Lemma extends_new_AstDeclaration T0 d a p :
  keeps (extends T0) (new_AstDeclaration d a p).
Proof.
  unfold new_AstDeclaration. repeat keeps_step.
  - apply extends_symbols_alter. intros s. repeat split; auto.
  - apply extends_declarations_alter. intros x. repeat split; simpl; auto.
    intros y Hy. apply elem_of_app. by left.
Qed.

Lemma extends_notifyReferencedAstSymbol T0 d r :
  keeps (extends T0) (_notifyReferencedAstSymbol d r).
Proof.
  unfold _notifyReferencedAstSymbol. repeat keeps_step.
  apply extends_declarations_alter. intros x. repeat split; simpl; auto.
  apply set_add_subseteq.
Qed.

Lemma extends_new_AstModule T0 sf : keeps (extends T0) (new_AstModule sf).
Proof. unfold new_AstModule. repeat keeps_step. Qed.

Global Hint Resolve extends_notifyAnalyzed extends_new_AstSymbol
  extends_new_AstDeclaration extends_notifyReferencedAstSymbol
  extends_new_AstModule : keeps.

Section Monotone.
Context (P : TsProgram).

Lemma keeps_whileCurrentNode I fuel n : keeps I (whileCurrentNode P fuel n).
Proof.
  revert n. induction fuel as [| fuel IH]; intros n; simpl; repeat keeps_step.
Qed.

Lemma keeps_tryFindFirstAstDeclarationParent I fuel n :
  keeps I (_tryFindFirstAstDeclarationParent P fuel n).
Proof. apply keeps_whileCurrentNode. Qed.
Hint Resolve keeps_tryFindFirstAstDeclarationParent : keeps.

Lemma extends_createDeclarations T0 fuel decls a p :
  keeps (extends T0) (createDeclarations P fuel decls a p).
Proof. unfold createDeclarations, createDeclaration. repeat keeps_step. Qed.
Hint Resolve extends_createDeclarations : keeps.

Lemma keeps_requireAstDeclarations I s decls :
  keeps I (requireAstDeclarations P s decls).
Proof. unfold requireAstDeclarations. repeat keeps_step. Qed.
Hint Resolve keeps_requireAstDeclarations : keeps.

(** [_fetchAstSymbol] only ever adds to the table. *)
Lemma monotone_fetchAstSymbol fuel s a o :
  monotone (_fetchAstSymbol P fuel s a o).
Proof.
  revert s a o. induction fuel as [| fuel IH]; intros s a o;
    apply keeps_monotone; intros T0; simpl.
  { apply keeps_outOfFuel. }
  destruct o as [opts |]; simpl.
  all: repeat keeps_step;
    try (apply monotone_keeps, IH);
    try (apply extends_set_bySymbol; eapply lookup_weaken_None;
         [eassumption | by apply ext_bySymbol]);
    try (apply extends_set_byImportKey; eapply lookup_weaken_None;
         [eassumption | by apply ext_byImportKey]).
Qed.
End Monotone.

(** ** Running a computation step by step

    [run H] executes the computation in [H : m T = (T', o)] symbolically:
    binds are split, reads and writes are performed, and every branch of
    the code becomes a case. *)
Lemma bind_run {A B} (m : M A) (k : A → M B) T T1 o :
  m T = (T1, o) →
  bind m k T = match o with
               | Ok a => k a T1
               | Throw e => (T1, Throw e)
               | OutOfFuel => (T1, OutOfFuel)
               | Dangling => (T1, Dangling)
               end.
Proof. intros H. unfold bind. rewrite H. by destruct o. Qed.

Lemma bind_throw {A B} e (k : A → M B) T : bind (throw e) k T = (T, Throw e).
Proof. done. Qed.
Lemma bind_outOfFuel {A B} (k : A → M B) T : bind outOfFuel k T = (T, OutOfFuel).
Proof. done. Qed.
Lemma bind_dangling {A B} (k : A → M B) T : bind dangling k T = (T, Dangling).
Proof. done. Qed.

Ltac run_step H :=
  match type of H with
  | context [match ?x with _ => _ end] =>
      match goal with
      | Hx : x = _ |- _ => rewrite Hx in H; cbv beta iota in H
      end
  | context [liftOption _] => unfold liftOption in H
  | context [getSymbol _] => unfold getSymbol in H
  | context [getDeclaration _] => unfold getDeclaration in H
  | context [getModule _] => unfold getModule in H
  | context [imported _] => unfold imported in H
  | context [analyzed _] => unfold analyzed in H
  | context [new_AstSymbol] => unfold new_AstSymbol in H
  | context [new_AstModule] => unfold new_AstModule in H
  | context [bind (bind ?m ?k1) ?k2 ?T] => rewrite (bind_assoc m k1 k2 T) in H
  | context [bind (ret ?a) ?k ?T] => change (bind (ret a) k T) with (k a T) in H; cbv beta iota in H
  | context [bind (gets ?f) ?k ?T] =>
      change (bind (gets f) k T) with (k (f T) T) in H; cbv beta iota in H
  | context [bind (modify ?f) ?k ?T] =>
      change (bind (modify f) k T) with (k tt (f T)) in H; cbv beta iota in H
  | context [bind (throw ?e) ?k ?T] => rewrite (bind_throw e k T) in H
  | context [bind outOfFuel ?k ?T] => rewrite (bind_outOfFuel k T) in H
  | context [bind dangling ?k ?T] => rewrite (bind_dangling k T) in H
  | context [bind (match ?x with _ => _ end) _ _] =>
      destruct x eqn:?; cbv beta iota in H
  | context [bind ?m ?k ?T] =>
      match goal with
      | Hm : m T = (?T1, ?o) |- _ =>
          rewrite (bind_run m k T T1 o Hm) in H; cbv beta iota in H
      end
  | context [bind ?m ?k ?T] =>
      let T1 := fresh "T" in
      let o := fresh "o" in
      let E := fresh "Hrun" in
      destruct (m T) as [T1 o] eqn:E;
      rewrite (bind_run m k T T1 o E) in H;
      destruct o; cbv beta iota in H
  | (match ?x with _ => _ end) _ = _ => destruct x eqn:?; cbv beta iota in H
  | ret _ _ = _ => unfold ret in H
  | throw _ _ = _ => unfold throw in H
  | gets _ _ = _ => unfold gets in H
  | modify _ _ = _ => unfold modify in H
  | outOfFuel _ = _ => unfold outOfFuel in H
  | dangling _ = _ => unfold dangling in H
  | (_, _) = (_, _) =>
      first [discriminate H | injection H as ? ?; subst | injection H as ?; subst]
  | _ => progress cbv beta iota zeta in H
  end.

Ltac run H := repeat run_step H.

Section CreateDeclarations.
Context (P : TsProgram).

Lemma createDeclarations_caches T0 fuel decls a p :
  keeps (same_symbol_caches T0) (createDeclarations P fuel decls a p).
Proof.
  unfold createDeclarations, createDeclaration, new_AstDeclaration.
  repeat keeps_step.
  all: try (apply keeps_modify; intros ? [? ?]; by split).
  all: try apply keeps_tryFindFirstAstDeclarationParent.
Qed.

Lemma imported_run r T T' o : imported r T = (T', o) → T' = T.
Proof.
  unfold imported. intros H. by run H.
Qed.

Lemma createDeclarations_caches_run T fuel decls a p T' o :
  createDeclarations P fuel decls a p T = (T', o) →
  _astSymbolsBySymbol T' = _astSymbolsBySymbol T ∧
  _astSymbolsByImportKey T' = _astSymbolsByImportKey T.
Proof.
  intros H. by apply (keeps_run _ _ _ _ _ (createDeclarations_caches T fuel decls a p)) in H.
Qed.

End CreateDeclarations.

Ltac caches :=
  repeat match goal with
  | H : createDeclarations _ _ _ _ _ _ = _ |- _ =>
      apply createDeclarations_caches_run in H; simpl in H; destruct H as [? ?]
  end.

Lemma extends_symbol_imported T T' r b :
  extends T T' →
  symbol_imported (symbols T) r = Some b → symbol_imported (symbols T') r = Some b.
Proof.
  intros Hext. unfold symbol_imported.
  destruct (symbols T !! r) as [s |] eqn:Hs; [| done].
  destruct (symbols T !! rootAstSymbol s) as [root |] eqn:Hroot; [| done].
  destruct (ext_symbols _ _ Hext _ _ Hs) as (s' & -> & Es).
  destruct (ext_symbols _ _ Hext _ _ Hroot) as (root' & Hroot' & Eroot).
  destruct Es as (_ & _ & _ & _ & -> & _). rewrite Hroot'.
  destruct Eroot as (_ & _ & -> & _). done.
Qed.

Section FetchAstSymbol.
Context (P : TsProgram).

Lemma fetchAstSymbol_cached fuel s a o T T' r :
  _fetchAstSymbol P fuel s a o T = (T', Ok (Some r)) →
  _astSymbolsBySymbol T' !! s = Some r.
Proof.
  destruct fuel as [| fuel]; simpl; [done |]. intros H.
  run H; caches; simplify_eq/=; try done;
    try (by apply lookup_insert_eq);
    try (by match goal with H : _astSymbolsBySymbol _ = _ |- _ =>
              rewrite H; apply lookup_insert_eq end).
Qed.

(** On a cache hit the table is left as it is and only the cached node
    can come back. *)
Lemma fetchAstSymbol_hit fuel s a o T T' out r :
  _astSymbolsBySymbol T !! s = Some r →
  _fetchAstSymbol P fuel s a o T = (T', out) →
  T' = T ∧ ∀ r', out = Ok (Some r') → r' = r.
Proof.
  destruct fuel as [| fuel]; simpl; intros Hhit H.
  { run H. by split. }
  run H; split; try done; try congruence.
Qed.

(** C1 (identity uniqueness).  Two calls of [_fetchAstSymbol] on the same
    followed symbol [s] within one run return the same node, whatever
    their [addIfMissing] flags and import options and whatever was added to
    the table in between: after the first call the cache
    [_astSymbolsBySymbol] maps [s] to the node [r1] that it returned, and
    the second call returns [r1] from the cache and leaves the table as it
    found it, so that no second node is built. *)
Theorem fetchAstSymbol_identity_unique fuel1 fuel2 s a1 a2 o1 o2 T T1 T1' T2 r1 r2 :
  _fetchAstSymbol P fuel1 s a1 o1 T = (T1, Ok (Some r1)) →
  extends T1 T1' →
  _fetchAstSymbol P fuel2 s a2 o2 T1' = (T2, Ok (Some r2)) →
  _astSymbolsBySymbol T1 !! s = Some r1 ∧ r2 = r1 ∧ T2 = T1'.
Proof.
  intros H1 Hext H2.
  pose proof (fetchAstSymbol_cached _ _ _ _ _ _ _ H1) as Hc.
  split; [done |].
  assert (_astSymbolsBySymbol T1' !! s = Some r1) as Hc'.
  { eapply lookup_weaken; [done | apply Hext]. }
  destruct (fetchAstSymbol_hit _ _ _ _ _ _ _ _ Hc' H2) as [-> Hr].
  split; [by apply Hr | done].
Qed.
Lemma fetchAstSymbol_import_result fuel s a opts T T' r :
  _fetchAstSymbol P fuel s a (Some opts) T = (T', Ok (Some r)) →
  symbol_imported (symbols T') r = Some true.
Proof.
  destruct fuel as [| fuel]; simpl; [done |]. intros H.
  run H; simplify_eq/=;
    match goal with
    | Hb : negb ?b = false, Hi : symbol_imported _ ?r = Some ?b |- _ =>
        rewrite Hi; by destruct b
    end.
Qed.

Lemma fetchAstSymbol_hit_not_imported fuel s a opts T r :
  Z.land (sym_flags P s) filteredFlags = 0%Z →
  isAmbient P s = false →
  _astSymbolsBySymbol T !! s = Some r →
  symbol_imported (symbols T) r = Some false →
  ∃ node, symbols T !! r = Some node ∧
    _fetchAstSymbol P (S fuel) s a (Some opts) T
    = (T, Throw (InternalError_ImportedAfterNonImported (localName node))).
Proof.
  intros Hflags Hamb Hhit Himp.
  assert (∃ node, symbols T !! r = Some node) as [node Hnode].
  { unfold symbol_imported in Himp. destruct (symbols T !! r); [eauto | done]. }
  exists node. split; [done |].
  destruct (_fetchAstSymbol P (S fuel) s a (Some opts) T) as [T' out] eqn:H.
  simpl in H. rewrite Hflags, Hamb in H. simpl in H.
  by run H.
Qed.

Lemma fetchAstSymbol_miss_registers fuel s a opts T T' r :
  _astSymbolsBySymbol T !! s = None →
  _fetchAstSymbol P fuel s a (Some opts) T = (T', Ok (Some r)) →
  _astSymbolsByImportKey T' !! key (new_AstImport opts) = Some r.
Proof.
  destruct fuel as [| fuel]; simpl; [done |]. intros Hmiss H.
  run H; caches; simplify_eq/=; try done;
    try (by match goal with H : _astSymbolsByImportKey _ = _ |- _ =>
              rewrite H; apply lookup_insert_eq end).
Qed.

End FetchAstSymbol.

(** ** The [addIfMissing] flag and the construction of nodes *)

Lemma meq_refl {A} (m : M A) : meq m m.
Proof. by intros T. Qed.

Lemma meq_bind {A B} (m m' : M A) (k k' : A → M B) :
  meq m m' → (∀ a, meq (k a) (k' a)) → meq (bind m k) (bind m' k').
Proof.
  intros Hm Hk T. unfold bind. rewrite Hm.
  destruct (m' T) as [T1 [a | e | |]]; auto. apply Hk.
Qed.

Ltac meq_step :=
  match goal with
  | |- meq ?m ?m => apply meq_refl
  | |- meq (bind _ _) (bind _ _) => apply meq_bind; [| intros ?]
  | |- meq (match ?x with _ => _ end) (match ?x with _ => _ end) => destruct x
  | |- meq _ _ => progress cbv zeta
  end.

Lemma heap_extends_length {A} (R : A → A → Prop) (h h' : list A) :
  heap_extends R h h' → length h ≤ length h'.
Proof.
  intros H. destruct h as [| x h0] eqn:E using rev_ind; [simpl; lia |].
  clear IHh0.
  destruct (H (length h0) x) as (x' & Hx' & _).
  { by rewrite lookup_app_r, Nat.sub_diag by lia. }
  apply lookup_lt_Some in Hx'. rewrite length_app. simpl. lia.
Qed.

Lemma list_lookup_alter_Some {A} (f : A → A) (l : list A) i j x :
  l !! i = Some x → ∃ x', alter f j l !! i = Some x' ∧ (x' = x ∨ x' = f x).
Proof.
  intros Hx. destruct (decide (j = i)) as [-> | Hne].
  - exists (f x). rewrite list_lookup_alter_eq, Hx. auto.
  - exists x. rewrite list_lookup_alter_ne by done. auto.
Qed.

Section TryGetAstSymbol.
Context (P : TsProgram).

Lemma fetchAstSymbol_addIfMissing fuel s b o :
  meq (_fetchAstSymbol P fuel s b o) (_fetchAstSymbol P fuel s true o).
Proof.
  revert s o. induction fuel as [| fuel IH]; intros s o; simpl;
    repeat meq_step; apply IH.
Qed.

Lemma createDeclaration_run fuel r p y T T' u :
  createDeclaration P fuel r p y T = (T', Ok u) →
  ∃ pad,
    T' = with_byDeclaration (<[y := length (declarations T)]>)
           (match pad with
            | Some q => with_declarations
                          (alter (λ d, set_children (children d ++ [length (declarations T)]) d) q)
            | None => id
            end
              (with_symbols
                 (alter (λ s, set_astDeclarations
                                (astDeclarations s ++ [length (declarations T)]) s) r)
                 (with_declarations
                    (λ ds, ds ++ [ {| declaration := y; astSymbol := r; parent := pad;
                                      children := []; referencedAstSymbols := [] |} ])
                    T))).
Proof.
  unfold createDeclaration, new_AstDeclaration. intros H.
  destruct p as [q |].
  - run H.
    all: match goal with
         | Hw : _tryFindFirstAstDeclarationParent _ _ _ _ = _ |- _ =>
             pose proof (keeps_run (eq T) _ _ _ _
               (keeps_tryFindFirstAstDeclarationParent P _ _ _) eq_refl Hw) as ->
         end.
    all: simplify_eq/=. by eexists (Some _).
  - run H. by exists None.
Qed.

Lemma createDeclaration_effect fuel r p y T T' u :
  createDeclaration P fuel r p y T = (T', Ok u) →
  _astDeclarationsByDeclaration T'
    = <[y := length (declarations T)]> (_astDeclarationsByDeclaration T) ∧
  ∀ i dn, (declarations T ++
            [ {| declaration := y; astSymbol := r; parent := None;
                 children := []; referencedAstSymbols := [] |} ]) !! i = Some dn →
    ∃ dn', declarations T' !! i = Some dn' ∧
      declaration dn' = declaration dn ∧ astSymbol dn' = astSymbol dn.
Proof.
  intros H. destruct (createDeclaration_run _ _ _ _ _ _ _ H) as [pad ->].
  split; [by destruct pad |].
  intros i dn Hi.
  set (new := {| declaration := y; astSymbol := r; parent := pad;
                 children := []; referencedAstSymbols := [] |}).
  assert (∃ dn0, (declarations T ++ [new]) !! i = Some dn0 ∧
            declaration dn0 = declaration dn ∧ astSymbol dn0 = astSymbol dn)
    as (dn0 & Hdn0 & ? & ?).
  { destruct (decide (i < length (declarations T))).
    - rewrite lookup_app_l in Hi |- * by done. eauto.
    - rewrite lookup_app_r in Hi |- * by lia.
      destruct (i - length (declarations T)) as [| k]; simpl in *; [| done].
      injection Hi as <-. eauto. }
  destruct pad as [q |]; simpl; [| eauto].
  destruct (list_lookup_alter_Some
              (λ d, set_children (children d ++ [length (declarations T)]) d)
              _ i q dn0 Hdn0) as (dn' & Hdn' & [-> | ->]); eauto.
Qed.

Lemma createDeclaration_length fuel r p y T T' u :
  createDeclaration P fuel r p y T = (T', Ok u) →
  length (declarations T') = S (length (declarations T)).
Proof.
  intros H. destruct (createDeclaration_run _ _ _ _ _ _ _ H) as [pad ->].
  destruct pad; simpl; rewrite ?length_alter, length_app; simpl; lia.
Qed.

Lemma createDeclarations_lengths fuel r p decls T T' o :
  createDeclarations P fuel decls r p T = (T', o) →
  length (symbols T') = length (symbols T).
Proof.
  intros H.
  apply (keeps_run (λ T0, length (symbols T0) = length (symbols T)) _ _ _ _) in H;
    [done | | done].
  unfold createDeclarations, createDeclaration, new_AstDeclaration.
  repeat keeps_step.
  all: try (apply keeps_modify; intros ? ?; simpl; by rewrite ?length_alter).
  apply keeps_tryFindFirstAstDeclarationParent.
Qed.

Lemma createDeclaration_declares fuel r p y T T' u len0 :
  createDeclaration P fuel r p y T = (T', Ok u) →
  len0 ≤ length (declarations T) →
  declared T' len0 r y.
Proof.
  intros H Hlen. destruct (createDeclaration_effect _ _ _ _ _ _ _ H) as [Hby Hds].
  destruct (Hds (length (declarations T)) _ (list_lookup_middle _ [] _ _ eq_refl))
    as (dn' & Hdn' & Hd & Ha).
  exists (length (declarations T)), dn'. rewrite Hby, lookup_insert_eq. done.
Qed.

Lemma createDeclaration_keeps_declared fuel r p y T T' u len0 x :
  createDeclaration P fuel r p y T = (T', Ok u) →
  declared T len0 r x → declared T' len0 r x.
Proof.
  intros H (dr & dn & Hby & Hdn & Hd & Ha & Hlen).
  destruct (decide (x = y)) as [-> | Hne].
  - eapply createDeclaration_declares; [done |].
    apply lookup_lt_Some in Hdn. lia.
  - destruct (createDeclaration_effect _ _ _ _ _ _ _ H) as [Hby' Hds].
    destruct (Hds dr dn) as (dn' & Hdn' & Hd' & Ha').
    { by apply lookup_app_l_Some. }
    exists dr, dn'. rewrite Hby', lookup_insert_ne by done.
    repeat split; congruence.
Qed.

Lemma createDeclarations_keeps_declared fuel r p decls T T' u len0 x :
  createDeclarations P fuel decls r p T = (T', Ok u) →
  declared T len0 r x → declared T' len0 r x.
Proof.
  unfold createDeclarations. revert T.
  induction decls as [| y decls IH]; intros T H Hx; simpl in H.
  - by run H.
  - run H. eapply IH; [done |].
    by eapply createDeclaration_keeps_declared.
Qed.

Lemma createDeclarations_declares fuel r p decls T T' u :
  createDeclarations P fuel decls r p T = (T', Ok u) →
  ∀ d, d ∈ decls → declared T' (length (declarations T)) r d.
Proof.
  unfold createDeclarations. revert T.
  induction decls as [| y decls IH]; intros T H d Hd; simpl in H.
  - by apply elem_of_nil in Hd.
  - run H. apply elem_of_cons in Hd as [-> | Hd].
    + eapply createDeclarations_keeps_declared; [done |].
      by eapply createDeclaration_declares.
    + match goal with
      | H1 : createDeclaration _ _ _ _ _ T = (?T1, _) |- _ =>
          destruct (IH T1 ltac:(eassumption) d Hd) as (dr & dn & ? & ? & ? & ? & ?);
          apply createDeclaration_length in H1
      end.
      exists dr, dn. repeat split; try done. lia.
Qed.

(** Calls that only read: the table they leave is the one they found. *)
Ltac frames :=
  repeat match goal with
  | H : requireAstDeclarations _ _ _ ?T = (?T1, _) |- _ =>
      assert (T1 = T) as -> by
        exact (eq_sym (keeps_run (eq T) _ _ _ _
                 (keeps_requireAstDeclarations P _ _ _) eq_refl H))
  | H : _tryFindFirstAstDeclarationParent _ _ _ ?T = (?T1, _) |- _ =>
      assert (T1 = T) as -> by
        exact (eq_sym (keeps_run (eq T) _ _ _ _
                 (keeps_tryFindFirstAstDeclarationParent P _ _ _) eq_refl H))
  end.

Lemma fetchAstSymbol_miss_run fuel s a o T T' r :
  _astSymbolsBySymbol T !! s = None →
  match o with
  | Some opts => _astSymbolsByImportKey T !! key (new_AstImport opts) = None
  | None => True
  end →
  _fetchAstSymbol P (S fuel) s a o T = (T', Ok (Some r)) →
  ∃ T2 node0 decls,
    sym_declarations P s = Some decls ∧ extends T T2 ∧
    r = length (symbols T2) ∧
    localName node0 = sym_name P s ∧ followedSymbol node0 = s ∧
    astImport node0 = new_AstImport <$> o ∧
    astDeclarations node0 = [] ∧ _analyzed node0 = false ∧
    createDeclarations P fuel decls r (parentAstSymbol node0)
      (match o with
       | Some opts => with_byImportKey (<[key (new_AstImport opts) := r]>)
       | None => id
       end (with_bySymbol (<[s := r]>) (with_symbols (λ ss, ss ++ [node0]) T2)))
    = (T', Ok tt).
Proof.
  intros Hmiss Hkey H. simpl in H. destruct o as [opts |]; simpl in H.
  - run H; frames; simplify_eq/=.
    all: try match goal with
         | Hrec : _fetchAstSymbol _ _ _ _ _ ?T = (?T2, _) |- _ =>
             pose proof (monotone_run _ _ _ _ (monotone_fetchAstSymbol P _ _ _ _) Hrec)
         end.
    all: match goal with
         | Hc : createDeclarations _ _ _ _ _ (with_byImportKey _ (with_bySymbol _
                  (with_symbols (λ ss, ss ++ [?node]) ?T2))) = (_, Ok ?u) |- _ =>
             destruct u; exists T2, node; eexists; split_and!; try done
         end.
  - run H; frames; simplify_eq/=.
    all: try match goal with
         | Hrec : _fetchAstSymbol _ _ _ _ _ ?T = (?T2, _) |- _ =>
             pose proof (monotone_run _ _ _ _ (monotone_fetchAstSymbol P _ _ _ _) Hrec)
         end.
    all: match goal with
         | Hc : createDeclarations _ _ _ _ _ (with_bySymbol _
                  (with_symbols (λ ss, ss ++ [?node]) ?T2)) = (_, Ok ?u) |- _ =>
             destruct u; exists T2, node; eexists; split_and!; try done
         end.
Qed.

Lemma fetchAstSymbol_miss_constructs fuel s a o T T' r :
  _astSymbolsBySymbol T !! s = None →
  match o with
  | Some opts => _astSymbolsByImportKey T !! key (new_AstImport opts) = None
  | None => True
  end →
  _fetchAstSymbol P fuel s a o T = (T', Ok (Some r)) →
  length (symbols T) ≤ r ∧
  (∃ node, symbols T' !! r = Some node ∧ followedSymbol node = s ∧
           localName node = sym_name P s ∧
           astImport node = new_AstImport <$> o) ∧
  _astSymbolsBySymbol T' !! s = Some r ∧
  match o with
  | Some opts => _astSymbolsByImportKey T' !! key (new_AstImport opts) = Some r
  | None => True
  end ∧
  ∀ d, d ∈ default [] (sym_declarations P s) →
    declared T' (length (declarations T)) r d.
Proof.
  intros Hmiss Hkey H.
  pose proof (fetchAstSymbol_cached _ _ _ _ _ _ _ _ H) as Hcached.
  destruct fuel as [| fuel]; [done |].
  destruct (fetchAstSymbol_miss_run _ _ _ _ _ _ _ Hmiss Hkey H)
    as (T2 & node0 & decls & Hdecls & Hext & -> & Hname & Hsym & Himp & _ & _ & Hc).
  pose proof (monotone_run _ _ _ _
    (keeps_monotone _ (λ T0, extends_createDeclarations P T0 _ _ _ _)) Hc) as Hext'.
  split_and!.
  - eapply heap_extends_length, Hext.
  - destruct (ext_symbols _ _ Hext' (length (symbols T2)) node0)
      as (node & Hnode & Enode).
    { destruct o; simpl; by apply list_lookup_middle. }
    exists node. destruct Enode as (? & ? & ? & _). split_and!; congruence.
  - done.
  - destruct o as [opts |]; [| done].
    by eapply fetchAstSymbol_miss_registers.
  - intros d Hd. rewrite Hdecls in Hd. simpl in Hd.
    destruct (createDeclarations_declares _ _ _ _ _ _ _ Hc d Hd)
      as (dr & dn & ? & ? & ? & ? & Hlen).
    exists dr, dn. split_and!; try done.
    etrans; [| exact Hlen].
    destruct o; simpl; eapply heap_extends_length, Hext.
Qed.

Lemma createDeclarations_parentless fuel decls r T :
  ∃ T', createDeclarations P fuel decls r None T = (T', Ok tt).
Proof.
  unfold createDeclarations. revert T.
  induction decls as [| d decls IH]; intros T; simpl.
  - by eexists.
  - unfold bind at 1.
    destruct (createDeclaration P fuel r None d T) as [T1 o] eqn:H.
    unfold createDeclaration, new_AstDeclaration in H. run H. apply IH.
Qed.

Lemma requireAstDeclarations_ok s decls T :
  Forall (λ d, isAstDeclaration P (node_kind P d) = true) decls →
  requireAstDeclarations P s decls T = (T, Ok tt).
Proof.
  unfold requireAstDeclarations.
  induction 1 as [| d decls Hd _ IH]; simpl; [done |].
  rewrite Hd. unfold bind at 1. simpl. apply IH.
Qed.

End TryGetAstSymbol.

(** ** Name lookup across wildcard re-exports *)

Lemma elem_of_allModules T i : i ∈ allModules T ↔ i < length (modules T).
Proof.
  unfold allModules. rewrite elem_of_list_to_set, elem_of_seq. lia.
Qed.

Lemma tryStarExportedModules_post T exportName recur stars visited :
  (∀ j v, j ∈ stars → visited ⊆ v →
     lookup_post T exportName (¬ (j < length (modules T) ∧ modules_closed T)) v
       (recur j v T)) →
  lookup_post T exportName
    (¬ ((∀ j, j ∈ stars → j < length (modules T)) ∧ modules_closed T)) visited
    (tryStarExportedModules recur stars visited T).
Proof.
  revert visited. induction stars as [| j stars IH]; intros visited Hrec; simpl.
  - split; [done |]. simpl. by split.
  - unfold bind.
    destruct (Hrec j visited) as [HT Hpost]; [left | done |].
    destruct (recur j visited T) as [T1 [[r v'] | e | |]]; simpl in *; subst;
      try done.
    2: { split; [done |]. simpl. intros [H1 H2]. apply Hpost. split; [| done].
         apply H1. left. }
    destruct Hpost as [Hsub Hnone]. destruct r as [a |].
    + split; [done |]. simpl. by split.
    + destruct (IH v') as [HT' Hpost'].
      { intros j' v Hj' Hv. apply Hrec; [by right | by etrans]. }
      split; [done |].
      destruct (tryStarExportedModules recur stars v' T) as [T2 [[r2 v2] | e | |]];
        simpl in *; try done.
      * destruct Hpost' as [Hsub' Hnone']. split; [by etrans | done].
      * intros [H1 H2]. apply Hpost'. split; [| done].
        intros j' Hj'. apply H1. by right.
Qed.

Lemma tryGetExportOfAstModule_post fuel exportName T :
  ∀ m visited,
    size (allModules T ∖ visited) < fuel →
    lookup_post T exportName (¬ (m < length (modules T) ∧ modules_closed T)) visited
      (_tryGetExportOfAstModule fuel exportName m visited T).
Proof.
  induction fuel as [| fuel IH]; intros m visited Hsize; [lia |].
  simpl. case_bool_decide as Hvis.
  { split; [done |]. simpl. by split. }
  unfold bind at 1, getModule, bind at 1, gets. simpl.
  destruct (modules T !! m) as [md |] eqn:Hmd; simpl.
  2: { split; [done |]. simpl. apply lookup_ge_None in Hmd. lia. }
  destruct (exportedSymbols md !! exportName) as [a |] eqn:Ha.
  { split; [done |]. simpl. split; [set_solver |].
    intros Hnone. by rewrite (Hnone _ _ Hmd) in Ha. }
  assert (m ∈ allModules T) as Hin.
  { apply elem_of_allModules. by eapply lookup_lt_Some. }
  destruct (tryStarExportedModules_post T exportName
              (_tryGetExportOfAstModule fuel exportName)
              (starExportedModules md) ({[m]} ∪ visited)) as [HT Hpost].
  { intros j v Hj Hv. apply IH.
    assert (size (allModules T ∖ v) < size (allModules T ∖ visited)); [| lia].
    apply subset_size. set_solver. }
  split; [done |].
  destruct (tryStarExportedModules _ _ _ T) as [T2 [[r2 v2] | e | |]];
    simpl in *; try done.
  - destruct Hpost as [Hsub Hnone]. split; [set_solver | done].
  - intros [_ Hclosed]. apply Hpost. split; [| done].
    intros j Hj. by eapply Hclosed.
Qed.

(** With more fuel than the table has modules, the lookup from the empty
    visited set never runs out of fuel and leaves the table as it is; with
    closed module references it returns a result, which is "not found"
    when no module at all exports the name.  A module that is already
    visited gives "not found" at once. *)
Lemma tryGetExportOfAstModule_total fuel exportName astModule T :
  length (modules T) < fuel →
  (∃ out, _tryGetExportOfAstModule fuel exportName astModule ∅ T = (T, out) ∧
      out ≠ OutOfFuel ∧
      (astModule < length (modules T) → modules_closed T →
       ∃ r visited, out = Ok (r, visited) ∧
         ((∀ i m, modules T !! i = Some m → exportedSymbols m !! exportName = None) →
          r = None))) ∧
  (∀ visited, astModule ∈ visited →
     _tryGetExportOfAstModule fuel exportName astModule visited T
     = (T, Ok (None, visited))).
Proof.
  intros Hfuel. split.
  - destruct (tryGetExportOfAstModule_post fuel exportName T astModule ∅)
      as [HT Hpost].
    { rewrite difference_empty_L. unfold allModules.
      rewrite size_list_to_set by apply NoDup_seq. by rewrite length_seq. }
    destruct (_tryGetExportOfAstModule fuel exportName astModule ∅ T)
      as [T1 out]; simpl in *; subst.
    exists out. split; [done |].
    destruct out as [[r v] | e | |]; try done.
    + split; [done |]. intros _ _. exists r, v. by destruct Hpost.
    + split; [done |]. intros Hm Hc. by destruct Hpost.
  - intros visited Hvis. destruct fuel as [| fuel]; [lia |].
    simpl. by rewrite bool_decide_eq_true_2.
Qed.

(** ** Module resolution only adds to the table *)

Lemma keeps_tryStarExportedModules I recur stars visited :
  (∀ j v, keeps I (recur j v)) → keeps I (tryStarExportedModules recur stars visited).
Proof.
  intros Hrec. revert visited. induction stars as [| j stars IH]; intros visited; simpl.
  - apply keeps_ret.
  - apply keeps_bind; [apply Hrec |]. intros [[a |] v]; [apply keeps_ret | apply IH].
Qed.

Lemma keeps_tryGetExportOfAstModule I fuel exportName m visited :
  keeps I (_tryGetExportOfAstModule fuel exportName m visited).
Proof.
  revert m visited. induction fuel as [| fuel IH]; intros m visited; simpl;
    repeat keeps_step.
  by apply keeps_tryStarExportedModules.
Qed.

Lemma keeps_getExportOfAstModule I fuel exportName m :
  keeps I (_getExportOfAstModule fuel exportName m).
Proof.
  unfold _getExportOfAstModule. repeat keeps_step.
  apply keeps_tryGetExportOfAstModule.
Qed.
Global Hint Resolve keeps_tryGetExportOfAstModule keeps_getExportOfAstModule : keeps.

Lemma extends_exportedSymbols_set T0 m name a :
  keeps (extends T0) (exportedSymbols_set m name a).
Proof.
  unfold exportedSymbols_set. repeat keeps_step.
  apply extends_modules_alter. intros x. split_and!; simpl; try done.
  rewrite dom_insert. set_solver.
Qed.

Lemma extends_starExportedModules_add T0 m target :
  keeps (extends T0) (starExportedModules_add m target).
Proof.
  unfold starExportedModules_add. repeat keeps_step.
  apply extends_modules_alter. intros x. split_and!; simpl; try done.
  apply set_add_subseteq.
Qed.
Global Hint Resolve extends_exportedSymbols_set extends_starExportedModules_add : keeps.

Section Modules.
Context (P : TsProgram).

Section Open.
Context (T0 : AstSymbolTable) (recur : nat → option string → M nat).
Context (Hrecur : ∀ sf spec, keeps (extends T0) (recur sf spec)).

Lemma extends_fetchSpecifierAstModule d :
  keeps (extends T0) (_fetchSpecifierAstModule P recur d).
Proof using Hrecur. unfold _fetchSpecifierAstModule. repeat keeps_step. Qed.
Hint Resolve extends_fetchSpecifierAstModule : keeps.

Lemma extends_collectExportsFromExportStar m d :
  keeps (extends T0) (_collectExportsFromExportStar P recur m d).
Proof using Hrecur. unfold _collectExportsFromExportStar. repeat keeps_step. Qed.

Lemma extends_forCurrentDeclarations fuel m e decls :
  keeps (extends T0) (forCurrentDeclarations P recur fuel m e decls).
Proof using Hrecur.
  induction decls as [| d decls IH]; simpl; repeat keeps_step.
Qed.

Lemma extends_collectNormalDeclaration fuel m e c :
  keeps (extends T0) (collectNormalDeclaration P fuel m e c).
Proof.
  unfold collectNormalDeclaration. repeat keeps_step.
  apply monotone_keeps, monotone_fetchAstSymbol.
Qed.

Lemma extends_whileTrue steps fuel m e c :
  keeps (extends T0) (whileTrue P recur steps fuel m e c).
Proof using Hrecur.
  revert c. induction steps as [| steps IH]; intros c; simpl; repeat keeps_step;
    auto using extends_forCurrentDeclarations, extends_collectNormalDeclaration.
Qed.

Lemma extends_collectLocalExport fuel m e :
  keeps (extends T0) (collectLocalExport P recur fuel m e).
Proof using Hrecur.
  unfold collectLocalExport, _collectExportForAstModule. repeat keeps_step;
    auto using extends_collectExportsFromExportStar, extends_whileTrue.
Qed.

Lemma extends_collectExternalExport fuel m e :
  keeps (extends T0) (collectExternalExport P fuel m e).
Proof.
  unfold collectExternalExport. repeat keeps_step.
  apply monotone_keeps, monotone_fetchAstSymbol.
Qed.
End Open.

Lemma monotone_fetchAstModuleBySourceFile fuel sf spec :
  monotone (fetchAstModuleBySourceFile P fuel sf spec).
Proof.
  revert sf spec. induction fuel as [| fuel IH]; intros sf spec;
    apply keeps_monotone; intros T0; simpl.
  { apply keeps_outOfFuel. }
  unfold fetchAstModuleBySourceFile_body, populateExternalModule,
    populateLocalModule.
  repeat keeps_step;
    try (apply extends_set_bySourceFile; eapply lookup_weaken_None;
         [eassumption | by apply ext_bySourceFile]);
    try (apply extends_modules_alter; intros x; by split_and!);
    try (apply extends_collectExternalExport);
    try (apply extends_collectLocalExport; intros; apply monotone_keeps, IH).
Qed.
End Modules.

(** ** Analysis *)

Lemma extends_symbol_analyzed T T' r :
  extends T T' →
  symbol_analyzed (symbols T) r = Some true → symbol_analyzed (symbols T') r = Some true.
Proof.
  intros Hext. unfold symbol_analyzed.
  destruct (symbols T !! r) as [s |] eqn:Hs; [| done].
  destruct (symbols T !! rootAstSymbol s) as [root |] eqn:Hroot; [| done].
  destruct (ext_symbols _ _ Hext _ _ Hs) as (s' & -> & Es).
  destruct (ext_symbols _ _ Hext _ _ Hroot) as (root' & Hroot' & Eroot).
  destruct Es as (_ & _ & _ & _ & -> & _). rewrite Hroot'.
  destruct Eroot as (_ & _ & _ & _ & _ & _ & Hflag).
  intros [= Ha]. by rewrite Hflag.
Qed.

Section Analyze.
Context (P : TsProgram).

Lemma extends_fetchAstDeclaration T0 fuel node :
  keeps (extends T0) (_fetchAstDeclaration P fuel node).
Proof.
  unfold _fetchAstDeclaration, _fetchAstSymbolForNode. repeat keeps_step;
    apply monotone_keeps, monotone_fetchAstSymbol.
Qed.

Lemma extends_recordReference T0 fuel node g :
  keeps (extends T0) (recordReference P fuel node g).
Proof.
  unfold recordReference. repeat keeps_step;
    apply monotone_keeps, monotone_fetchAstSymbol.
Qed.

Lemma extends_analyzeChildTree T0 fuel node g :
  keeps (extends T0) (_analyzeChildTree P fuel node g).
Proof.
  revert node g. induction fuel as [| fuel IH]; intros node g; simpl;
    repeat keeps_step;
    auto using extends_recordReference, extends_fetchAstDeclaration.
Qed.

Lemma extends_analyzeRoot T0 fuel root :
  keeps (extends T0) (analyzeRoot P fuel root).
Proof.
  unfold analyzeRoot. repeat keeps_step; auto using extends_analyzeChildTree.
Qed.

Lemma keeps_forEachDeclarationRecursive I fuel a action :
  (∀ d rs, keeps I (action d rs)) →
  keeps I (forEachDeclarationRecursive fuel a action).
Proof. intros Ha. unfold forEachDeclarationRecursive. repeat keeps_step. Qed.

Lemma extends_analyzeReferenced T0 recur rs :
  (∀ r, keeps (extends T0) (recur r)) →
  keeps (extends T0) (analyzeReferenced recur rs).
Proof. intros Hr. unfold analyzeReferenced. repeat keeps_step. Qed.

Lemma monotone_analyze fuel a : monotone (analyze P fuel a).
Proof.
  revert a. induction fuel as [| fuel IH]; intros a;
    apply keeps_monotone; intros T0; simpl.
  { apply keeps_outOfFuel. }
  repeat keeps_step; auto using extends_analyzeRoot.
  apply keeps_forEachDeclarationRecursive. intros _ rs.
  apply extends_analyzeReferenced. intros r. apply monotone_keeps, IH.
Qed.

Lemma notifyAnalyzed_run r T T' o :
  _notifyAnalyzed r T = (T', o) →
  (∃ s, symbols T !! r = Some s ∧ o = Ok tt ∧
        T' = with_symbols (alter set_analyzed r) T) ∨
  (symbols T !! r = None ∧ o = Dangling ∧ T' = T).
Proof.
  unfold _notifyAnalyzed. intros H. run H.
  - left. eauto.
  - right. eauto.
Qed.

Lemma analyzeRoot_analyzed fuel a s T T' u :
  symbols T !! a = Some s →
  analyzeRoot P fuel (rootAstSymbol s) T = (T', Ok u) →
  symbol_analyzed (symbols T') a = Some true.
Proof.
  intros Hs H.
  pose proof (keeps_run (extends T) _ _ _ _
                (extends_analyzeRoot T fuel (rootAstSymbol s)) (reflexivity T) H)
    as Hext.
  destruct (ext_symbols _ _ Hext _ _ Hs) as (s' & Hs' & Es).
  unfold analyzeRoot in H. run H.
  destruct (notifyAnalyzed_run _ _ _ _ H) as [(rs & Hrs & _ & ->) | (? & ? & _)];
    [| done].
  unfold symbol_analyzed. rewrite Hs'.
  destruct Es as (_ & _ & _ & _ & -> & _). simpl.
  by rewrite list_lookup_alter_eq, Hrs.
Qed.

Lemma extends_analyze_done T T' a :
  extends T T' → analyze_done T a → analyze_done T' a.
Proof.
  intros Hext [Ha | (s & Hs & Hn & Hf & [root Hroot])].
  - left. by eapply extends_symbol_analyzed.
  - right. destruct (ext_symbols _ _ Hext _ _ Hs) as (s' & Hs' & Es).
    destruct (ext_symbols _ _ Hext _ _ Hroot) as (root' & Hroot' & _).
    destruct Es as (_ & _ & _ & _ & Er & En & Ef).
    exists s'. rewrite Er, En. split_and!; auto.
Qed.

Lemma analyze_analyze_done fuel a T T' :
  analyze P fuel a T = (T', Ok tt) → analyze_done T' a.
Proof.
  destruct fuel as [| fuel]; simpl; [done |]. intros H. run H.
  - (* already analyzed *) by left.
  - (* nominal *)
    destruct (notifyAnalyzed_run _ _ _ _ H) as [(s & Hs & _ & ->) | (? & ? & _)];
      [| done].
    assert (s = a0) as -> by congruence.
    right. exists (set_analyzed a0). simpl.
    rewrite list_lookup_alter_eq, Hs. split_and!; try done.
    unfold symbol_analyzed in Heqo. rewrite Hs in Heqo.
    destruct (decide (a = rootAstSymbol a0)) as [<- | Hne].
    + rewrite list_lookup_alter_eq, Hs. by eexists.
    + rewrite list_lookup_alter_ne by done.
      destruct (symbols T !! rootAstSymbol a0); [by eexists | done].
  - (* imported: the walk only *)
    left. eapply analyzeRoot_analyzed; eauto.
  - (* not imported: the walk, then the references *)
    left. eapply extends_symbol_analyzed.
    + eapply (keeps_run (extends T0)); [| reflexivity | exact H].
      apply keeps_forEachDeclarationRecursive. intros _ rs.
      apply extends_analyzeReferenced. intros r.
      apply monotone_keeps, monotone_analyze.
    + eapply analyzeRoot_analyzed; eauto.
Qed.

Lemma set_analyzed_id s : _analyzed s = true → set_analyzed s = s.
Proof. destruct s. simpl. by intros ->. Qed.

Lemma alter_set_analyzed_id T a s :
  symbols T !! a = Some s → _analyzed s = true →
  with_symbols (alter set_analyzed a) T = T.
Proof.
  intros Hs Hf. destruct T as [? ? ? ? ss ? ?]. unfold with_symbols. simpl in *.
  f_equal. apply list_eq. intros i.
  destruct (decide (a = i)) as [<- | Hne].
  - rewrite list_lookup_alter_eq, Hs. simpl. by rewrite set_analyzed_id.
  - by rewrite list_lookup_alter_ne.
Qed.

Lemma analyze_done_noop fuel a T :
  analyze_done T a → analyze P (S fuel) a T = (T, Ok tt).
Proof.
  intros Hdone.
  destruct (analyze P (S fuel) a T) as [T' o] eqn:H. simpl in H.
  destruct Hdone as [Ha | (s & Hs & Hn & Hf & [root Hroot])].
  - by run H.
  - assert (symbol_analyzed (symbols T) a = Some (_analyzed root)) as Ha.
    { unfold symbol_analyzed. by rewrite Hs, Hroot. }
    run H; try done.
    destruct (notifyAnalyzed_run _ _ _ _ H) as [(s' & Hs' & Ho & HT) | (? & ? & _)].
    + subst. by rewrite (alter_set_analyzed_id T a s Hs Hf).
    + congruence.
Qed.

(** C7 (idempotence of [analyze]).  After [analyze] has completed on a
    symbol, another [analyze] on that symbol, at any later state of the
    run, returns at once and leaves the whole table as it is: no
    declaration node and no referenced symbol is added. *)
Theorem analyze_idempotent fuel1 fuel2 astSymbol T T1 T1' :
  analyze P fuel1 astSymbol T = (T1, Ok tt) →
  extends T1 T1' →
  analyze P (S fuel2) astSymbol T1' = (T1', Ok tt).
Proof.
  intros H Hext. apply analyze_done_noop.
  eapply extends_analyze_done; [done |].
  by eapply analyze_analyze_done.
Qed.
End Analyze.

(** ** What module resolution has done when it returns *)

Lemma forEach_inv {A} (body : A → M unit) xs T T' u x :
  (∀ y, monotone (body y)) →
  forEach xs body T = (T', Ok u) → x ∈ xs →
  ∃ T1 T2, extends T T1 ∧ body x T1 = (T2, Ok tt) ∧ extends T2 T'.
Proof.
  intros Hmono. revert T. induction xs as [| y xs IH]; intros T H Hx.
  { by apply elem_of_nil in Hx. }
  simpl in H. run H.
  match goal with
  | Hy : body y T = (?T1, Ok ?v) |- _ =>
      destruct v; pose proof (monotone_run _ _ _ _ (Hmono y) Hy) as Hext1
  end.
  apply elem_of_cons in Hx as [-> | Hx].
  - eexists T, _. split_and!; [reflexivity | done |].
    eapply (keeps_run (extends _)); [| reflexivity | exact H].
    apply keeps_forEach. intros z. apply monotone_keeps, Hmono.
  - destruct (IH _ H Hx) as (T1 & T2 & ? & ? & ?).
    exists T1, T2. split_and!; try done. by etrans.
Qed.

Section ModuleTheorems.
Context (P : TsProgram).

Lemma fetchAstModuleBySourceFile_cached fuel sf spec T T' r :
  fetchAstModuleBySourceFile P fuel sf spec T = (T', Ok r) →
  _astModulesBySourceFile T' !! sf = Some r.
Proof.
  destruct fuel as [| fuel]; simpl; [done |].
  unfold fetchAstModuleBySourceFile_body. intros H. run H; [done | ..].
  all: match goal with
       | Hp : _ ?T0 = (?T1, Ok _) |- _ =>
           assert (extends T0 T1) as Hext
       end.
  all: try (eapply lookup_weaken; [| apply Hext]; simpl; apply lookup_insert_eq).
  all: match goal with
       | Hp : ?m ?T0 = (?T1, Ok _) |- _ =>
           eapply (keeps_run (extends T0) m); [| reflexivity | exact Hp]
       end.
  all: unfold populateExternalModule, populateLocalModule; repeat keeps_step.
  all: try (apply extends_modules_alter; intros x; by split_and!).
  all: try apply extends_collectExternalExport.
  all: apply extends_collectLocalExport; intros;
    apply monotone_keeps, monotone_fetchAstModuleBySourceFile.
Qed.

Lemma starExportedModules_add_run m target T T' u :
  starExportedModules_add m target T = (T', Ok u) →
  ∃ md, modules T' !! m = Some md ∧ target ∈ starExportedModules md.
Proof.
  unfold starExportedModules_add. intros H. run H.
  eexists. simpl. rewrite list_lookup_alter_eq.
  match goal with Hm : modules _ !! m = Some _ |- _ => rewrite Hm end.
  split; [done |]. simpl. apply elem_of_set_add.
Qed.

Lemma monotone_collectLocalExport fuel fuel' m e :
  monotone (collectLocalExport P (fetchAstModuleBySourceFile P fuel) fuel' m e).
Proof.
  apply keeps_monotone. intros T0. apply extends_collectLocalExport.
  intros. apply monotone_keeps, monotone_fetchAstModuleBySourceFile.
Qed.

Lemma monotone_collectExportsFromExportStar fuel m d :
  monotone (_collectExportsFromExportStar P (fetchAstModuleBySourceFile P fuel) m d).
Proof.
  apply keeps_monotone. intros T0. apply extends_collectExportsFromExportStar.
  intros. apply monotone_keeps, monotone_fetchAstModuleBySourceFile.
Qed.

(** What a successful call for a local module that was not yet in the
    registry went through. *)
Lemma fetchAstModuleBySourceFile_local_run fuel sf spec T T' r :
  fetchAstModuleBySourceFile P fuel sf spec T = (T', Ok r) →
  _astModulesBySourceFile T !! sf = None →
  isLocalSpecifier P spec →
  ∃ fuel' moduleSymbol T0 u,
    fuel = S fuel' ∧
    getSymbolForDeclaration P sf = Some moduleSymbol ∧
    extends T T0 ∧
    (∃ md, modules T0 !! r = Some md ∧ sourceFile md = sf) ∧
    forEach (default [] (sym_exports P moduleSymbol))
      (collectLocalExport P (fetchAstModuleBySourceFile P fuel') fuel' r) T0
    = (T', Ok u).
Proof.
  destruct fuel as [| fuel]; simpl; [done |].
  unfold fetchAstModuleBySourceFile_body. intros H Hmiss Hlocal.
  run H.
  all: unfold isLocalSpecifier in Hlocal; simplify_eq/=.
  all: unfold populateLocalModule in *.
  all: try match goal with
       | Hb : negb ?b = true, Hl : ?b = true |- _ => rewrite Hl in Hb; discriminate
       end.
  all: match goal with
       | Hp : match getSymbolForDeclaration P ?x with _ => _ end _ = _ |- _ =>
           destruct (getSymbolForDeclaration P x) as [ms |] eqn:Hms; [| done]
       end.
  all: match goal with
       | Hf : forEach _ _ ?T0 = (_, Ok ?u) |- _ =>
           exists fuel, ms, T0, u; split_and!; try done
       end.
  all: try (simpl; eexists; split; [by apply list_lookup_middle | done]).
  all: split; simpl; try done; try (by apply insert_subseteq);
    apply heap_extends_app; [apply _ | reflexivity].
Qed.

Lemma fetchAstSymbol_None fuel s a o T T' :
  _fetchAstSymbol P fuel s a o T = (T', Ok None) →
  T' = T ∧ (Z.land (sym_flags P s) filteredFlags ≠ 0%Z ∨ isAmbient P s = true).
Proof.
  destruct fuel as [| fuel]; simpl; [done |]. intros H.
  destruct (Z.land (sym_flags P s) filteredFlags =? 0)%Z eqn:Hflags; simpl in H.
  - destruct (isAmbient P s) eqn:Hamb.
    + run H. auto.
    + run H.
  - run H. split; [done |]. left. by apply Z.eqb_neq.
Qed.

Lemma forCurrentDeclarations_plain recur fuel m e decls T :
  (∀ d, d ∈ decls → findFirstParent P d ExportDeclaration = None) →
  forCurrentDeclarations P recur fuel m e decls T = (T, Ok false).
Proof.
  induction decls as [| d decls IH]; intros Hplain; simpl; [done |].
  rewrite (Hplain d) by left. apply IH. intros d' Hd'. apply Hplain. by right.
Qed.

Lemma exportedSymbols_set_run m name a T T' u :
  exportedSymbols_set m name a T = (T', Ok u) →
  ∃ md, modules T' !! m = Some md ∧ exportedSymbols md !! name = Some a ∧
        _astSymbolsBySymbol T' = _astSymbolsBySymbol T.
Proof.
  unfold exportedSymbols_set. intros H. run H.
  eexists. simpl. rewrite list_lookup_alter_eq.
  match goal with Hm : modules _ !! m = Some _ |- _ => rewrite Hm end.
  split; [done |]. simpl. split; [apply lookup_insert_eq | done].
Qed.

(** Every target of an [export * from] declaration of a local module is
    resolved when the module is: the target has an entry of its own in the
    registry, and that entry is listed in [starExportedModules]. *)
Lemma wildcard_targets_resolved fuel sf spec T T' r :
  fetchAstModuleBySourceFile P fuel sf spec T = (T', Ok r) →
  _astModulesBySourceFile T !! sf = None →
  isLocalSpecifier P spec →
  ∀ target, wildcardTarget P sf target →
    ∃ tm md, _astModulesBySourceFile T' !! target = Some tm ∧
             modules T' !! r = Some md ∧ tm ∈ starExportedModules md.
Proof.
  intros H Hmiss Hlocal.
  destruct (fetchAstModuleBySourceFile_local_run _ _ _ _ _ _ H Hmiss Hlocal)
    as (fuel' & ms & T0 & u & -> & Hms & Hext0 & _ & Hloop).
  intros target (ms' & exps & e & decls & d & mspec & file & Hms' & Hexps & He &
                 Hstar & Hdecls & Hd & Hkind & Hspec & Hne & Hres & Hfile).
  assert (ms' = ms) as -> by congruence.
  rewrite Hexps in Hloop. simpl in Hloop.
  destruct (forEach_inv _ _ _ _ _ e (monotone_collectLocalExport _ _ _) Hloop He)
    as (T1 & T2 & _ & Hbody & Hext2).
  unfold collectLocalExport in Hbody.
  rewrite bool_decide_eq_true_2, Hdecls in Hbody by done. simpl in Hbody.
  destruct (forEach_inv _ _ _ _ _ d
              (monotone_collectExportsFromExportStar _ _) Hbody Hd)
    as (T3 & T4 & _ & Hstep & Hext4).
  unfold _collectExportsFromExportStar, _fetchSpecifierAstModule in Hstep.
  rewrite bool_decide_eq_true_2, Hspec in Hstep by done.
  destruct mspec as [| c mspec]; [done |].
  rewrite Hres, Hfile in Hstep.
  run Hstep.
  match goal with
  | Hf : fetchAstModuleBySourceFile _ _ _ _ _ = (?T5, Ok ?tm),
    Ha : starExportedModules_add _ _ _ = _ |- _ =>
      pose proof (fetchAstModuleBySourceFile_cached _ _ _ _ _ _ Hf) as Hc;
      pose proof (keeps_run (extends T5) _ _ _ _
                    (extends_starExportedModules_add T5 _ _) (reflexivity _) Ha)
        as Hext5;
      destruct (starExportedModules_add_run _ _ _ _ _ Ha) as (md & Hmd & Hin);
      exists tm
  end.
  assert (extends T4 T') as Hext' by by etrans.
  destruct (ext_modules _ _ Hext' _ _ Hmd) as (md' & Hmd' & _ & _ & Hsub).
  exists md'. split_and!; try done.
  - eapply lookup_weaken; [| apply Hext']. eapply lookup_weaken; [done | apply Hext5].
  - by apply Hsub.
Qed.
End ModuleTheorems.

(** ** Re-exports and exports that resolve to nothing *)

Section Exports.
Context (P : TsProgram).

Lemma getExportOfAstModule_frame fuel name m T T' o :
  _getExportOfAstModule fuel name m T = (T', o) → T' = T.
Proof.
  intros H. symmetry.
  exact (keeps_run (eq T) _ _ _ _ (keeps_getExportOfAstModule _ fuel name m) eq_refl H).
Qed.

Lemma getExportOfAstModule_direct fuel name m md a T :
  modules T !! m = Some md → exportedSymbols md !! name = Some a →
  _getExportOfAstModule (S fuel) name m T = (T, Ok a).
Proof.
  intros Hmd Ha.
  destruct (_getExportOfAstModule (S fuel) name m T) as [T' o] eqn:H.
  unfold _getExportOfAstModule in H. cbn [_tryGetExportOfAstModule] in H.
  rewrite bool_decide_eq_false_2 in H by set_solver.
  run H; simpl in *; congruence.
Qed.

(** C5 (re-export chain).  Let the exported symbol [e] be declared by the
    export specifier [d] of [export { X as Y } from spec].  When
    [_collectExportForAstModule] returns, it has resolved the module of the
    specifier, looked up [X] (the [propertyName], not the alias) in that
    module with [_getExportOfAstModule], and bound the name of [e] to the
    node [a] that it found: looking up the name of [e] in the current
    module afterwards gives the very node that looking up [X] in the target
    module gives. *)
Theorem collectExportForAstModule_reexport
    fuel0 fuel astModule e T T' d rest ed X spec file msf :
  sym_declarations P e = Some (d :: rest) →
  findFirstParent P d ExportDeclaration = Some ed →
  node_kind P d = ExportSpecifier →
  exportSpecifier_propertyName P d = Some X →
  getModuleSpecifier P ed = Some spec → spec ≠ "" →
  getResolvedModule P (node_getSourceFile P ed) spec = Some file →
  program_getSourceFile P file = Some msf →
  _collectExportForAstModule P (fetchAstModuleBySourceFile P fuel0) fuel astModule e T
  = (T', Ok tt) →
  ∃ Tm m a,
    fetchAstModuleBySourceFile P fuel0 msf (Some spec) T = (Tm, Ok m) ∧
    _getExportOfAstModule fuel X m Tm = (Tm, Ok a) ∧
    exportedSymbols_set astModule (sym_name P e) a Tm = (T', Ok tt) ∧
    (∃ md, modules T' !! astModule = Some md ∧
           exportedSymbols md !! sym_name P e = Some a) ∧
    ∀ fuel', _getExportOfAstModule (S fuel') (sym_name P e) astModule T' = (T', Ok a).
Proof.
  intros Hdecls Hed Hkind Hprop Hspec Hne Hres Hfile H.
  unfold _collectExportForAstModule in H.
  destruct fuel as [| fuel]; [done |].
  cbn [whileTrue] in H. rewrite Hdecls in H.
  cbn [default from_option id forCurrentDeclarations] in H.
  rewrite Hed, bool_decide_eq_true_2, Hprop in H by done.
  unfold _fetchSpecifierAstModule in H. rewrite Hspec in H.
  destruct spec as [| c spec]; [done |]. rewrite Hres, Hfile in H.
  cbn [default from_option id] in H. run H.
  match goal with
  | Hg : _getExportOfAstModule _ _ _ ?T1 = (?T2, _) |- _ =>
      pose proof (getExportOfAstModule_frame _ _ _ _ _ _ Hg); subst T2
  end.
  match goal with
  | Hs : exportedSymbols_set _ _ ?a _ = (_, Ok ?u) |- _ =>
      destruct u;
      destruct (exportedSymbols_set_run _ _ _ _ _ _ Hs) as (md & Hmd & Hname & _)
  end.
  eexists _, _, _. split_and!; try done.
  - by exists md.
  - intros fuel'. by eapply getExportOfAstModule_direct.
Qed.

Lemma fetchAstSymbol_filtered fuel s a o T :
  filteredOut P s → _fetchAstSymbol P (S fuel) s a o T = (T, Ok None).
Proof.
  intros [Hflags | Hamb]; simpl.
  - apply Z.eqb_neq in Hflags. by rewrite Hflags.
  - rewrite Hamb. by destruct (negb _).
Qed.

Lemma forCurrentDeclarations_notReexported recur fuel m e decls T :
  (∀ d, d ∈ decls →
     match findFirstParent P d ExportDeclaration with
     | None => True
     | Some exportDeclaration =>
         node_kind P d = ExportSpecifier ∧
         (getModuleSpecifier P exportDeclaration = None ∨
          getModuleSpecifier P exportDeclaration = Some "")
     end) →
  forCurrentDeclarations P recur fuel m e decls T = (T, Ok false).
Proof.
  induction decls as [| d decls IH]; intros Hplain; simpl; [done |].
  pose proof (Hplain d ltac:(left)) as Hd.
  assert (forCurrentDeclarations P recur fuel m e decls T = (T, Ok false)) as Hrest.
  { apply IH. intros d' Hd'. apply Hplain. by right. }
  destruct (findFirstParent P d ExportDeclaration) as [ed |]; [| done].
  destruct Hd as [Hkind Hspec]. rewrite bool_decide_eq_true_2 by done.
  unfold _fetchSpecifierAstModule.
  destruct Hspec as [-> | ->]; unfold bind at 1; simpl; exact Hrest.
Qed.

Lemma whileTrue_aliasChain recur n steps fuel m e c t T :
  aliasChain P n c t → n < steps →
  whileTrue P recur steps fuel m e c T = collectNormalDeclaration P fuel m e t T.
Proof.
  intros Hchain. revert steps.
  induction Hchain as [c Hplain Hend | n c a t Hplain Halias Hnext Hne Hchain IH];
    intros steps Hsteps; (destruct steps as [| steps]; [lia |]); cbn [whileTrue].
  - unfold bind at 1.
    rewrite (forCurrentDeclarations_notReexported recur fuel m e _ T Hplain).
    destruct Hend as [H0 | [Hnone | Hself]].
    + apply Z.eqb_eq in H0. by rewrite H0.
    + rewrite Hnone. by destruct (_ =? _)%Z.
    + rewrite Hself, bool_decide_eq_true_2 by done. by destruct (_ =? _)%Z.
  - unfold bind at 1.
    rewrite (forCurrentDeclarations_notReexported recur fuel m e _ T Hplain).
    apply Z.eqb_neq in Halias. rewrite Halias, Hnext.
    rewrite bool_decide_eq_false_2 by done. apply IH. lia.
Qed.

End Exports.

(** ** Invariants of the heap of symbols *)

Section OnSymbols.
Context (J : list AstSymbol → Prop).

Lemma keeps_on_symbols_modify f :
  (∀ T, symbols (f T) = symbols T) → keeps (on_symbols J) (modify f).
Proof. intros Hf. apply keeps_modify. intros T HT. unfold on_symbols. by rewrite Hf. Qed.

Lemma keeps_on_symbols_bySymbol f : keeps (on_symbols J) (modify (with_bySymbol f)).
Proof. by apply keeps_on_symbols_modify. Qed.
Lemma keeps_on_symbols_byDeclaration f :
  keeps (on_symbols J) (modify (with_byDeclaration f)).
Proof. by apply keeps_on_symbols_modify. Qed.
Lemma keeps_on_symbols_byImportKey f :
  keeps (on_symbols J) (modify (with_byImportKey f)).
Proof. by apply keeps_on_symbols_modify. Qed.
Lemma keeps_on_symbols_bySourceFile f :
  keeps (on_symbols J) (modify (with_bySourceFile f)).
Proof. by apply keeps_on_symbols_modify. Qed.
Lemma keeps_on_symbols_declarations f :
  keeps (on_symbols J) (modify (with_declarations f)).
Proof. by apply keeps_on_symbols_modify. Qed.
Lemma keeps_on_symbols_modules f : keeps (on_symbols J) (modify (with_modules f)).
Proof. by apply keeps_on_symbols_modify. Qed.
End OnSymbols.

Global Hint Resolve keeps_on_symbols_bySymbol keeps_on_symbols_byDeclaration
  keeps_on_symbols_byImportKey keeps_on_symbols_bySourceFile
  keeps_on_symbols_declarations keeps_on_symbols_modules : keeps.

Lemma invariant_alter J f i ss :
  SymbolsInvariant J →
  (∀ s, nominal (f s) = nominal s ∧ rootAstSymbol (f s) = rootAstSymbol s ∧
        _analyzed (f s) = _analyzed s) →
  J ss → J (alter f i ss).
Proof.
  intros [| ss0] Hf HJ j s Hs.
  - destruct (decide (i = j)) as [-> | Hne].
    + rewrite list_lookup_alter_eq in Hs.
      destruct (ss !! j) as [s0 |] eqn:Hs0; simplify_eq/=.
      destruct (Hf s0) as (-> & -> & _). by apply HJ.
    + rewrite list_lookup_alter_ne in Hs by done. by apply HJ.
  - destruct (decide (i = j)) as [-> | Hne].
    + rewrite list_lookup_alter_eq in Hs.
      destruct (ss !! j) as [s1 |] eqn:Hs1; simplify_eq/=.
      destruct (Hf s1) as (_ & _ & ->). by apply HJ.
    + rewrite list_lookup_alter_ne in Hs by done. by apply HJ.
Qed.

Lemma invariant_app J s ss :
  SymbolsInvariant J →
  _analyzed s = false →
  (nominal s = true → rootAstSymbol s = length ss) →
  J ss → J (ss ++ [s]).
Proof.
  intros [| ss0] Hflag Hroot HJ j x Hx.
  - apply lookup_app_Some in Hx as [Hx | [Hlen Hx]]; [by apply HJ |].
    apply list_lookup_singleton_Some in Hx as [Hj ->]. intros Hn.
    rewrite (Hroot Hn). lia.
  - apply lookup_app_Some in Hx as [Hx | [Hlen Hx]]; [by apply HJ |].
    apply list_lookup_singleton_Some in Hx as [Hj ->]. congruence.
Qed.

Lemma invariant_new_AstSymbol J name fs imp parent root nom :
  SymbolsInvariant J →
  (nom = true → root = None) →
  keeps (on_symbols J) (new_AstSymbol name fs imp parent root nom).
Proof.
  intros HJ Hroot. unfold keeps. intros T0 HT.
  unfold new_AstSymbol, bind, gets, modify, ret. simpl.
  unfold on_symbols. simpl. apply invariant_app; try done.
  simpl. intros Hn. by rewrite (Hroot Hn).
Qed.

Lemma invariant_new_AstDeclaration J d a p :
  SymbolsInvariant J → keeps (on_symbols J) (new_AstDeclaration d a p).
Proof.
  intros HJ. unfold new_AstDeclaration. repeat keeps_step.
  apply keeps_modify. intros T' HT'. unfold on_symbols. simpl.
  by apply invariant_alter.
Qed.

Lemma invariant_notifyReferencedAstSymbol J d r :
  keeps (on_symbols J) (_notifyReferencedAstSymbol d r).
Proof. unfold _notifyReferencedAstSymbol. repeat keeps_step. Qed.

Global Hint Resolve invariant_new_AstDeclaration invariant_notifyReferencedAstSymbol
  : keeps.

Section Invariants.
Context (P : TsProgram) (J : list AstSymbol → Prop) (HJ : SymbolsInvariant J).

Lemma invariant_createDeclarations fuel decls a p :
  keeps (on_symbols J) (createDeclarations P fuel decls a p).
Proof using HJ.
  unfold createDeclarations, createDeclaration. repeat keeps_step.
  all: apply keeps_tryFindFirstAstDeclarationParent.
Qed.

Lemma invariant_fetchAstSymbol fuel s a o :
  keeps (on_symbols J) (_fetchAstSymbol P fuel s a o).
Proof using HJ.
  revert s a o. induction fuel as [| fuel IH]; intros s a o; simpl.
  { apply keeps_outOfFuel. }
  repeat keeps_step;
    try apply IH;
    try apply invariant_createDeclarations;
    try apply keeps_requireAstDeclarations;
    try apply keeps_tryFindFirstAstDeclarationParent;
    try (apply invariant_new_AstSymbol; [done | congruence]).
Qed.

Lemma invariant_analyzeChildTree fuel node g :
  keeps (on_symbols J) (_analyzeChildTree P fuel node g).
Proof using HJ.
  revert node g. induction fuel as [| fuel IH]; intros node g; simpl.
  { apply keeps_outOfFuel. }
  unfold recordReference, _fetchAstDeclaration, _fetchAstSymbolForNode.
  repeat keeps_step; try apply invariant_fetchAstSymbol; apply IH.
Qed.

(** The walk of [analyzeRoot], without the final notification. *)
Lemma invariant_walk fuel ds :
  keeps (on_symbols J)
    (forEach ds (λ astDeclaration,
       bind (getDeclaration astDeclaration) (λ d,
         _analyzeChildTree P fuel (declaration d) astDeclaration))).
Proof using HJ. repeat keeps_step. apply invariant_analyzeChildTree. Qed.
End Invariants.

Lemma nominal_roots_notifyAnalyzed r :
  keeps (on_symbols nominal_roots) (_notifyAnalyzed r).
Proof.
  unfold _notifyAnalyzed. repeat keeps_step.
  apply keeps_modify. intros T' HT' i s Hs. unfold on_symbols in HT'. simpl in Hs.
  destruct (decide (r = i)) as [-> | Hne].
  - rewrite list_lookup_alter_eq in Hs.
    destruct (symbols T' !! i) as [s0 |] eqn:Hs0; simplify_eq/=. by apply HT'.
  - rewrite list_lookup_alter_ne in Hs by done. by apply HT'.
Qed.

Section AnalyzeInvariants.
Context (P : TsProgram).

Lemma nominal_roots_analyzeRoot fuel root :
  keeps (on_symbols nominal_roots) (analyzeRoot P fuel root).
Proof.
  unfold analyzeRoot. repeat keeps_step.
  - apply invariant_analyzeChildTree. constructor.
  - apply nominal_roots_notifyAnalyzed.
Qed.

Lemma nominal_roots_analyzeReferenced recur rs :
  (∀ r, keeps (on_symbols nominal_roots) (recur r)) →
  keeps (on_symbols nominal_roots) (analyzeReferenced recur rs).
Proof. intros Hr. unfold analyzeReferenced. repeat keeps_step. Qed.

Lemma nominal_roots_analyze fuel a :
  keeps (on_symbols nominal_roots) (analyze P fuel a).
Proof.
  revert a. induction fuel as [| fuel IH]; intros a; simpl.
  { apply keeps_outOfFuel. }
  repeat keeps_step;
    auto using nominal_roots_notifyAnalyzed, nominal_roots_analyzeRoot.
  apply keeps_forEachDeclarationRecursive. intros _ rs.
  by apply nominal_roots_analyzeReferenced.
Qed.

(** Under the invariant, a finished [analyze] has raised the flag that
    the getter [analyzed] reads. *)
Lemma analyze_analyzed fuel a T T' :
  on_symbols nominal_roots T →
  analyze P fuel a T = (T', Ok tt) →
  symbol_analyzed (symbols T') a = Some true.
Proof.
  intros Hwf H.
  pose proof (keeps_run _ _ _ _ _ (nominal_roots_analyze fuel a) Hwf H) as Hwf'.
  destruct (analyze_analyze_done _ _ _ _ _ H) as [Ha | (s & Hs & Hn & Hf & _)];
    [done |].
  unfold symbol_analyzed. rewrite Hs, (Hwf' _ _ Hs Hn), Hs. by rewrite Hf.
Qed.
End AnalyzeInvariants.

(** ** The expansion of the references *)

Global Instance expansion_ok_preorder : PreOrder expansion_ok.
Proof.
  split.
  - intros T. split; [reflexivity |]. intros i s' Hs' Hf. left. eauto.
  - intros T1 T2 T3 [He12 Hr12] [He23 Hr23]. split; [by etrans |].
    intros i s3 Hs3 Hf3.
    destruct (Hr23 i s3 Hs3 Hf3) as [(s2 & Hs2 & Hf2) | [Himp | []]]; [| auto].
    destruct (Hr12 i s2 Hs2 Hf2) as [? | [Himp | []]]; [auto |].
    destruct (ext_symbols _ _ He23 _ _ Hs2) as (s3' & Hs3' & (_ & _ & Hi & _)).
    right. left. congruence.
Qed.

Lemma forEach_inv_keeps {A} (I : AstSymbolTable → Prop) (body : A → M unit)
    xs T T' u x :
  (∀ y, monotone (body y)) → (∀ y, keeps I (body y)) → I T →
  forEach xs body T = (T', Ok u) → x ∈ xs →
  ∃ T1 T2, I T1 ∧ extends T T1 ∧ body x T1 = (T2, Ok tt) ∧ extends T2 T'.
Proof.
  intros Hmono Hkeeps. revert T. induction xs as [| y xs IH]; intros T HT H Hx.
  { by apply elem_of_nil in Hx. }
  simpl in H. run H.
  match goal with
  | Hy : body y T = (?T1, Ok ?v) |- _ =>
      destruct v; pose proof (monotone_run _ _ _ _ (Hmono y) Hy) as Hext1;
      pose proof (keeps_run _ _ _ _ _ (Hkeeps y) HT Hy) as HT1
  end.
  apply elem_of_cons in Hx as [-> | Hx].
  - eexists T, _. split_and!; [done | reflexivity | done |].
    eapply (keeps_run (extends _)); [| reflexivity | exact H].
    apply keeps_forEach. intros z. apply monotone_keeps, Hmono.
  - destruct (IH _ HT1 H Hx) as (T1 & T2 & ? & ? & ? & ?).
    exists T1, T2. split_and!; try done. by etrans.
Qed.

Lemma forEach_chain {A} (I : AstSymbolTable → Prop) (G : relation AstSymbolTable)
    `{!PreOrder G} (body : A → M unit) xs :
  (∀ x T T' o, I T → body x T = (T', o) → I T' ∧ G T T') →
  ∀ T T' o, I T → forEach xs body T = (T', o) → I T' ∧ G T T'.
Proof.
  intros Hbody. induction xs as [| x xs IH]; intros T T' o HT H; simpl in H.
  - unfold ret in H. simplify_eq. by split.
  - unfold bind in H. destruct (body x T) as [T1 o1] eqn:Hx.
    destruct (Hbody _ _ _ _ HT Hx) as [HT1 HG1].
    destruct o1; simplify_eq; try by split.
    destruct (IH _ _ _ HT1 H) as [HT' HG']. split; [done | by etrans].
Qed.

Lemma declarationSubtree_complete fuel ds d l d' :
  declarationSubtree fuel ds d = Some l → subtree ds d d' → d' ∈ l.
Proof.
  revert d l. induction fuel as [| fuel IH]; intros d l H Hsub; simpl in H; [done |].
  destruct (ds !! d) as [x |] eqn:Hx; [| done].
  destruct (mapM (declarationSubtree fuel ds) (children x)) as [rest |] eqn:Hrest;
    simpl in H; [| done].
  injection H as <-.
  inversion Hsub as [| ? x' c ? Hx' Hc Hsub']; subst; [by left |].
  right. assert (x' = x) as -> by congruence.
  apply mapM_Some in Hrest.
  apply list_elem_of_lookup in Hc as [k Hk].
  destruct (Forall2_lookup_l _ _ _ _ _ Hrest Hk) as (lc & Hlc & Hsome).
  apply list_elem_of_In, in_concat. exists lc. split.
  - apply list_elem_of_In. by eapply list_elem_of_lookup_2.
  - apply list_elem_of_In. by eapply IH.
Qed.

Section Expansion.
Context (P : TsProgram).

Lemma forEachDeclarationRecursive_run fuel a action T T' u :
  forEachDeclarationRecursive fuel a action T = (T', Ok u) →
  ∃ rs trees,
    symbols T !! a = Some rs ∧
    mapM (declarationSubtree fuel (declarations T)) (astDeclarations rs) = Some trees ∧
    forEach (concat trees) (λ d,
      match declarations T !! d with
      | Some x => action d (referencedAstSymbols x)
      | None => dangling
      end) T = (T', Ok u).
Proof.
  unfold forEachDeclarationRecursive. intros H. run H. eauto.
Qed.

Lemma monotone_analyzeReferenced fuel refs :
  monotone (analyzeReferenced (analyze P fuel) refs).
Proof.
  apply keeps_monotone. intros T0. apply extends_analyzeReferenced.
  intros r. apply monotone_keeps, monotone_analyze.
Qed.

Lemma analyzeReferenced_step_monotone fuel r :
  monotone (bind (imported r) (λ isImported : bool,
              if negb isImported then analyze P fuel r else ret tt)).
Proof.
  apply keeps_monotone. intros T0. repeat keeps_step.
  apply monotone_keeps, monotone_analyze.
Qed.

Lemma analyzeReferenced_step_keeps fuel r :
  keeps (on_symbols nominal_roots)
    (bind (imported r) (λ isImported : bool,
       if negb isImported then analyze P fuel r else ret tt)).
Proof. repeat keeps_step. apply nominal_roots_analyze. Qed.

Lemma analyzeReferenced_analyzes fuel refs T T' u r :
  on_symbols nominal_roots T →
  analyzeReferenced (analyze P fuel) refs T = (T', Ok u) →
  r ∈ refs →
  symbol_imported (symbols T) r = Some false →
  symbol_analyzed (symbols T') r = Some true.
Proof.
  intros Hwf H Hr Himp. unfold analyzeReferenced in H.
  destruct (forEach_inv_keeps (on_symbols nominal_roots) _ _ _ _ _ r
              (analyzeReferenced_step_monotone fuel)
              (analyzeReferenced_step_keeps fuel) Hwf H Hr)
    as (T1 & T2 & Hwf1 & Hext1 & Hstep & Hext2).
  pose proof (extends_symbol_imported _ _ _ _ Hext1 Himp) as Himp1.
  cbv beta in Hstep. run Hstep; [| done].
  eapply extends_symbol_analyzed; [done |].
  by eapply analyze_analyzed.
Qed.

Lemma analyzeRoot_raises fuel root T T' o :
  analyzeRoot P fuel root T = (T', o) →
  raised_ok (λ i, i = root) T T' ∧ (∀ i s', symbols T' !! i = Some s' → i ≠ root →
    _analyzed s' = true → ∃ s0, symbols T !! i = Some s0 ∧ _analyzed s0 = true).
Proof.
  intros H.
  assert (∀ i s', symbols T' !! i = Some s' → i ≠ root →
    _analyzed s' = true → ∃ s0, symbols T !! i = Some s0 ∧ _analyzed s0 = true) as Hr.
  { unfold analyzeRoot in H. run H.
    all: match goal with
         | Hw : forEach _ _ ?T0 = (?T1, _) |- _ =>
             pose proof (keeps_run _ _ _ _ _
               (invariant_walk P (flags_from (symbols T0)) (inv_flags_from _) fuel _)
               (λ i s Hs Hf, ex_intro _ s (conj Hs Hf)) Hw) as Hflags
         | _ => idtac
         end.
    all: try (intros i s' Hs' _ Hf; eauto; fail).
    all: try (intros i s' Hs' _ Hf; exact (Hflags _ _ Hs' Hf)).
    all: match goal with
         | Hn : _notifyAnalyzed _ _ = _ |- _ =>
             destruct (notifyAnalyzed_run _ _ _ _ Hn) as [(s & Hs & _ & ->) | (_ & _ & ->)]
         end.
    all: intros i s' Hs' Hne Hf; simpl in Hs'.
    all: try rewrite list_lookup_alter_ne in Hs' by done.
    all: exact (Hflags _ _ Hs' Hf). }
  split; [| done]. intros i s' Hs' Hf.
  destruct (decide (i = root)) as [-> | Hne]; [auto |]. left. eauto.
Qed.

Lemma raised_ok_refl extra T : raised_ok extra T T.
Proof. intros i s' Hs' Hf. left. eauto. Qed.

Lemma not_imported_root T T' r i s' :
  symbol_imported (symbols T) r = Some false →
  extends T T' →
  own_root T r i → symbols T' !! i = Some s' → astImport s' = None.
Proof.
  unfold symbol_imported. intros Himp Hext (sa & Hsa & ->) Hs'.
  rewrite Hsa in Himp.
  destruct (symbols T !! rootAstSymbol sa) as [rs |] eqn:Hrs; [| done].
  destruct (ext_symbols _ _ Hext _ _ Hrs) as (rs' & Hrs' & (_ & _ & Hi & _)).
  assert (rs' = s') as -> by congruence. rewrite Hi.
  destruct (astImport rs); [| done].
  by injection Himp as Himp.
Qed.

Section Step.
Context (fuel : nat).
Context (IH : ∀ a T T' o, on_symbols nominal_roots T →
                analyze P fuel a T = (T', o) → raised_ok (own_root T a) T T').

Lemma analyzeReferenced_raises refs T T' o :
  on_symbols nominal_roots T →
  analyzeReferenced (analyze P fuel) refs T = (T', o) →
  on_symbols nominal_roots T' ∧ expansion_ok T T'.
Proof using IH.
  unfold analyzeReferenced. apply forEach_chain; [apply _ |].
  clear T T' o. intros r T T' o Hwf H.
  split.
  { eapply keeps_run; [apply analyzeReferenced_step_keeps | done | exact H]. }
  split.
  { eapply monotone_run; [apply analyzeReferenced_step_monotone | exact H]. }
  run H; try apply raised_ok_refl.
  pose proof (monotone_run _ _ _ _ (monotone_analyze P fuel r) H) as Hext.
  intros i s' Hs' Hf.
  destruct (IH _ _ _ _ Hwf H i s' Hs' Hf) as [? | [? | Hown]]; auto.
  right. left. eapply not_imported_root; eauto.
  by destruct b.
Qed.

Lemma expansion_raises root T T' o :
  on_symbols nominal_roots T →
  forEachDeclarationRecursive fuel root
    (λ _ refs, analyzeReferenced (analyze P fuel) refs) T = (T', o) →
  on_symbols nominal_roots T' ∧ expansion_ok T T'.
Proof using IH.
  unfold forEachDeclarationRecursive. intros Hwf H.
  run H; try (split; [done | reflexivity]).
  revert H. apply forEach_chain; [apply _ | | done].
  intros d Ta Tb ob HTa Hb.
  destruct (declarations T !! d) as [x |].
  - by eapply analyzeReferenced_raises.
  - unfold dangling in Hb. simplify_eq. split; [done | reflexivity].
Qed.
End Step.

Lemma raised_ok_compose extra T T1 T' :
  raised_ok extra T T1 → expansion_ok T1 T' → raised_ok extra T T'.
Proof.
  intros Hr1 [Hext Hr2] i s' Hs' Hf.
  destruct (Hr2 i s' Hs' Hf) as [(s1 & Hs1 & Hf1) | [? | []]]; [| auto].
  destruct (Hr1 i s1 Hs1 Hf1) as [? | [Himp | ?]]; auto.
  destruct (ext_symbols _ _ Hext _ _ Hs1) as (s2 & Hs2 & (_ & _ & Hi & _)).
  right. left. congruence.
Qed.

Lemma expansion_body_monotone fuel (ds : list AstDeclaration) (d : nat) :
  monotone (match ds !! d with
            | Some x => analyzeReferenced (analyze P fuel) (referencedAstSymbols x)
            | None => dangling
            end).
Proof.
  destruct (ds !! d); [apply monotone_analyzeReferenced |].
  by intros T.
Qed.

Lemma expansion_body_keeps fuel (ds : list AstDeclaration) (d : nat) :
  keeps (on_symbols nominal_roots)
        (match ds !! d with
         | Some x => analyzeReferenced (analyze P fuel) (referencedAstSymbols x)
         | None => dangling
         end).
Proof.
  destruct (ds !! d); [| apply keeps_dangling].
  apply nominal_roots_analyzeReferenced. intros r. apply nominal_roots_analyze.
Qed.

Lemma raised_imported T T' a s :
  symbols T !! a = Some s →
  raised_ok (own_root T a) T T' →
  ∀ r sr,
    symbols T' !! r = Some sr →
    symbol_imported (symbols T') r = Some true →
    symbol_analyzed (symbols T') r = Some true →
    (∃ root0, symbols T !! rootAstSymbol sr = Some root0 ∧ _analyzed root0 = true) ∨
    rootAstSymbol sr = rootAstSymbol s.
Proof.
  intros Hs Hraised r sr Hsr Himp Han.
  unfold symbol_imported, symbol_analyzed in *. rewrite Hsr in Himp, Han.
  destruct (symbols T' !! rootAstSymbol sr) as [root' |] eqn:Hroot'; [| done].
  injection Han as Han. injection Himp as Himp.
  destruct (Hraised _ _ Hroot' Han) as [? | [Hnone | (sa & Hsa & ->)]]; [by left | |].
  - rewrite Hnone in Himp. done.
  - right. congruence.
Qed.

Lemma analyze_raises fuel :
  ∀ a T T' o, on_symbols nominal_roots T →
    analyze P fuel a T = (T', o) → raised_ok (own_root T a) T T'.
Proof.
  induction fuel as [| fuel IH]; intros a T T' o Hwf H; simpl in H.
  { unfold outOfFuel in H. simplify_eq. apply raised_ok_refl. }
  run H; try apply raised_ok_refl.
  1: { (* nominal *)
    destruct (notifyAnalyzed_run _ _ _ _ H) as [(s & Hs & _ & ->) | (_ & _ & ->)];
      [| apply raised_ok_refl].
    intros i s' Hs' Hf. simpl in Hs'.
    destruct (decide (a = i)) as [<- | Hne].
    + right. right. exists s. split; [done |]. symmetry.
      apply (Hwf a s Hs). congruence.
    + rewrite list_lookup_alter_ne in Hs' by done. left. eauto. }
  all: match goal with
       | Hr : analyzeRoot _ _ _ _ = _ |- _ =>
           pose proof (keeps_run _ _ _ _ _ (nominal_roots_analyzeRoot P _ _) Hwf Hr)
             as Hwf1;
           destruct (analyzeRoot_raises _ _ _ _ _ Hr) as [Hraised _]
       end.
  all: assert (∀ i, i = rootAstSymbol a0 → own_root T a i) as Hown
         by (intros i ->; by exists a0).
  all: try (intros i s' Hs' Hf;
            destruct (Hraised i s' Hs' Hf) as [? | [? | ?]]; by auto).
  destruct (expansion_raises fuel IH _ _ _ _ Hwf1 H) as [_ Hexp].
  eapply raised_ok_compose; [| exact Hexp].
  intros i s' Hs' Hf. destruct (Hraised i s' Hs' Hf) as [? | [? | ?]]; auto.
Qed.

(** C8, amended.  Let [analyze] complete on a symbol that was not analyzed
    before and is not nominal; [T1] is the table after the walk over the
    declarations of its root.  If the symbol has no import, every symbol
    that [T1] records as referenced anywhere in the declaration subtree of
    the root, and that is not imported, is analyzed in the final table.  If
    the symbol has an import, the final table is [T1]: nothing is
    expanded.  In both cases an imported symbol that is analyzed in the
    final table was analyzed before the call or shares the root of the
    symbol under analysis: imported references are never analyzed. *)
Theorem analyze_expands_references fuel astSymbol s T T' :
  on_symbols nominal_roots T →
  symbols T !! astSymbol = Some s →
  symbol_analyzed (symbols T) astSymbol = Some false →
  nominal s = false →
  analyze P (S fuel) astSymbol T = (T', Ok tt) →
  ∃ T1,
    analyzeRoot P fuel (rootAstSymbol s) T = (T1, Ok tt) ∧
    (astImport s = None →
       ∀ root d0 d x r,
         symbols T1 !! rootAstSymbol s = Some root → d0 ∈ astDeclarations root →
         subtree (declarations T1) d0 d →
         declarations T1 !! d = Some x → r ∈ referencedAstSymbols x →
         symbol_imported (symbols T1) r = Some false →
         symbol_analyzed (symbols T') r = Some true) ∧
    (is_Some (astImport s) → T' = T1) ∧
    (∀ r sr,
       symbols T' !! r = Some sr →
       symbol_imported (symbols T') r = Some true →
       symbol_analyzed (symbols T') r = Some true →
       (∃ root0, symbols T !! rootAstSymbol sr = Some root0 ∧ _analyzed root0 = true) ∨
       rootAstSymbol sr = rootAstSymbol s).
Proof.
  intros Hwf Hs Hnot Hnom H.
  pose proof (analyze_raises _ _ _ _ _ Hwf H) as Hraised.
  simpl in H. run H.
  - (* the symbol carries an import *)
    match goal with
    | Hr : analyzeRoot _ _ _ _ = (_, Ok ?u) |- _ => destruct u; eexists; split; [done |]
    end.
    split_and!; [congruence | done |].
    by apply (raised_imported T T' astSymbol s).
  - (* no import: the references are expanded *)
    match goal with
    | Hr : analyzeRoot _ _ _ _ = (?T1, Ok ?u) |- _ =>
        destruct u; exists T1; split; [done |];
        pose proof (keeps_run _ _ _ _ _ (nominal_roots_analyzeRoot P _ _) Hwf Hr)
          as Hwf1
    end.
    split_and!; [| intros [? ?]; congruence
                | by apply (raised_imported T T' astSymbol s)].
    intros _ root d0 d x r Hroot Hd0 Hsub Hx Hr Himp.
    destruct (forEachDeclarationRecursive_run _ _ _ _ _ _ H)
      as (rs & trees & Hrs & Htrees & Hloop).
    assert (rs = root) as -> by congruence.
    assert (d ∈ concat trees) as Hd.
    { apply mapM_Some in Htrees.
      apply list_elem_of_lookup in Hd0 as [k Hk].
      destruct (Forall2_lookup_l _ _ _ _ _ Htrees Hk) as (l0 & Hl0 & Hsome).
      apply list_elem_of_In, in_concat. exists l0. split.
      - apply list_elem_of_In. by eapply list_elem_of_lookup_2.
      - apply list_elem_of_In. by eapply declarationSubtree_complete. }
    destruct (forEach_inv_keeps (on_symbols nominal_roots) _ _ _ _ _ d
                (expansion_body_monotone fuel _)
                (expansion_body_keeps fuel _) Hwf1 Hloop Hd)
      as (Ta & Tb & Hwfa & Hexta & Hbody & Hextb).
    cbv beta in Hbody. rewrite Hx in Hbody.
    eapply extends_symbol_analyzed; [exact Hextb |].
    eapply analyzeReferenced_analyzes; [exact Hwfa | exact Hbody | exact Hr |].
    by eapply extends_symbol_imported.
Qed.
End Expansion.

(** ** Module resolution is memoized *)

Section Growth.
Context (P : TsProgram).

(** X2: [fetchAstModuleBySourceFile] is memoized per source file.  Once a
    call has returned the module [r] for [sf], every later call for [sf],
    in any later state and with any module specifier, returns [r] and
    leaves the table as it is. *)
Theorem fetchAstModuleBySourceFile_memoized fuel fuel' sf spec spec' T T1 T1' r :
  fetchAstModuleBySourceFile P fuel sf spec T = (T1, Ok r) →
  extends T1 T1' →
  fetchAstModuleBySourceFile P (S fuel') sf spec' T1' = (T1', Ok r).
Proof.
  intros H Hext.
  apply fetchAstModuleBySourceFile_cached in H.
  pose proof (lookup_weaken _ _ _ _ H (ext_bySourceFile _ _ Hext)) as Hhit.
  simpl. unfold fetchAstModuleBySourceFile_body.
  unfold bind at 1. simpl. by rewrite Hhit.
Qed.

Lemma extends_populateLocalModule T0 fuel sf m :
  keeps (extends T0)
    (populateLocalModule P (fetchAstModuleBySourceFile P fuel) fuel sf m).
Proof.
  unfold populateLocalModule. repeat keeps_step.
  apply extends_collectLocalExport. intros. apply monotone_keeps.
  apply monotone_fetchAstModuleBySourceFile.
Qed.

Lemma extends_populateExternalModule T0 fuel sf spec m :
  keeps (extends T0)
    (populateExternalModule P fuel sf spec m).
Proof.
  unfold populateExternalModule. repeat keeps_step.
  - apply extends_modules_alter. intros x. by split_and!.
  - apply extends_collectExternalExport.
Qed.

(** X3: a module whose resolution throws stays registered.  The entry is
    filed in [_astModulesBySourceFile] before the exports are collected, so
    when the first call for [sf] throws, the next call for [sf] returns the
    half-built module without an error. *)
Theorem fetchAstModuleBySourceFile_failure_registered fuel fuel' sf spec spec' T T' e :
  _astModulesBySourceFile T !! sf = None →
  fetchAstModuleBySourceFile P fuel sf spec T = (T', Throw e) →
  _astModulesBySourceFile T' !! sf = Some (length (modules T)) ∧
  fetchAstModuleBySourceFile P (S fuel') sf spec' T' = (T', Ok (length (modules T))).
Proof.
  intros Hmiss H.
  assert (_astModulesBySourceFile T' !! sf = Some (length (modules T))) as Hreg.
  { destruct fuel as [| fuel]; simpl in H; [done |].
    unfold fetchAstModuleBySourceFile_body in H.
    unfold bind at 1 in H. simpl in H. rewrite Hmiss in H.
    unfold new_AstModule in H.
    rewrite bind_assoc in H. unfold bind at 1 in H. simpl in H.
    rewrite bind_assoc in H. unfold bind at 1 in H. simpl in H.
    unfold bind at 1 in H. simpl in H.
    unfold bind at 1 in H. simpl in H.
    match type of H with
    | context [bind ?m ?k ?T0] =>
        destruct (m T0) as [T2 o] eqn:Hpop;
        rewrite (bind_run m k T0 T2 o Hpop) in H;
        assert (extends T0 T2) as Hext
    end.
    { destruct spec as [spec |]; [destruct (negb _) |].
      - eapply keeps_run; [apply extends_populateExternalModule | reflexivity | done].
      - eapply keeps_run; [apply extends_populateLocalModule | reflexivity | done].
      - eapply keeps_run; [apply extends_populateLocalModule | reflexivity | done]. }
    destruct o; simplify_eq/=.
    eapply lookup_weaken; [| apply (ext_bySourceFile _ _ Hext)].
    simpl. apply lookup_insert_eq. }
  split; [done |].
  simpl. unfold fetchAstModuleBySourceFile_body.
  unfold bind at 1. simpl. by rewrite Hreg.
Qed.

End Growth.

(** ** Symbols that cannot be constructed *)

Section FetchFailures.
Context (P : TsProgram).

(** X4: on a symbol that passes the filters, is not cached and has no
    declaration ([declarations] undefined or empty), [_fetchAstSymbol]
    throws the internal error of a followed symbol without declarations,
    whatever [addIfMissing] and the import options are, and leaves the
    table untouched. *)
Theorem fetchAstSymbol_no_declarations fuel s a o T :
  Z.land (sym_flags P s) filteredFlags = 0%Z →
  isAmbient P s = false →
  _astSymbolsBySymbol T !! s = None →
  sym_declarations P s = None ∨ sym_declarations P s = Some [] →
  _fetchAstSymbol P (S fuel) s a o T
  = (T, Throw InternalError_FollowedSymbolWithNoDeclarations).
Proof.
  intros Hflags Hamb Hmiss Hdecls. simpl. rewrite Hflags, Hamb. simpl.
  unfold bind at 1. simpl. rewrite Hmiss.
  by destruct Hdecls as [-> | ->].
Qed.

Lemma requireAstDeclarations_throws s pre d post T :
  Forall (λ x, isAstDeclaration P (node_kind P x) = true) pre →
  isAstDeclaration P (node_kind P d) = false →
  requireAstDeclarations P s (pre ++ d :: post) T
  = (T, Throw (InternalError_UnimplementedLanguageFeature (sym_name P s) (node_kind P d))).
Proof.
  intros Hpre Hd. unfold requireAstDeclarations.
  induction Hpre as [| x pre Hx _ IH]; simpl.
  - by rewrite Hd.
  - rewrite Hx. unfold bind at 1. simpl. apply IH.
Qed.

(** X5: when a symbol about to be constructed, not nominal, has a
    declaration whose kind [isAstDeclaration] rejects, [_fetchAstSymbol]
    throws the internal error of an unimplemented language feature, naming
    the symbol and the kind of the first such declaration, before anything
    is written to the table. *)
Theorem fetchAstSymbol_unimplemented_construct fuel s a o T d0 ds pre d post :
  Z.land (sym_flags P s) filteredFlags = 0%Z →
  isAmbient P s = false →
  _astSymbolsBySymbol T !! s = None →
  sym_declarations P s = Some (d0 :: ds) →
  ¬ (ds = [] ∧ node_kind P d0 = SourceFile) →
  match o with
  | Some opts =>
      _astSymbolsByImportKey T !! key (new_AstImport opts) = None ∧
      isAedocSupportedFor P (sourceFile_fileName P (node_getSourceFile P d0)) = true
  | None => True
  end →
  d0 :: ds = pre ++ d :: post →
  Forall (λ x, isAstDeclaration P (node_kind P x) = true) pre →
  isAstDeclaration P (node_kind P d) = false →
  _fetchAstSymbol P (S fuel) s a o T
  = (T, Throw (InternalError_UnimplementedLanguageFeature
                 (sym_name P s) (node_kind P d))).
Proof.
  intros Hflags Hamb Hmiss Hdecls Hsf Ho Hsplit Hpre Hd.
  simpl. rewrite Hflags, Hamb. simpl.
  unfold bind at 1. simpl. rewrite Hmiss, Hdecls.
  assert (bool_decide (ds = []) && bool_decide (node_kind P d0 = SourceFile) = false)
    as Hnom.
  { apply andb_false_iff.
    destruct (decide (ds = [])) as [-> | Hne].
    - right. apply bool_decide_eq_false_2. intros Hk. by apply Hsf.
    - left. by apply bool_decide_eq_false_2. }
  destruct o as [opts |]; simpl.
  - destruct Ho as [Hkey Haedoc].
    unfold bind at 1. unfold bind at 1. unfold bind at 1. simpl.
    rewrite Hkey. simpl.
    rewrite Hnom, Haedoc. simpl.
    rewrite Hsplit.
    unfold bind at 1. unfold bind at 1. unfold bind at 1.
    by rewrite (requireAstDeclarations_throws s pre d post T Hpre Hd).
  - unfold bind at 1. unfold bind at 1. simpl. rewrite Hnom. simpl.
    rewrite Hsplit.
    unfold bind at 1. unfold bind at 1. unfold bind at 1.
    by rewrite (requireAstDeclarations_throws s pre d post T Hpre Hd).
Qed.

End FetchFailures.

(** ** Properties of every state of a run *)

(** A property that the primitive steps keep ([_fetchAstSymbol], the two
    notifications, an update of a module that leaves its source file, and
    the registration of a new module) holds in every state of a run. *)
Section Preserved.
Context (P : TsProgram) (I : AstSymbolTable → Prop).
Context (Hfetch : ∀ fuel s a o, keeps I (_fetchAstSymbol P fuel s a o)).
Context (Href : ∀ d r, keeps I (_notifyReferencedAstSymbol d r)).
Context (Hana : ∀ r, keeps I (_notifyAnalyzed r)).
Context (Hmod : ∀ f i, (∀ x, sourceFile (f x) = sourceFile x) →
                  keeps I (modify (with_modules (alter f i)))).
Context (Hreg : ∀ sf A (k : nat → M A), (∀ m, keeps I (k m)) →
                  keeps I (bind (new_AstModule sf) (λ m,
                    bind (modify (with_bySourceFile (<[sf := m]>))) (λ _, k m)))).

Hint Resolve Hfetch Href Hana : keeps.

Lemma preserved_analyzeChildTree fuel node g :
  keeps I (_analyzeChildTree P fuel node g).
Proof using Hfetch Href.
  revert node g. induction fuel as [| fuel IH]; intros node g; simpl.
  { apply keeps_outOfFuel. }
  unfold recordReference, _fetchAstDeclaration, _fetchAstSymbolForNode.
  repeat keeps_step; try apply IH.
Qed.

Lemma preserved_analyze fuel a : keeps I (analyze P fuel a).
Proof using Hfetch Href Hana.
  revert a. induction fuel as [| fuel IH]; intros a; simpl.
  { apply keeps_outOfFuel. }
  unfold analyzeRoot.
  repeat keeps_step; try apply preserved_analyzeChildTree.
  apply keeps_forEachDeclarationRecursive. intros _ rs.
  unfold analyzeReferenced. repeat keeps_step.
Qed.

Lemma preserved_exportedSymbols_set m name a : keeps I (exportedSymbols_set m name a).
Proof using Hmod. unfold exportedSymbols_set. repeat keeps_step; try by apply Hmod. Qed.

Lemma preserved_starExportedModules_add m t : keeps I (starExportedModules_add m t).
Proof using Hmod. unfold starExportedModules_add. repeat keeps_step; try by apply Hmod. Qed.

Hint Resolve preserved_exportedSymbols_set preserved_starExportedModules_add : keeps.

Section Open.
Context (recur : nat → option string → M nat).
Context (Hrecur : ∀ sf spec, keeps I (recur sf spec)).

Lemma preserved_fetchSpecifierAstModule d :
  keeps I (_fetchSpecifierAstModule P recur d).
Proof using Hrecur. unfold _fetchSpecifierAstModule. repeat keeps_step. Qed.
Hint Resolve preserved_fetchSpecifierAstModule : keeps.

Lemma preserved_forCurrentDeclarations fuel m e decls :
  keeps I (forCurrentDeclarations P recur fuel m e decls).
Proof using Hrecur Hmod.
  induction decls as [| d decls IH]; simpl; repeat keeps_step.
Qed.

Lemma preserved_whileTrue steps fuel m e c :
  keeps I (whileTrue P recur steps fuel m e c).
Proof using Hrecur Hmod Hfetch.
  revert c. induction steps as [| steps IH]; intros c; simpl;
    unfold collectNormalDeclaration; repeat keeps_step;
    auto using preserved_forCurrentDeclarations.
Qed.

Lemma preserved_collectLocalExport fuel m e :
  keeps I (collectLocalExport P recur fuel m e).
Proof using Hrecur Hmod Hfetch.
  unfold collectLocalExport, _collectExportForAstModule, _collectExportsFromExportStar.
  repeat keeps_step; auto using preserved_whileTrue.
Qed.
End Open.

Lemma preserved_collectExternalExport fuel m e :
  keeps I (collectExternalExport P fuel m e).
Proof using Hmod Hfetch. unfold collectExternalExport. repeat keeps_step. Qed.

Lemma preserved_fetchAstModuleBySourceFile fuel sf spec :
  keeps I (fetchAstModuleBySourceFile P fuel sf spec).
Proof using Hfetch Hmod Hreg.
  revert sf spec. induction fuel as [| fuel IH]; intros sf spec; simpl.
  { apply keeps_outOfFuel. }
  unfold fetchAstModuleBySourceFile_body.
  apply keeps_bind_gets. intros T HT.
  destruct (_astModulesBySourceFile T !! sf); [apply keeps_ret |].
  apply Hreg. intros m.
  unfold populateExternalModule, populateLocalModule.
  repeat keeps_step;
    try (by apply Hmod);
    try apply preserved_collectExternalExport;
    try (apply preserved_collectLocalExport; intros; apply IH).
Qed.

Lemma preserved_reachable T : I new_AstSymbolTable → reachable P T → I T.
Proof using Hfetch Href Hana Hmod Hreg.
  intros Hnew. induction 1 as [| fuel sf spec T _ IH | fuel a T _ IH | fuel s T _ IH].
  - done.
  - by apply preserved_fetchAstModuleBySourceFile.
  - by apply preserved_analyze.
  - by apply Hfetch.
Qed.
End Preserved.

Section Filters.
Context (P : TsProgram).

Lemma keys_pass_filters_frame f :
  (∀ T, _astSymbolsBySymbol (f T) = _astSymbolsBySymbol T) →
  keeps (keys_pass_filters P) (modify f).
Proof.
  intros Hf. apply keeps_modify. intros T HT s r. rewrite Hf. apply HT.
Qed.

Lemma keys_pass_filters_insert s r :
  Z.land (sym_flags P s) filteredFlags = 0%Z → isAmbient P s = false →
  keeps (keys_pass_filters P) (modify (with_bySymbol (<[s := r]>))).
Proof.
  intros Hf Ha. apply keeps_modify. intros T HT s' r'. simpl.
  destruct (decide (s = s')) as [<- | Hne].
  - done.
  - rewrite lookup_insert_ne by done. apply HT.
Qed.

Lemma keys_pass_filters_createDeclarations fuel decls a p :
  keeps (keys_pass_filters P) (createDeclarations P fuel decls a p).
Proof.
  unfold createDeclarations, createDeclaration, new_AstDeclaration.
  repeat keeps_step; try (by apply keys_pass_filters_frame).
  all: apply keeps_tryFindFirstAstDeclarationParent.
Qed.

Lemma keys_pass_filters_fetchAstSymbol fuel s a o :
  keeps (keys_pass_filters P) (_fetchAstSymbol P fuel s a o).
Proof.
  revert s a o. induction fuel as [| fuel IH]; intros s a o; simpl.
  { apply keeps_outOfFuel. }
  unfold new_AstSymbol.
  repeat keeps_step;
    try apply IH;
    try apply keys_pass_filters_createDeclarations;
    try apply keeps_requireAstDeclarations;
    try apply keeps_tryFindFirstAstDeclarationParent;
    try (by apply keys_pass_filters_frame).
  all: apply keys_pass_filters_insert; [by apply Z.eqb_eq, negb_false_iff | done].
Qed.

(** X6: in every state of a run, a symbol that is a key of
    [_astSymbolsBySymbol] passes both filters of [_fetchAstSymbol]: it is
    no type parameter, type literal or transient symbol, and it is not
    ambient. *)
Theorem filtered_symbols_have_no_node T s r :
  reachable P T → _astSymbolsBySymbol T !! s = Some r →
  Z.land (sym_flags P s) filteredFlags = 0%Z ∧ isAmbient P s = false.
Proof.
  intros Hreach. revert s r.
  apply (preserved_reachable P (keys_pass_filters P)); try done.
  - apply keys_pass_filters_fetchAstSymbol.
  - intros. unfold _notifyReferencedAstSymbol. repeat keeps_step.
    by apply keys_pass_filters_frame.
  - intros. unfold _notifyAnalyzed. repeat keeps_step.
    by apply keys_pass_filters_frame.
  - intros. by apply keys_pass_filters_frame.
  - intros sf A k Hk. unfold new_AstModule. repeat keeps_step;
      try (by apply keys_pass_filters_frame); try apply Hk.
Qed.
End Filters.

(** ** The tree of declarations *)

Lemma declarations_consistent_frame f :
  (∀ T, declarations (f T) = declarations T) →
  (∀ T, _astDeclarationsByDeclaration (f T) = _astDeclarationsByDeclaration T) →
  keeps declarations_consistent (modify f).
Proof.
  intros Hd Hc. apply keeps_modify. intros T (H1 & H2 & H3).
  unfold declarations_consistent. rewrite Hd, Hc. done.
Qed.

Lemma declarations_consistent_alter f i :
  (∀ x, declaration (f x) = declaration x ∧ parent (f x) = parent x ∧
        children (f x) = children x) →
  keeps declarations_consistent (modify (with_declarations (alter f i))).
Proof.
  intros Hf. apply keeps_modify. intros T (H1 & H2 & H3).
  assert (∀ j x', alter f i (declarations T) !! j = Some x' →
            ∃ x, declarations T !! j = Some x ∧ declaration x' = declaration x ∧
                 parent x' = parent x ∧ children x' = children x) as Hback.
  { intros j x' Hx'. destruct (decide (i = j)) as [-> | Hne].
    - rewrite list_lookup_alter_eq in Hx'.
      destruct (declarations T !! j) as [x |]; simplify_eq/=.
      exists x. destruct (Hf x) as (-> & -> & ->). done.
    - rewrite list_lookup_alter_ne in Hx' by done. eauto. }
  assert (∀ j x, declarations T !! j = Some x →
            ∃ x', alter f i (declarations T) !! j = Some x' ∧
                  declaration x' = declaration x ∧
                  parent x' = parent x ∧ children x' = children x) as Hfwd.
  { intros j x Hx. destruct (list_lookup_alter_Some f _ _ i _ Hx) as (x' & Hx' & [-> | ->]).
    - eauto.
    - exists (f x). destruct (Hf x) as (-> & -> & ->). done. }
  split_and!; simpl.
  - intros n d Hn. destruct (H1 n d Hn) as (x & Hx & Hdx).
    destruct (Hfwd _ _ Hx) as (x' & Hx' & Hd' & _). exists x'. split; congruence.
  - intros d x' p Hx' Hp. destruct (Hback _ _ Hx') as (x & Hx & _ & Hpar & _).
    destruct (H2 d x p Hx ltac:(congruence)) as (px & Hpx & Hin).
    destruct (Hfwd _ _ Hpx) as (px' & Hpx' & _ & _ & Hch). exists px'. split; [done |].
    by rewrite Hch.
  - intros p px' d Hpx' Hin. destruct (Hback _ _ Hpx') as (px & Hpx & _ & _ & Hch).
    rewrite Hch in Hin. destruct (H3 p px d Hpx Hin) as (x & Hx & Hpar).
    destruct (Hfwd _ _ Hx) as (x' & Hx' & _ & Hpar' & _). exists x'. split; congruence.
Qed.

Section DeclarationTree.
Context (P : TsProgram).

(** How [createDeclaration] ends: it fails before anything is written, or
    it allocates one declaration node and wires it. *)
Lemma createDeclaration_cases fuel r p y T T' o :
  createDeclaration P fuel r p y T = (T', o) →
  (T' = T ∧ o ≠ Ok tt) ∨
  ∃ pad,
    o = Ok tt ∧
    match pad with
    | Some q => ∃ pd, _astDeclarationsByDeclaration T !! pd = Some q
    | None => True
    end ∧
    T' = with_byDeclaration (<[y := length (declarations T)]>)
           (match pad with
            | Some q => with_declarations
                          (alter (λ d, set_children (children d ++ [length (declarations T)]) d) q)
            | None => id
            end
              (with_symbols
                 (alter (λ s, set_astDeclarations
                                (astDeclarations s ++ [length (declarations T)]) s) r)
                 (with_declarations
                    (λ ds, ds ++ [ {| declaration := y; astSymbol := r; parent := pad;
                                      children := []; referencedAstSymbols := [] |} ])
                    T))).
Proof.
  unfold createDeclaration, new_AstDeclaration. intros H.
  destruct p as [q |].
  - run H.
    all: match goal with
         | Hw : _tryFindFirstAstDeclarationParent _ _ _ _ = _ |- _ =>
             pose proof (keeps_run (eq T) _ _ _ _
               (keeps_tryFindFirstAstDeclarationParent P _ _ _) eq_refl Hw) as ->
         end.
    all: simplify_eq/=; try (left; split; [done | discriminate]).
    right. eexists (Some _). split_and!; [done | eauto | done].
  - run H. right. exists None. done.
Qed.

Lemma lookup_snoc {A} (l : list A) (new x : A) j :
  (l ++ [new]) !! j = Some x ↔ l !! j = Some x ∨ (j = length l ∧ x = new).
Proof.
  rewrite lookup_app_Some. split; intros [? | [? Hx]]; auto; right.
  - apply list_lookup_singleton_Some in Hx as [? ->]. split; [lia | done].
  - subst. split; [lia |]. by rewrite Nat.sub_diag.
Qed.

Lemma declarations_consistent_createDeclaration fuel r p y :
  keeps declarations_consistent (createDeclaration P fuel r p y).
Proof.
  intros T HT.
  destruct (createDeclaration P fuel r p y T) as [T' o] eqn:H. simpl.
  apply createDeclaration_cases in H as [[-> _] | (pad & -> & Hpad & ->)]; [done |].
  destruct HT as (H1 & H2 & H3).
  set (n := length (declarations T)).
  set (new := {| declaration := y; astSymbol := r; parent := pad;
                 children := []; referencedAstSymbols := [] |}).
  destruct pad as [q |].
  - destruct Hpad as [pd Hpd].
    destruct (H1 _ _ Hpd) as (xq & Hxq & _).
    assert (q < n) as Hq by (by eapply lookup_lt_Some).
    set (g := λ d, set_children (children d ++ [n]) d).
    assert (∀ j, alter g q (declarations T ++ [new]) !! j
                 = if decide (j = q) then Some (g xq)
                   else (declarations T ++ [new]) !! j) as Hlook.
    { intros j. destruct (decide (j = q)) as [-> | Hne].
      - rewrite list_lookup_alter_eq. by rewrite lookup_app_l, Hxq by done.
      - by rewrite list_lookup_alter_ne. }
    split_and!; simpl.
    + intros k d Hk. rewrite Hlook.
      destruct (decide (k = y)) as [-> | Hne].
      * rewrite lookup_insert_eq in Hk. injection Hk as <-.
        rewrite decide_False by (unfold n in Hq; lia).
        exists new. split; [| done]. apply lookup_snoc. by right.
      * rewrite lookup_insert_ne in Hk by done.
        destruct (H1 _ _ Hk) as (x & Hx & Hdx).
        destruct (decide (d = q)) as [-> | Hdq].
        -- exists (g xq). split; [done |]. simpl. congruence.
        -- exists x. split; [| done]. apply lookup_snoc. by left.
    + intros d x' p'. rewrite Hlook. intros Hx' Hp'.
      assert (∀ px, declarations T !! p' = Some px → d ∈ children px →
                ∃ px', alter g q (declarations T ++ [new]) !! p' = Some px' ∧
                       d ∈ children px') as Hold.
      { intros px Hpx Hin. rewrite Hlook.
        destruct (decide (p' = q)) as [-> | Hpq].
        - exists (g xq). split; [done |]. simpl.
          rewrite Hxq in Hpx. injection Hpx as <-.
          apply elem_of_app. by left.
        - exists px. split; [| done]. apply lookup_snoc. by left. }
      destruct (decide (d = q)) as [-> | Hdq].
      * injection Hx' as <-. simpl in Hp'.
        destruct (H2 _ _ _ Hxq Hp') as (px & Hpx & Hin). eauto.
      * apply lookup_snoc in Hx' as [Hx' | [-> ->]].
        -- destruct (H2 _ _ _ Hx' Hp') as (px & Hpx & Hin). eauto.
        -- simpl in Hp'. injection Hp' as <-. rewrite Hlook, decide_True by done.
           exists (g xq). split; [done |]. simpl. apply elem_of_app. right.
           by apply list_elem_of_singleton.
    + intros p' px' d. rewrite Hlook. intros Hpx' Hin.
      assert (∀ x, declarations T !! d = Some x → parent x = Some p' →
                ∃ x', alter g q (declarations T ++ [new]) !! d = Some x' ∧
                      parent x' = Some p') as Hold.
      { intros x Hx Hpar. rewrite Hlook.
        destruct (decide (d = q)) as [-> | Hdq].
        - exists (g xq). split; [done |]. simpl. congruence.
        - exists x. split; [| done]. apply lookup_snoc. by left. }
      destruct (decide (p' = q)) as [-> | Hpq].
      * injection Hpx' as <-. simpl in Hin.
        apply elem_of_app in Hin as [Hin | Hin].
        -- destruct (H3 _ _ _ Hxq Hin) as (x & Hx & Hpar). eauto.
        -- apply list_elem_of_singleton in Hin as ->.
           rewrite Hlook, decide_False by (unfold n in Hq; lia).
           exists new. split; [| done]. apply lookup_snoc. by right.
      * apply lookup_snoc in Hpx' as [Hpx' | [-> ->]].
        -- destruct (H3 _ _ _ Hpx' Hin) as (x & Hx & Hpar). eauto.
        -- simpl in Hin. by apply elem_of_nil in Hin.
  - split_and!; simpl.
    + intros k d Hk.
      destruct (decide (k = y)) as [-> | Hne].
      * rewrite lookup_insert_eq in Hk. injection Hk as <-.
        exists new. split; [| done]. apply lookup_snoc. by right.
      * rewrite lookup_insert_ne in Hk by done.
        destruct (H1 _ _ Hk) as (x & Hx & Hdx).
        exists x. split; [| done]. apply lookup_snoc. by left.
    + intros d x' p' Hx' Hp'.
      apply lookup_snoc in Hx' as [Hx' | [-> ->]]; [| done].
      destruct (H2 _ _ _ Hx' Hp') as (px & Hpx & Hin).
      exists px. split; [| done]. apply lookup_snoc. by left.
    + intros p' px' d Hpx' Hin.
      apply lookup_snoc in Hpx' as [Hpx' | [-> ->]].
      * destruct (H3 _ _ _ Hpx' Hin) as (x & Hx & Hpar).
        exists x. split; [| done]. apply lookup_snoc. by left.
      * simpl in Hin. by apply elem_of_nil in Hin.
Qed.

Lemma declarations_consistent_fetchAstSymbol fuel s a o :
  keeps declarations_consistent (_fetchAstSymbol P fuel s a o).
Proof.
  revert s a o. induction fuel as [| fuel IH]; intros s a o; simpl.
  { apply keeps_outOfFuel. }
  unfold new_AstSymbol, createDeclarations.
  repeat keeps_step;
    try apply IH;
    try apply declarations_consistent_createDeclaration;
    try apply keeps_requireAstDeclarations;
    try apply keeps_tryFindFirstAstDeclarationParent;
    try (by apply declarations_consistent_frame).
Qed.

Lemma declarations_consistent_reachable T :
  reachable P T → declarations_consistent T.
Proof.
  apply (preserved_reachable P declarations_consistent).
  - apply declarations_consistent_fetchAstSymbol.
  - intros. unfold _notifyReferencedAstSymbol. repeat keeps_step.
    by apply declarations_consistent_alter.
  - intros. unfold _notifyAnalyzed. repeat keeps_step.
    by apply declarations_consistent_frame.
  - intros. by apply declarations_consistent_frame.
  - intros sf A k Hk. unfold new_AstModule. repeat keeps_step;
      try (by apply declarations_consistent_frame); try apply Hk.
  - split_and!; simpl; intros *; by rewrite ?lookup_empty, ?lookup_nil.
Qed.

End DeclarationTree.

(** ** Parents, children and the analyzed flag *)

Section ChildLookup.
Context (P : TsProgram).

Lemma whileCurrentNode_nearest k : ∀ fuel c T,
  k < fuel →
  (∀ j, j < k → ∃ q, ancestor P j c = Some q ∧
                     isAstDeclaration P (node_kind P q) = false) →
  (ancestor P k c = None ∨
   ∃ p, ancestor P k c = Some p ∧ isAstDeclaration P (node_kind P p) = true) →
  whileCurrentNode P fuel (Some c) T = (T, Ok (ancestor P k c)).
Proof.
  induction k as [| k IH]; intros fuel c T Hfuel Hbelow Hend.
  - destruct fuel as [| fuel]; [lia |]. simpl in *.
    destruct Hend as [Hend | (p & Hend & Hp)]; [done |].
    injection Hend as <-. by rewrite Hp.
  - destruct fuel as [| fuel]; [lia |].
    destruct (Hbelow 0 ltac:(lia)) as (q & Hq0 & Hq). injection Hq0 as <-.
    cbn [whileCurrentNode ancestor]. rewrite Hq.
    cbn [ancestor] in Hend.
    destruct (node_parent P c) as [c' |] eqn:Hc'; simpl in *.
    + apply IH; [lia | | done].
      intros j Hj. destruct (Hbelow (S j) ltac:(lia)) as (q & Hq' & Hk).
      simpl in Hq'. rewrite Hc' in Hq'. eauto.
    + destruct fuel as [| fuel]; [lia | done].
Qed.

(** X7: [_tryFindFirstAstDeclarationParent] returns the nearest proper
    ancestor whose kind [isAstDeclaration] accepts.  When the first [k]
    ancestors of [node] are no declarations and the next one is, or is
    missing, the call returns that ancestor, or nothing, and leaves the
    table untouched. *)
Theorem tryFindFirstAstDeclarationParent_nearest fuel node k T :
  k < fuel →
  (∀ j, j < k → ∃ q, ancestor P (S j) node = Some q ∧
                     isAstDeclaration P (node_kind P q) = false) →
  (ancestor P (S k) node = None ∨
   ∃ p, ancestor P (S k) node = Some p ∧
        isAstDeclaration P (node_kind P p) = true) →
  _tryFindFirstAstDeclarationParent P fuel node T = (T, Ok (ancestor P (S k) node)).
Proof.
  intros Hfuel Hbelow Hend. unfold _tryFindFirstAstDeclarationParent.
  cbn [ancestor] in *.
  destruct (node_parent P node) as [c |] eqn:Hc; simpl in *.
  - by apply whileCurrentNode_nearest.
  - destruct fuel as [| fuel]; [lia | done].
Qed.

(** X8: in a state of a run, a declaration that
    [getChildAstDeclarationByNode] returns is the cached declaration of
    [node], has [parentAstDeclaration] as its parent, is among the children
    of that parent, and the symbol of the parent is analyzed. *)
Theorem getChildAstDeclarationByNode_found node parentAstDeclaration T c :
  reachable P T →
  getChildAstDeclarationByNode node parentAstDeclaration T = inr c →
  ∃ cd pd,
    declarations T !! c = Some cd ∧
    declarations T !! parentAstDeclaration = Some pd ∧
    _astDeclarationsByDeclaration T !! node = Some c ∧
    declaration cd = node ∧
    parent cd = Some parentAstDeclaration ∧
    c ∈ children pd ∧
    symbol_analyzed (symbols T) (astSymbol pd) = Some true.
Proof.
  intros Hreach H. apply declarations_consistent_reachable in Hreach as (H1 & H2 & H3).
  unfold getChildAstDeclarationByNode in H.
  destruct (declarations T !! parentAstDeclaration) as [pd |] eqn:Hpd; [| done].
  destruct (symbol_analyzed _ _) as [[] |] eqn:Han; try done.
  destruct (_astDeclarationsByDeclaration T !! node) as [c' |] eqn:Hc; [| done].
  destruct (declarations T !! c') as [cd |] eqn:Hcd; [| done].
  case_bool_decide as Hpar; [| done]. injection H as <-.
  destruct (H1 _ _ Hc) as (x & Hx & Hdx).
  destruct (H2 _ _ _ Hcd Hpar) as (px & Hpx & Hin).
  exists cd, pd. split_and!; try done; congruence.
Qed.

Lemma nominal_roots_reachable T : reachable P T → on_symbols nominal_roots T.
Proof.
  apply (preserved_reachable P (on_symbols nominal_roots)).
  - apply invariant_fetchAstSymbol. constructor.
  - apply invariant_notifyReferencedAstSymbol.
  - apply nominal_roots_notifyAnalyzed.
  - intros. apply keeps_on_symbols_modules.
  - intros sf A k Hk. unfold new_AstModule. repeat keeps_step; try apply Hk.
  - intros i s Hs. done.
Qed.

(** X9: in a state of a run, the symbol on which [analyze] returns
    normally is analyzed afterwards, whether it has a parent, is nominal or
    was analyzed before. *)
Theorem analyze_ensures_analyzed fuel a T T' :
  reachable P T →
  analyze P fuel a T = (T', Ok tt) →
  symbol_analyzed (symbols T') a = Some true.
Proof.
  intros Hreach. apply analyze_analyzed. by apply nominal_roots_reachable.
Qed.

End ChildLookup.

(** ** What the lookup of an export returns *)

Section Lookup.
Context (T : AstSymbolTable) (exportName : string).

Lemma probed_trans v1 v2 v3 :
  probed T exportName v1 v2 → probed T exportName v2 v3 → probed T exportName v1 v3.
Proof.
  intros [H12 P12] [H23 P23]. split; [set_solver |].
  intros x Hx3 Hx1. destruct (decide (x ∈ v2)) as [Hx2 | Hx2].
  - destruct (P12 x Hx2 Hx1) as (md & Hmd & Hnone & Hsucc).
    exists md. split_and!; [done | done |]. intros y Hy. apply H23. by apply Hsucc.
  - by apply P23.
Qed.

Lemma tryStarExportedModules_spec recur stars :
  (∀ j v, j ∈ stars → lookup_spec T exportName j v (recur j v T)) →
  ∀ v,
    let res := tryStarExportedModules recur stars v T in
    res.1 = T ∧
    match res.2 with
    | Ok (Some a, _) =>
        ∃ j m' md', j ∈ stars ∧ starReachable T j m' ∧ modules T !! m' = Some md' ∧
                    exportedSymbols md' !! exportName = Some a
    | Ok (None, v') => (∀ j, j ∈ stars → j ∈ v') ∧ probed T exportName v v'
    | Throw _ => False
    | OutOfFuel | Dangling => True
    end.
Proof.
  induction stars as [| j stars IH]; intros Hrec v; simpl.
  - split; [done |]. split; [set_solver |]. split; [done |]. set_solver.
  - destruct (Hrec j v ltac:(set_solver)) as [HT Hj].
    unfold bind. destruct (recur j v T) as [T1 [[[a |] v1] | e | |]]; simpl in *; subst;
      try done.
    + split; [done |]. destruct Hj as (m' & md' & ? & ? & ?).
      exists j, m', md'. split_and!; try done. set_solver.
    + destruct (IH ltac:(intros; apply Hrec; set_solver) v1) as [HT Hrest].
      split; [done |].
      destruct (tryStarExportedModules recur stars v1 T) as [T2 [[[a |] v2] | e | |]];
        simpl in *; try done.
      * destruct Hrest as (j' & m' & md' & ? & ? & ? & ?).
        exists j', m', md'. split_and!; try done. set_solver.
      * destruct Hj as [Hjv1 Hp1]. destruct Hrest as [Hall Hp2].
        split; [| by eapply probed_trans].
        intros j' Hj'. apply elem_of_cons in Hj' as [-> | Hj']; [| by apply Hall].
        destruct Hp2 as [Hsub _]. set_solver.
Qed.

Lemma tryGetExportOfAstModule_spec fuel :
  ∀ m v, lookup_spec T exportName m v (_tryGetExportOfAstModule fuel exportName m v T).
Proof.
  induction fuel as [| fuel IH]; intros m v; simpl.
  { done. }
  case_bool_decide as Hvis; simpl.
  { split; [done |]. split; [done |]. split; [done |]. set_solver. }
  unfold bind at 1. unfold getModule. unfold bind at 1. simpl.
  destruct (modules T !! m) as [md |] eqn:Hmd; simpl; [| done].
  destruct (exportedSymbols md !! exportName) as [a |] eqn:Ha; simpl.
  { split; [done |]. exists m, md. split_and!; try done. constructor. }
  destruct (tryStarExportedModules_spec (_tryGetExportOfAstModule fuel exportName)
              (starExportedModules md) ltac:(intros; apply IH) ({[m]} ∪ v))
    as [HT Hstars].
  split; [done |].
  destruct (tryStarExportedModules _ _ _ T) as [T2 [[[a |] v2] | e | |]];
    simpl in *; try done.
  - destruct Hstars as (j & m' & md' & Hj & Hreach & Hmd' & Ha').
    exists m', md'. split_and!; try done. by eapply starReachable_step.
  - destruct Hstars as [Hall [Hsub Hp]]. split; [set_solver |]. split; [set_solver |].
    intros x Hx Hxv. destruct (decide (x = m)) as [-> | Hne].
    + exists md. split_and!; done.
    + apply Hp; [done | set_solver].
Qed.
End Lookup.

(** The set of a finished top-level probe holds every module that is
    reachable from the start. *)
Lemma probed_closed T exportName v' m m' :
  probed T exportName ∅ v' → m ∈ v' → starReachable T m m' → m' ∈ v'.
Proof.
  intros [_ Hp] Hm Hreach. induction Hreach as [| m md m' m'' Hmd Hin _ IH]; [done |].
  apply IH. destruct (Hp m Hm ltac:(set_solver)) as (md0 & Hmd0 & _ & Hsucc).
  apply Hsucc. congruence.
Qed.

(** X10: [_getExportOfAstModule] never writes to the table.  A symbol it
    returns is exported under [exportName] by the module itself or by a
    module reached from it through wildcard re-exports.  It throws nothing
    but the internal error of an export that cannot be analyzed, and then
    no module reachable from it exports the name. *)
Theorem getExportOfAstModule_spec fuel exportName astModule T T' out :
  _getExportOfAstModule fuel exportName astModule T = (T', out) →
  T' = T ∧
  (∀ a, out = Ok a →
     ∃ m' md', starReachable T astModule m' ∧ modules T !! m' = Some md' ∧
               exportedSymbols md' !! exportName = Some a) ∧
  (∀ e, out = Throw e →
     e = InternalError_UnableToAnalyzeExport exportName ∧
     ∀ m' md', starReachable T astModule m' → modules T !! m' = Some md' →
               exportedSymbols md' !! exportName = None).
Proof.
  unfold _getExportOfAstModule. intros H.
  destruct (tryGetExportOfAstModule_spec T exportName fuel astModule ∅) as [HT Hspec].
  unfold bind in H.
  destruct (_tryGetExportOfAstModule fuel exportName astModule ∅ T)
    as [T1 [[[a |] v'] | e | |]]; simpl in *; unfold ret, throw in H;
    simplify_eq; split; try done.
  - split; [| done]. intros a' [= <-]. done.
  - split; [done |]. intros e [= <-]. split; [done |].
    destruct Hspec as [Hm Hp]. intros m' md' Hreach Hmd'.
    pose proof (probed_closed _ _ _ _ _ Hp Hm Hreach) as Hin.
    destruct Hp as [_ Hp]. destruct (Hp m' Hin ltac:(set_solver)) as (md & Hmd & Hnone & _).
    congruence.
Qed.

(** ** Nominal symbols under [analyze]; export declarations of other kinds *)

Section NominalAnalysis.
Context (P : TsProgram).

(** X11: [analyze] on a nominal symbol only raises the [_analyzed] flag
    of that symbol: no declaration is walked and nothing else in the table
    changes.  On a nominal symbol that is analyzed already nothing changes
    at all. *)
Theorem analyze_nominal fuel a s T :
  reachable P T →
  symbols T !! a = Some s → nominal s = true →
  analyze P (S fuel) a T
  = ((if _analyzed s then T else with_symbols (alter set_analyzed a) T), Ok tt).
Proof.
  intros Hreach Hs Hnom.
  pose proof (nominal_roots_reachable P T Hreach a s Hs Hnom) as Hroot.
  assert (symbol_analyzed (symbols T) a = Some (_analyzed s)) as Ha.
  { unfold symbol_analyzed. by rewrite Hs, Hroot, Hs. }
  destruct (analyze P (S fuel) a T) as [T' o] eqn:H. simpl in H.
  run H; try done.
  all: try congruence.
  unfold _notifyAnalyzed in H. by run H.
Qed.

Lemma forCurrentDeclarations_unimplemented recur fuel astModule e pre d rest ed T :
  Forall (λ x, findFirstParent P x ExportDeclaration = None) pre →
  findFirstParent P d ExportDeclaration = Some ed →
  node_kind P d ≠ ExportSpecifier →
  forCurrentDeclarations P recur fuel astModule e (pre ++ d :: rest) T
  = (T, Throw (Error_UnimplementedExportDeclarationKind (node_getText P d))).
Proof.
  intros Hpre Hed Hkind. induction Hpre as [| x pre Hx _ IH]; simpl.
  - rewrite Hed. by rewrite bool_decide_eq_false_2.
  - by rewrite Hx.
Qed.

(** X12: when the first declaration of the exported symbol that lies
    inside an export declaration is no export specifier,
    [_collectExportForAstModule] throws the error of an unimplemented
    export declaration kind with the text of that declaration, and leaves
    the table untouched. *)
Theorem collectExportForAstModule_unimplemented_kind
    recur fuel astModule e pre d rest ed T :
  sym_declarations P e = Some (pre ++ d :: rest) →
  Forall (λ x, findFirstParent P x ExportDeclaration = None) pre →
  findFirstParent P d ExportDeclaration = Some ed →
  node_kind P d ≠ ExportSpecifier →
  _collectExportForAstModule P recur (S fuel) astModule e T
  = (T, Throw (Error_UnimplementedExportDeclarationKind (node_getText P d))).
Proof.
  intros Hdecls Hpre Hed Hkind. unfold _collectExportForAstModule. simpl.
  rewrite Hdecls. simpl. unfold bind.
  by rewrite (forCurrentDeclarations_unimplemented recur (S fuel) astModule e
                pre d rest ed T Hpre Hed Hkind).
Qed.

End NominalAnalysis.

(** ** External modules *)

Lemma keeps_on_modules_frame J f :
  (∀ T, modules (f T) = modules T) → keeps (on_modules J) (modify f).
Proof. intros Hf. apply keeps_modify. intros T HT. unfold on_modules. by rewrite Hf. Qed.

Section ExternalModules.
Context (P : TsProgram).

Lemma on_modules_fetchAstSymbol J fuel s a o :
  keeps (on_modules J) (_fetchAstSymbol P fuel s a o).
Proof.
  revert s a o. induction fuel as [| fuel IH]; intros s a o; simpl.
  { apply keeps_outOfFuel. }
  unfold new_AstSymbol, createDeclarations, createDeclaration, new_AstDeclaration.
  repeat keeps_step;
    try apply IH;
    try apply keeps_requireAstDeclarations;
    try apply keeps_tryFindFirstAstDeclarationParent;
    try (by apply keeps_on_modules_frame).
Qed.

Lemma external_entry_alter sf spec r f i :
  (∀ m, sourceFile (f m) = sourceFile m ∧
        externalModulePath (f m) = externalModulePath m) →
  keeps (on_modules (external_entry sf spec r)) (modify (with_modules (alter f i))).
Proof.
  intros Hf. apply keeps_modify. intros T' (md & Hmd & Hsf & Hpath).
  unfold on_modules. simpl.
  destruct (list_lookup_alter_Some f _ _ i _ Hmd) as (md' & Hmd' & [-> | ->]).
  - by exists md.
  - exists (f md). destruct (Hf md) as [-> ->]. done.
Qed.

Lemma external_entry_collectExternalExport sf spec r fuel m e :
  keeps (on_modules (external_entry sf spec r)) (collectExternalExport P fuel m e).
Proof.
  unfold collectExternalExport, exportedSymbols_set. repeat keeps_step.
  - apply on_modules_fetchAstSymbol.
  - by apply external_entry_alter.
Qed.

(** X13: the first resolution of a source file under a module specifier
    that is not relative builds an external module: the entry records the
    file and the specifier as [externalModulePath], and every export that
    the type checker lists for the module symbol is bound, under its name,
    in [exportedSymbols], with its followed symbol cached as an imported
    symbol. *)
Theorem fetchAstModuleBySourceFile_external fuel sf spec T T' r :
  fetchAstModuleBySourceFile P fuel sf (Some spec) T = (T', Ok r) →
  _astModulesBySourceFile T !! sf = None →
  isExternalModuleNameRelative P spec = false →
  ∃ md moduleSymbol,
    modules T' !! r = Some md ∧ sourceFile md = sf ∧
    externalModulePath md = Some spec ∧
    getSymbolForDeclaration P sf = Some moduleSymbol ∧
    ∀ e, e ∈ getExportsOfModule P moduleSymbol →
      ∃ a, _astSymbolsBySymbol T' !! followAliases P e = Some a ∧
           symbol_imported (symbols T') a = Some true ∧
           is_Some (exportedSymbols md !! sym_name P e).
Proof.
  intros H Hmiss Hext.
  destruct fuel as [| fuel]; [done |]. simpl in H.
  unfold fetchAstModuleBySourceFile_body, populateExternalModule in H.
  rewrite Hext in H. simpl in H.
  run H.
  match goal with
  | Hloop : forEach _ _ ?T0 = (T', Ok ?u) |- _ =>
      assert (on_modules (external_entry sf spec (length (modules T))) T0) as Hentry
  end.
  { unfold on_modules, external_entry. simpl. eexists. split.
    - rewrite list_lookup_alter_eq. by rewrite lookup_app_r, Nat.sub_diag by lia.
    - done. }
  match goal with
  | Hloop : forEach _ _ ?T0 = (T', Ok ?u) |- _ =>
      pose proof (keeps_run _ _ _ _ _
                    (keeps_forEach _ _ _
                       (λ e, external_entry_collectExternalExport sf spec _ fuel _ e))
                    Hentry Hloop) as (md & Hmd & Hsf & Hpath)
  end.
  exists md. eexists. split_and!; try done.
  intros e He.
  assert (∀ y, monotone (collectExternalExport P fuel (length (modules T)) y)) as Hmono.
  { intros y. apply keeps_monotone. intros T0. apply extends_collectExternalExport. }
  match goal with
  | Hloop : forEach _ _ ?T0 = (T', Ok ?u) |- _ =>
      destruct (forEach_inv_keeps _ _ _ _ _ _ e Hmono
                  (λ e, external_entry_collectExternalExport sf spec _ fuel _ e)
                  Hentry Hloop He)
        as (T1 & T2 & (md1 & Hmd1 & Hsf1 & Hpath1) & Hext01 & Hbody & Hext2)
  end.
  unfold collectExternalExport in Hbody. run Hbody.
  match goal with
  | Hf : _fetchAstSymbol _ _ _ _ _ _ = (?T3, Ok (Some ?a)), Hset : exportedSymbols_set _ _ _ _ = _ |- _ =>
      pose proof (fetchAstSymbol_cached _ _ _ _ _ _ _ _ Hf) as Hcached;
      pose proof (fetchAstSymbol_import_result _ _ _ _ _ _ _ _ Hf) as Himp;
      pose proof (keeps_run (extends T3) _ _ _ _
                    (extends_exportedSymbols_set T3 _ _ _) (reflexivity _) Hset) as Hext32;
      destruct (exportedSymbols_set_run _ _ _ _ _ _ Hset) as (md2 & Hmd2 & Hname & _);
      exists a
  end.
  assert (extends T0 T') as Hext3 by (by etrans).
  split_and!.
  - eapply lookup_weaken; [done | apply (ext_bySymbol _ _ Hext3)].
  - by eapply extends_symbol_imported.
  - destruct (ext_modules _ _ Hext2 _ _ Hmd2) as (md' & Hmd' & _ & Hdom & _).
    assert (md' = md) as -> by congruence.
    apply elem_of_dom, Hdom, elem_of_dom. eauto.
Qed.

End ExternalModules.

(** ** The caches and the heap of symbols *)

Lemma symbols_consistent_frame f :
  (∀ T, symbols (f T) = symbols T) →
  (∀ T, _astSymbolsBySymbol (f T) = _astSymbolsBySymbol T) →
  (∀ T, _astSymbolsByImportKey (f T) = _astSymbolsByImportKey T) →
  keeps symbols_consistent (modify f).
Proof.
  intros H1 H2 H3. apply keeps_modify. intros T HT.
  unfold symbols_consistent. by rewrite H1, H2, H3.
Qed.

Lemma symbols_consistent_alter f i :
  (∀ x, followedSymbol (f x) = followedSymbol x ∧ astImport (f x) = astImport x ∧
        parentAstSymbol (f x) = parentAstSymbol x ∧
        rootAstSymbol (f x) = rootAstSymbol x) →
  keeps symbols_consistent (modify (with_symbols (alter f i))).
Proof.
  intros Hf. apply keeps_modify. intros T (H1 & H2 & H3).
  assert (∀ j x, symbols T !! j = Some x →
            ∃ x', alter f i (symbols T) !! j = Some x' ∧
                  followedSymbol x' = followedSymbol x ∧ astImport x' = astImport x ∧
                  parentAstSymbol x' = parentAstSymbol x ∧
                  rootAstSymbol x' = rootAstSymbol x) as Hfwd.
  { intros j x Hx. destruct (list_lookup_alter_Some f _ _ i _ Hx) as (x' & Hx' & [-> | ->]).
    - eauto 10.
    - exists (f x). by destruct (Hf x) as (-> & -> & -> & ->). }
  assert (∀ j x', alter f i (symbols T) !! j = Some x' →
            ∃ x, symbols T !! j = Some x ∧
                 followedSymbol x' = followedSymbol x ∧ astImport x' = astImport x ∧
                 parentAstSymbol x' = parentAstSymbol x ∧
                 rootAstSymbol x' = rootAstSymbol x) as Hback.
  { intros j x' Hx'. destruct (decide (i = j)) as [-> | Hne].
    - rewrite list_lookup_alter_eq in Hx'.
      destruct (symbols T !! j) as [x |]; simplify_eq/=.
      exists x. by destruct (Hf x) as (-> & -> & -> & ->).
    - rewrite list_lookup_alter_ne in Hx' by done. eauto 10. }
  split_and!; simpl.
  - intros s r Hs. destruct (H1 _ _ Hs) as (x & Hx & Hor).
    destruct (Hfwd _ _ Hx) as (x' & Hx' & E1 & E2 & _). exists x'.
    split; [done |]. by rewrite E1, E2.
  - intros k r Hk. destruct (H2 _ _ Hk) as (x & i0 & Hx & Hi & Hkey).
    destruct (Hfwd _ _ Hx) as (x' & Hx' & _ & Hi' & _). exists x', i0.
    split_and!; congruence.
  - intros r x' Hx'. destruct (Hback _ _ Hx') as (x & Hx & _ & _ & E1 & E2).
    rewrite E1, E2. specialize (H3 _ _ Hx). destruct (parentAstSymbol x) as [p |]; [| done].
    destruct H3 as (Hlt & px & Hpx & Hroot). split; [done |].
    destruct (Hfwd _ _ Hpx) as (px' & Hpx' & _ & _ & _ & Hr'). exists px'.
    split; congruence.
Qed.

Lemma symbols_consistent_alias T s a' k :
  symbols_consistent T → _astSymbolsByImportKey T !! k = Some a' →
  symbols_consistent (with_bySymbol (<[s := a']>) T).
Proof.
  intros (H1 & H2 & H3) Hk. split_and!; simpl; [| done | done].
  intros s' r Hs'. destruct (decide (s = s')) as [<- | Hne].
  - rewrite lookup_insert_eq in Hs'. injection Hs' as <-.
    destruct (H2 _ _ Hk) as (x & i & Hx & Hi & _). exists x. split; [done |].
    right. by rewrite Hi.
  - rewrite lookup_insert_ne in Hs' by done. by apply H1.
Qed.

Lemma symbols_consistent_register T s node oi :
  symbols_consistent T →
  followedSymbol node = s → astImport node = oi →
  match parentAstSymbol node with
  | None => rootAstSymbol node = length (symbols T)
  | Some p => ∃ px, symbols T !! p = Some px ∧ rootAstSymbol node = rootAstSymbol px
  end →
  symbols_consistent
    (match oi with
     | Some i => with_byImportKey (<[key i := length (symbols T)]>)
     | None => id
     end (with_bySymbol (<[s := length (symbols T)]>)
            (with_symbols (λ ss, ss ++ [node]) T))).
Proof.
  intros (H1 & H2 & H3) Hs Hi Hroot.
  assert (∀ j x, symbols T !! j = Some x → (symbols T ++ [node]) !! j = Some x) as Hfwd.
  { intros j x Hx. apply lookup_snoc. by left. }
  assert ((symbols T ++ [node]) !! length (symbols T) = Some node) as Hnew.
  { apply lookup_snoc. by right. }
  assert (symbols_consistent
            (with_bySymbol (<[s := length (symbols T)]>)
               (with_symbols (λ ss, ss ++ [node]) T))) as (G1 & G2 & G3).
  { split_and!; simpl.
    - intros s' r Hs'. destruct (decide (s = s')) as [<- | Hne].
      + rewrite lookup_insert_eq in Hs'. injection Hs' as <-. exists node. auto.
      + rewrite lookup_insert_ne in Hs' by done.
        destruct (H1 _ _ Hs') as (x & Hx & Hor). eauto.
    - intros k r Hk. destruct (H2 _ _ Hk) as (x & i & Hx & ? & ?). eauto 10.
    - intros r x Hx. apply lookup_snoc in Hx as [Hx | [-> ->]].
      + specialize (H3 _ _ Hx). destruct (parentAstSymbol x) as [p |]; [| done].
        destruct H3 as (Hlt & px & Hpx & Hr). eauto 10.
      + destruct (parentAstSymbol node) as [p |]; [| done].
        destruct Hroot as (px & Hpx & Hr). split; [by eapply lookup_lt_Some |]. eauto. }
  destruct oi as [i |]; [| done].
  split_and!; simpl in *; [done | | done].
  intros k r Hk. destruct (decide (key i = k)) as [<- | Hne].
  - rewrite lookup_insert_eq in Hk. injection Hk as <-. exists node, i. done.
  - rewrite lookup_insert_ne in Hk by done. by apply G2.
Qed.

(** Calls that only read: the table they leave is the one they found. *)
Ltac frames :=
  repeat match goal with
  | Hw : _tryFindFirstAstDeclarationParent _ _ _ ?T = (?T1, _) |- _ =>
      assert_fails (constr_eq T T1);
      pose proof (keeps_run (eq T) _ _ _ _
        (keeps_tryFindFirstAstDeclarationParent _ _ _ _) eq_refl Hw); subst T1
  | Hw : requireAstDeclarations _ _ _ ?T = (?T1, _) |- _ =>
      assert_fails (constr_eq T T1);
      pose proof (keeps_run (eq T) _ _ _ _
        (keeps_requireAstDeclarations _ _ _ _) eq_refl Hw); subst T1
  end.

Section CacheConsistency.
Context (P : TsProgram).

Lemma symbols_consistent_createDeclarations fuel decls a p :
  keeps symbols_consistent (createDeclarations P fuel decls a p).
Proof.
  unfold createDeclarations, createDeclaration, new_AstDeclaration.
  repeat keeps_step;
    try apply keeps_tryFindFirstAstDeclarationParent;
    try (by apply symbols_consistent_frame);
    try (by apply symbols_consistent_alter).
Qed.

Lemma symbols_consistent_fetchAstSymbol fuel s a o :
  keeps symbols_consistent (_fetchAstSymbol P fuel s a o).
Proof.
  revert s a o. induction fuel as [| fuel IH]; intros s a o T HT.
  { done. }
  destruct (_fetchAstSymbol P (S fuel) s a o T) as [T' out] eqn:H.
  simpl in *. run H; frames; try done.
  all: try match goal with
    | Hr : _fetchAstSymbol _ _ ?ps ?b ?o' _ = (?T1, _) |- _ =>
        pose proof (keeps_run _ _ _ _ _ (IH ps b o') HT Hr) as HT1
    end.
  all: try done.
  all: try (eapply symbols_consistent_alias; [done | eassumption]).
  all: try match goal with
    | Hc : createDeclarations _ _ _ _ _ ?X = (?T2, _) |- symbols_consistent ?T2 =>
        eapply (keeps_run symbols_consistent _ X);
          [apply symbols_consistent_createDeclarations | | exact Hc]
    end.
  all: try match goal with
    | |- symbols_consistent
           (with_byImportKey (<[key ?i := _]>)
              (with_bySymbol (<[?s0 := _]>)
                 (with_symbols (λ ss, ss ++ [?node]) ?T0))) =>
        apply (symbols_consistent_register T0 s0 node (Some i));
          [done | done | done | simpl; eauto]
    | |- symbols_consistent
           (with_bySymbol (<[?s0 := _]>)
              (with_symbols (λ ss, ss ++ [?node]) ?T0)) =>
        apply (symbols_consistent_register T0 s0 node None);
          [done | done | done | simpl; eauto]
    end.
Qed.

Lemma symbols_consistent_reachable T : reachable P T → symbols_consistent T.
Proof.
  apply (preserved_reachable P symbols_consistent).
  - apply symbols_consistent_fetchAstSymbol.
  - intros. unfold _notifyReferencedAstSymbol. repeat keeps_step.
    by apply symbols_consistent_frame.
  - intros. unfold _notifyAnalyzed. repeat keeps_step.
    by apply symbols_consistent_alter.
  - intros. by apply symbols_consistent_frame.
  - intros sf A k Hk. unfold new_AstModule. repeat keeps_step;
      try (by apply symbols_consistent_frame); try apply Hk.
  - split_and!; simpl; intros *; by rewrite ?lookup_empty.
Qed.

Lemma modules_consistent_frame f :
  (∀ T, modules (f T) = modules T) →
  (∀ T, _astModulesBySourceFile (f T) = _astModulesBySourceFile T) →
  keeps modules_consistent (modify f).
Proof.
  intros H1 H2. apply keeps_modify. intros T HT.
  unfold modules_consistent. by rewrite H1, H2.
Qed.

Lemma modules_consistent_fetchAstSymbol fuel s a o :
  keeps modules_consistent (_fetchAstSymbol P fuel s a o).
Proof.
  revert s a o. induction fuel as [| fuel IH]; intros s a o; simpl.
  { apply keeps_outOfFuel. }
  unfold new_AstSymbol, createDeclarations, createDeclaration, new_AstDeclaration.
  repeat keeps_step;
    try apply IH;
    try apply keeps_requireAstDeclarations;
    try apply keeps_tryFindFirstAstDeclarationParent;
    try (by apply modules_consistent_frame).
Qed.

Lemma modules_consistent_reachable T : reachable P T → modules_consistent T.
Proof.
  apply (preserved_reachable P modules_consistent).
  - apply modules_consistent_fetchAstSymbol.
  - intros. unfold _notifyReferencedAstSymbol. repeat keeps_step.
    by apply modules_consistent_frame.
  - intros. unfold _notifyAnalyzed. repeat keeps_step.
    by apply modules_consistent_frame.
  - intros f i Hf. apply keeps_modify. intros T0 HT sf m Hm. simpl in *.
    destruct (HT _ _ Hm) as (x & Hx & Hsf).
    destruct (list_lookup_alter_Some f _ _ i _ Hx) as (x' & Hx' & [-> | ->]).
    + eauto.
    + exists (f x). by rewrite Hf.
  - intros sf A k Hk T0 HT.
    unfold new_AstModule, bind, gets, modify, ret. simpl.
    apply Hk. intros sf' m. simpl.
    destruct (decide (sf = sf')) as [<- | Hne].
    + rewrite lookup_insert_eq. intros [= <-]. eexists. split.
      { apply lookup_snoc. by right. }
      done.
    + rewrite lookup_insert_ne by done. intros Hm.
      destruct (HT _ _ Hm) as (x & Hx & Hsf). exists x. split; [| done].
      apply lookup_snoc. by left.
  - intros sf m. simpl. by rewrite lookup_empty.
Qed.

(** X14: in every state of a run the four caches point at nodes that
    fit their keys: a node cached under a symbol follows that symbol or
    carries an import, a node cached under an import key carries that
    import, a declaration node cached under a declaration is the node of
    that declaration, and a module registered for a source file is the
    module of that file. *)
Theorem caches_agree_with_nodes T :
  reachable P T →
  (∀ s r, _astSymbolsBySymbol T !! s = Some r →
     ∃ x, symbols T !! r = Some x ∧
          (followedSymbol x = s ∨ is_Some (astImport x))) ∧
  (∀ k r, _astSymbolsByImportKey T !! k = Some r →
     ∃ x i, symbols T !! r = Some x ∧ astImport x = Some i ∧ key i = k) ∧
  (∀ n d, _astDeclarationsByDeclaration T !! n = Some d →
     ∃ x, declarations T !! d = Some x ∧ declaration x = n) ∧
  (∀ sf m, _astModulesBySourceFile T !! sf = Some m →
     ∃ x, modules T !! m = Some x ∧ sourceFile x = sf).
Proof.
  intros Hreach.
  destruct (symbols_consistent_reachable T Hreach) as (H1 & H2 & _).
  destruct (declarations_consistent_reachable P T Hreach) as (H3 & _).
  pose proof (modules_consistent_reachable T Hreach) as H4.
  done.
Qed.

(** X15: in every state of a run, the root of a node was allocated no
    later than the node, a node is its own root exactly when it has no
    parent, and the root of a node is a node without a parent that is its
    own root. *)
Theorem roots_are_parentless T r x :
  reachable P T → symbols T !! r = Some x →
  rootAstSymbol x ≤ r ∧
  (parentAstSymbol x = None ↔ rootAstSymbol x = r) ∧
  ∃ root, symbols T !! rootAstSymbol x = Some root ∧
          parentAstSymbol root = None ∧
          rootAstSymbol root = rootAstSymbol x.
Proof.
  intros Hreach. destruct (symbols_consistent_reachable T Hreach) as (_ & _ & H3).
  revert x. induction r as [r IH] using lt_wf_ind. intros x Hx.
  pose proof (H3 _ _ Hx) as Hp.
  destruct (parentAstSymbol x) as [p |] eqn:Hpar.
  - destruct Hp as (Hlt & px & Hpx & Hroot).
    destruct (IH p Hlt px Hpx) as (Hle & _ & root & Hr & Hnone & Hrr).
    rewrite Hroot. split_and!; [lia | | eauto].
    split; [done | lia].
  - rewrite Hp. split_and!; [lia | by split |]. exists x. by split_and!.
Qed.

End CacheConsistency.

(** ** Exports bound by [_collectExportForAstModule] *)

Section ExportCollection.
Context (P : TsProgram).

(** X16: when the alias chain of an exported symbol ends, without a
    re-export, at a symbol [t] that passes the filters, a normal return of
    [_collectExportForAstModule] has cached a node for [t] and bound the
    name of the exported symbol to it in [exportedSymbols] of the module. *)
Theorem collectExportForAstModule_alias recur fuel n astModule e t T T' :
  aliasChain P n e t → n < fuel →
  ¬ filteredOut P t →
  _collectExportForAstModule P recur fuel astModule e T = (T', Ok tt) →
  ∃ a md,
    _astSymbolsBySymbol T' !! t = Some a ∧
    modules T' !! astModule = Some md ∧
    exportedSymbols md !! sym_name P e = Some a.
Proof.
  intros Hchain Hfuel Hpass H. unfold _collectExportForAstModule in H.
  rewrite (whileTrue_aliasChain P recur n fuel fuel astModule e e t T Hchain Hfuel) in H.
  unfold collectNormalDeclaration in H. run H.
  - match goal with
    | Hf : _fetchAstSymbol _ _ _ _ _ _ = (_, Ok (Some ?a)) |- _ =>
        apply fetchAstSymbol_cached in Hf; exists a
    end.
    destruct (exportedSymbols_set_run _ _ _ _ _ _ H) as (md & Hmd & Hname & Hsame).
    exists md. split_and!; try done. by rewrite Hsame.
  - match goal with
    | Hf : _fetchAstSymbol _ _ _ _ _ _ = (_, Ok None) |- _ =>
        apply fetchAstSymbol_None in Hf as [_ Hf]
    end.
    by destruct Hpass.
Qed.

(** X17: an export that the module has under [exportName] itself is what
    [_getExportOfAstModule] returns, whatever the modules it re-exports by
    wildcard export under that name. *)
Theorem getExportOfAstModule_direct_wins fuel exportName astModule md a T :
  modules T !! astModule = Some md →
  exportedSymbols md !! exportName = Some a →
  _getExportOfAstModule (S fuel) exportName astModule T = (T, Ok a).
Proof.
  intros Hmd Ha.
  destruct (_getExportOfAstModule (S fuel) exportName astModule T) as [T' o] eqn:H.
  unfold _getExportOfAstModule in H. cbn [_tryGetExportOfAstModule] in H.
  rewrite bool_decide_eq_false_2 in H by set_solver.
  run H; simpl in *; congruence.
Qed.

(** X18: in every state of a run the [parent] and [children] members of
    the declaration nodes describe the same tree: a declaration with a
    parent is among the children of that parent, and every child of a
    declaration has that declaration as its parent. *)
Theorem declaration_parents_and_children_agree T :
  reachable P T →
  (∀ d x p, declarations T !! d = Some x → parent x = Some p →
     ∃ px, declarations T !! p = Some px ∧ d ∈ children px) ∧
  (∀ p px d, declarations T !! p = Some px → d ∈ children px →
     ∃ x, declarations T !! d = Some x ∧ parent x = Some p).
Proof.
  intros Hreach. by destruct (declarations_consistent_reachable P T Hreach) as (_ & ? & ?).
Qed.

End ExportCollection.

(** ** The construction of nominal symbols *)

Section NominalSymbols.
Context (P : TsProgram).

Lemma created_node fuel decls r p ss node X T' u :
  createDeclarations P fuel decls r p X = (T', Ok u) →
  symbols X = ss ++ [node] → r = length ss →
  ∃ node', symbols T' !! r = Some node' ∧
    nominal node' = nominal node ∧ parentAstSymbol node' = parentAstSymbol node ∧
    rootAstSymbol node' = rootAstSymbol node ∧ astImport node' = astImport node.
Proof.
  intros H HX ->.
  pose proof (keeps_run (extends _) _ _ _ _
                (extends_createDeclarations P _ fuel decls _ p) (reflexivity _) H)
    as Hext.
  destruct (ext_symbols _ _ Hext (length ss) node) as (node' & Hn & Hs).
  { rewrite HX. apply lookup_snoc. by right. }
  exists node'. destruct Hs as (_ & _ & ? & ? & ? & ? & _). done.
Qed.

Lemma own_root_imported ss r node :
  ss !! r = Some node → rootAstSymbol node = r →
  symbol_imported ss r = Some (bool_decide (is_Some (astImport node))).
Proof. intros Hn Hr. unfold symbol_imported. by rewrite Hn, Hr, Hn. Qed.

(** X19: a symbol whose only declaration is a source file, or one that
    is fetched with import options from a package without AEDoc support,
    becomes a nominal node: the call returns a new node that is nominal,
    has no parent, is its own root and carries the import of the options,
    and each declaration of the symbol has a declaration node. *)
Theorem fetchAstSymbol_nominal fuel s a o T d0 ds :
  Z.land (sym_flags P s) filteredFlags = 0%Z →
  isAmbient P s = false →
  _astSymbolsBySymbol T !! s = None →
  sym_declarations P s = Some (d0 :: ds) →
  match o with
  | Some opts => _astSymbolsByImportKey T !! key (new_AstImport opts) = None
  | None => True
  end →
  (ds = [] ∧ node_kind P d0 = SourceFile) ∨
  (is_Some o ∧
   isAedocSupportedFor P (sourceFile_fileName P (node_getSourceFile P d0)) = false) →
  ∃ T' node,
    _fetchAstSymbol P (S fuel) s a o T = (T', Ok (Some (length (symbols T)))) ∧
    symbols T' !! length (symbols T) = Some node ∧
    nominal node = true ∧ parentAstSymbol node = None ∧
    rootAstSymbol node = length (symbols T) ∧
    astImport node = new_AstImport <$> o ∧
    ∀ d, d ∈ d0 :: ds → declared T' (length (declarations T)) (length (symbols T)) d.
Proof.
  intros Hflags Hamb Hmiss Hdecls Hkey Hnom.
  destruct (_fetchAstSymbol P (S fuel) s a o T) as [T' out] eqn:H.
  pose proof H as H0.
  simpl in H. rewrite Hflags, Hamb in H. simpl in H.
  assert (∀ X u, createDeclarations P fuel (d0 :: ds) (length (symbols T)) None X
                 = (T', u) → u = Ok tt) as Hok.
  { intros X u Hc. destruct (createDeclarations_parentless P fuel (d0 :: ds)
                               (length (symbols T)) X) as [T2 E]. congruence. }
  destruct o as [opts |]; simpl in H.
  - run H.
    all: try (exfalso; destruct Hnom as [[-> Hk] | [_ Ha]];
              [rewrite Hk in *; by rewrite !bool_decide_eq_true_2 in * by done
              | rewrite Ha in *; simpl in *;
                by rewrite ?orb_true_r in *]).
    all: try match goal with
         | Hc : createDeclarations _ _ _ _ _ _ = (_, ?u) |- _ =>
             pose proof (Hok _ _ Hc); try discriminate
         end.
    all: match goal with
         | Hc : createDeclarations _ _ _ _ _ _ = (_, Ok _) |- _ =>
             destruct (created_node _ _ _ _ _ _ _ _ _ Hc eq_refl eq_refl)
               as (node' & Hnode' & Hn1 & Hn2 & Hn3 & Hn4);
             simpl in Hn1, Hn2, Hn3, Hn4;
             pose proof (own_root_imported _ _ _ Hnode' Hn3) as Himp;
             rewrite Hn4 in Himp; simpl in Himp
         end.
    all: try (by simplify_eq/=).
    exists T', node'. split_and!; try done.
    apply (createDeclarations_declares _ _ _ _ _ _ _ _ Hrun).
  - run H.
    all: try (exfalso; destruct Hnom as [[-> Hk] | [[? [=]] _]];
              rewrite Hk in *; by rewrite !bool_decide_eq_true_2 in * by done).
    all: try match goal with
         | Hc : createDeclarations _ _ _ _ _ _ = (_, ?u) |- _ =>
             pose proof (Hok _ _ Hc); try discriminate
         end.
    all: match goal with
         | Hc : createDeclarations _ _ _ _ _ _ = (_, Ok _) |- _ =>
             destruct (created_node _ _ _ _ _ _ _ _ _ Hc eq_refl eq_refl)
               as (node' & Hnode' & Hn1 & Hn2 & Hn3 & Hn4);
             simpl in Hn1, Hn2, Hn3, Hn4
         end.
    exists T', node'. split_and!; try done.
    apply (createDeclarations_declares _ _ _ _ _ _ _ _ Hrun).
Qed.
End NominalSymbols.

(** ** The names of the nodes *)

Section NodeNames.
Context (P : TsProgram).

Lemma nodes_faithful_alter f i :
  (∀ x, localName (f x) = localName x ∧ followedSymbol (f x) = followedSymbol x) →
  keeps (on_symbols (nodes_faithful P)) (modify (with_symbols (alter f i))).
Proof.
  intros Hf. apply keeps_modify. intros T HT r x' Hx'. simpl in Hx'.
  destruct (decide (i = r)) as [-> | Hne].
  - rewrite list_lookup_alter_eq in Hx'.
    destruct (symbols T !! r) as [x |] eqn:Hx; simplify_eq/=.
    destruct (Hf x) as [-> ->]. by apply (HT r).
  - rewrite list_lookup_alter_ne in Hx' by done. by apply (HT r).
Qed.

Lemma nodes_faithful_new_AstSymbol s imp parent root nom :
  Z.land (sym_flags P s) filteredFlags = 0%Z → isAmbient P s = false →
  keeps (on_symbols (nodes_faithful P))
    (new_AstSymbol (sym_name P s) s imp parent root nom).
Proof.
  intros Hf Ha T HT. unfold new_AstSymbol, bind, gets, modify, ret. simpl.
  intros r x Hx. simpl in Hx. apply lookup_snoc in Hx as [Hx | [-> ->]].
  - by apply (HT r).
  - done.
Qed.

Lemma nodes_faithful_createDeclarations fuel decls a p :
  keeps (on_symbols (nodes_faithful P)) (createDeclarations P fuel decls a p).
Proof.
  unfold createDeclarations, createDeclaration, new_AstDeclaration.
  repeat keeps_step;
    try apply keeps_tryFindFirstAstDeclarationParent;
    try (by apply nodes_faithful_alter).
Qed.

Lemma nodes_faithful_fetchAstSymbol fuel s a o :
  keeps (on_symbols (nodes_faithful P)) (_fetchAstSymbol P fuel s a o).
Proof.
  revert s a o. induction fuel as [| fuel IH]; intros s a o; simpl.
  { apply keeps_outOfFuel. }
  repeat keeps_step;
    try apply IH;
    try apply nodes_faithful_createDeclarations;
    try apply keeps_requireAstDeclarations;
    try apply keeps_tryFindFirstAstDeclarationParent.
  all: apply nodes_faithful_new_AstSymbol; [by apply Z.eqb_eq, negb_false_iff | done].
Qed.

(** X20: in every state of a run, each node carries the name of the
    symbol it follows as its [localName], and that symbol passes both
    filters of [_fetchAstSymbol]. *)
Theorem nodes_named_after_symbols T r x :
  reachable P T → symbols T !! r = Some x →
  localName x = sym_name P (followedSymbol x) ∧
  Z.land (sym_flags P (followedSymbol x)) filteredFlags = 0%Z ∧
  isAmbient P (followedSymbol x) = false.
Proof.
  intros Hreach. revert r x. change (on_symbols (nodes_faithful P) T).
  revert Hreach. apply (preserved_reachable P (on_symbols (nodes_faithful P))).
  - apply nodes_faithful_fetchAstSymbol.
  - apply invariant_notifyReferencedAstSymbol.
  - intros. unfold _notifyAnalyzed. repeat keeps_step. by apply nodes_faithful_alter.
  - intros. apply keeps_on_symbols_modules.
  - intros sf A k Hk. unfold new_AstModule. repeat keeps_step; try apply Hk.
  - intros r x Hx. done.
Qed.

End NodeNames.

(** ** Import keys *)

Lemma imports_registered_frame f :
  (∀ T, symbols (f T) = symbols T) →
  (∀ T, _astSymbolsByImportKey (f T) = _astSymbolsByImportKey T) →
  keeps imports_registered (modify f).
Proof.
  intros H1 H2. apply keeps_modify. intros T HT.
  unfold imports_registered. by rewrite H1, H2.
Qed.

Lemma imports_registered_alter f i :
  (∀ x, astImport (f x) = astImport x) →
  keeps imports_registered (modify (with_symbols (alter f i))).
Proof.
  intros Hf. apply keeps_modify. intros T HT r x' i0 Hx' Hi. simpl in *.
  destruct (decide (i = r)) as [-> | Hne].
  - rewrite list_lookup_alter_eq in Hx'.
    destruct (symbols T !! r) as [x |] eqn:Hx; simplify_eq/=.
    rewrite Hf in Hi. by apply (HT r x).
  - rewrite list_lookup_alter_ne in Hx' by done. by apply (HT r x').
Qed.

Lemma imports_registered_register T s node :
  imports_registered T →
  match astImport node with
  | Some i => _astSymbolsByImportKey T !! key i = None
  | None => True
  end →
  imports_registered
    (match astImport node with
     | Some i => with_byImportKey (<[key i := length (symbols T)]>)
     | None => id
     end (with_bySymbol (<[s := length (symbols T)]>)
            (with_symbols (λ ss, ss ++ [node]) T))).
Proof.
  intros HT Hkey r x i Hx Hi.
  assert (symbols T !! r = Some x ∨ (r = length (symbols T) ∧ x = node)) as Hcase.
  { destruct (astImport node); simpl in Hx; by apply lookup_snoc in Hx. }
  destruct (astImport node) as [i0 |] eqn:Hnode; simpl.
  - destruct Hcase as [Hold | [-> ->]].
    + pose proof (HT _ _ _ Hold Hi) as Hreg.
      rewrite lookup_insert_ne; [done |]. intros Heq. congruence.
    + simplify_eq. apply lookup_insert_eq.
  - destruct Hcase as [Hold | [-> ->]]; [by apply (HT r x) | congruence].
Qed.

Section ImportKeys.
Context (P : TsProgram).

Lemma imports_registered_createDeclarations fuel decls a p :
  keeps imports_registered (createDeclarations P fuel decls a p).
Proof.
  unfold createDeclarations, createDeclaration, new_AstDeclaration.
  repeat keeps_step;
    try apply keeps_tryFindFirstAstDeclarationParent;
    try (by apply imports_registered_frame);
    try (by apply imports_registered_alter).
Qed.

Lemma fetchAstSymbol_local_keeps_import_keys K fuel s a :
  keeps (λ T, _astSymbolsByImportKey T = K) (_fetchAstSymbol P fuel s a None).
Proof.
  revert s a. induction fuel as [| fuel IH]; intros s a; simpl.
  { apply keeps_outOfFuel. }
  unfold new_AstSymbol, createDeclarations, createDeclaration, new_AstDeclaration.
  repeat keeps_step;
    try apply IH;
    try apply keeps_requireAstDeclarations;
    try apply keeps_tryFindFirstAstDeclarationParent;
    try (by apply keeps_modify).
Qed.

Lemma imports_registered_fetchAstSymbol fuel s a o :
  keeps imports_registered (_fetchAstSymbol P fuel s a o).
Proof.
  revert s a o. induction fuel as [| fuel IH]; intros s a o T HT.
  { done. }
  destruct (_fetchAstSymbol P (S fuel) s a o T) as [T' out] eqn:H.
  simpl in *. run H; frames; try done.
  all: try match goal with
    | Hr : _fetchAstSymbol _ _ ?ps ?b None ?T0 = (?T1, _) |- _ =>
        pose proof (keeps_run _ _ _ _ _ (IH ps b None) HT Hr) as HT1;
        pose proof (keeps_run _ _ _ _ _
                      (fetchAstSymbol_local_keeps_import_keys
                         (_astSymbolsByImportKey T0) _ ps b) eq_refl Hr) as HK
    end.
  all: try done.
  all: try match goal with
    | Hc : createDeclarations _ _ _ _ _ ?X = (?T2, _) |- imports_registered ?T2 =>
        eapply (keeps_run imports_registered _ X);
          [apply imports_registered_createDeclarations | | exact Hc]
    end.
  all: try match goal with
    | |- imports_registered
           (with_byImportKey (<[key ?i := _]>)
              (with_bySymbol (<[?s0 := _]>)
                 (with_symbols (λ ss, ss ++ [?node]) ?T0))) =>
        apply (imports_registered_register T0 s0 node); [done | simpl; congruence]
    | |- imports_registered
           (with_bySymbol (<[?s0 := _]>)
              (with_symbols (λ ss, ss ++ [?node]) ?T0)) =>
        apply (imports_registered_register T0 s0 node); [done | done]
    end.
Qed.

(** X21: in every state of a run, a node that carries an import is the
    node registered under the key of that import, so two nodes whose
    imports have the same key are one node. *)
Theorem import_keys_identify_nodes T :
  reachable P T →
  (∀ r x i, symbols T !! r = Some x → astImport x = Some i →
     _astSymbolsByImportKey T !! key i = Some r) ∧
  (∀ r1 r2 x1 x2 i1 i2,
     symbols T !! r1 = Some x1 → symbols T !! r2 = Some x2 →
     astImport x1 = Some i1 → astImport x2 = Some i2 →
     key i1 = key i2 → r1 = r2).
Proof.
  intros Hreach.
  assert (imports_registered T) as HT.
  { revert Hreach. apply (preserved_reachable P imports_registered).
    - apply imports_registered_fetchAstSymbol.
    - intros. unfold _notifyReferencedAstSymbol. repeat keeps_step.
      by apply imports_registered_frame.
    - intros. unfold _notifyAnalyzed. repeat keeps_step.
      by apply imports_registered_alter.
    - intros. by apply imports_registered_frame.
    - intros sf A k Hk. unfold new_AstModule. repeat keeps_step;
        try (by apply imports_registered_frame); try apply Hk.
    - intros r x i Hx. done. }
  split; [exact HT |].
  intros r1 r2 x1 x2 i1 i2 H1 H2 Hi1 Hi2 Hk.
  pose proof (HT _ _ _ H1 Hi1) as E1. pose proof (HT _ _ _ H2 Hi2) as E2.
  rewrite Hk in E1. congruence.
Qed.

End ImportKeys.

(** ** The construction of a nested symbol *)

Section ParentConstruction.
Context (P : TsProgram).

(** X22: a symbol whose first declaration lies inside another declaration
    is constructed after its parent.  When [_fetchAstSymbol] without import
    options returns a new node for it, the symbol of the enclosing
    declaration was fetched first, and the new node has that node as its
    parent, shares its root and is not nominal. *)
Theorem fetchAstSymbol_constructs_parent fuel s a T T' r d0 ds pd ps :
  Z.land (sym_flags P s) filteredFlags = 0%Z →
  isAmbient P s = false →
  _astSymbolsBySymbol T !! s = None →
  sym_declarations P s = Some (d0 :: ds) →
  ¬ (ds = [] ∧ node_kind P d0 = SourceFile) →
  _tryFindFirstAstDeclarationParent P fuel d0 T = (T, Ok (Some pd)) →
  getSymbolForDeclaration P pd = Some ps →
  _fetchAstSymbol P (S fuel) s a None T = (T', Ok (Some r)) →
  ∃ T1 p node pnode,
    _fetchAstSymbol P fuel ps a None T = (T1, Ok (Some p)) ∧
    r = length (symbols T1) ∧ p < r ∧
    symbols T' !! r = Some node ∧ symbols T' !! p = Some pnode ∧
    parentAstSymbol node = Some p ∧
    rootAstSymbol node = rootAstSymbol pnode ∧
    nominal node = false.
Proof.
  intros Hflags Hamb Hmiss Hdecls Hsf Hparent Hps H.
  simpl in H. rewrite Hflags, Hamb in H. simpl in H.
  run H; frames.
  all: try (exfalso; apply Hsf;
            match goal with
            | Hb : _ && _ || _ = true |- _ =>
                rewrite orb_false_r in Hb; apply andb_true_iff in Hb as [Hb1 Hb2];
                split; [by apply bool_decide_eq_true_1 in Hb1
                       | by apply bool_decide_eq_true_1 in Hb2]
            end).
  all: rewrite Hparent in *; simplify_eq.
  match goal with
  | Hc : createDeclarations _ _ _ _ _ _ = (_, Ok _),
    Hp : symbols ?T2 !! ?p = Some ?ps0 |- _ =>
      destruct (created_node P _ _ _ _ _ _ _ _ _ Hc eq_refl eq_refl)
        as (node' & Hnode' & Hn1 & Hn2 & Hn3 & _);
      simpl in Hn1, Hn2, Hn3;
      pose proof (keeps_run (extends _) _ _ _ _
                    (extends_createDeclarations P _ _ _ _ _) (reflexivity _) Hc)
        as Hext;
      destruct (ext_symbols _ _ Hext p ps0) as (pnode' & Hpnode' & Hs);
        [simpl; apply lookup_snoc; by left |];
      exists T2, p, node', pnode'
  end.
  destruct Hs as (_ & _ & _ & _ & Hroot & _).
  split_and!; try done.
  - by eapply lookup_lt_Some.
  - congruence.
Qed.
End ParentConstruction.

Section LocalParent.
Context (P : TsProgram).

Lemma same_root_imported ss r p node pnode :
  ss !! r = Some node → ss !! p = Some pnode →
  rootAstSymbol node = rootAstSymbol pnode →
  symbol_imported ss r = symbol_imported ss p.
Proof. intros Hr Hp Hroot. unfold symbol_imported. by rewrite Hr, Hp, Hroot. Qed.

Lemma symbol_imported_snoc ss x p b :
  symbol_imported ss p = Some b → symbol_imported (ss ++ [x]) p = Some b.
Proof.
  unfold symbol_imported. intros H.
  destruct (ss !! p) as [n |] eqn:Hn; [| done]. simpl in H.
  rewrite (lookup_app_l_Some _ _ _ _ Hn). simpl.
  destruct (ss !! rootAstSymbol n) as [root |] eqn:Hroot; [| done].
  by rewrite (lookup_app_l_Some _ _ _ _ Hroot).
Qed.

(** X23: a symbol nested in a declaration cannot be fetched with import
    options when the node of the enclosing symbol is not imported: the call
    never returns normally, and the node it allocated stays registered
    under the symbol and under the import key. *)
Theorem fetchAstSymbol_import_under_local_parent
    fuel s a opts T T' out d0 ds pd ps T1 p :
  Z.land (sym_flags P s) filteredFlags = 0%Z →
  isAmbient P s = false →
  _astSymbolsBySymbol T !! s = None →
  _astSymbolsByImportKey T !! key (new_AstImport opts) = None →
  sym_declarations P s = Some (d0 :: ds) →
  ¬ (ds = [] ∧ node_kind P d0 = SourceFile) →
  isAedocSupportedFor P (sourceFile_fileName P (node_getSourceFile P d0)) = true →
  Forall (λ d, isAstDeclaration P (node_kind P d) = true) (d0 :: ds) →
  _tryFindFirstAstDeclarationParent P fuel d0 T = (T, Ok (Some pd)) →
  getSymbolForDeclaration P pd = Some ps →
  _fetchAstSymbol P fuel ps a None T = (T1, Ok (Some p)) →
  symbol_imported (symbols T1) p = Some false →
  _fetchAstSymbol P (S fuel) s a (Some opts) T = (T', out) →
  (∀ r, out ≠ Ok r) ∧
  _astSymbolsBySymbol T' !! s = Some (length (symbols T1)) ∧
  _astSymbolsByImportKey T' !! key (new_AstImport opts) = Some (length (symbols T1)).
Proof.
  intros Hflags Hamb Hmiss Hkey Hdecls Hsf Haedoc Hkinds Hparent Hps Hpf Himp H.
  pose proof (requireAstDeclarations_ok P s _ T Hkinds) as Hreq.
  simpl in H. rewrite Hflags, Hamb in H. simpl in H.
  run H; frames.
  all: try (exfalso; apply Hsf;
            match goal with
            | Hb : _ && _ || _ = true |- _ =>
                rewrite Haedoc in Hb; simpl in Hb;
                rewrite orb_false_r in Hb; apply andb_true_iff in Hb as [Hb1 Hb2];
                split; [by apply bool_decide_eq_true_1 in Hb1
                       | by apply bool_decide_eq_true_1 in Hb2]
            end).
  all: rewrite ?Hparent in *; simplify_eq.
  all: repeat match goal with
       | Hr : requireAstDeclarations _ _ _ _ = _ |- _ =>
           rewrite Hreq in Hr; simplify_eq
       | Hr : _fetchAstSymbol _ _ _ _ None _ = _ |- _ =>
           rewrite Hpf in Hr; simplify_eq
       end.
  all: try match goal with
       | Hc : createDeclarations _ _ _ _ _ ?X = (?T2, _) |- _ =>
           pose proof (keeps_run (extends X) _ _ _ _
                         (extends_createDeclarations P _ _ _ _ _) (reflexivity _) Hc)
             as Hext
       end.
  all: try match goal with
       | Hn : symbols ?X !! ?q = None,
         Hi : symbol_imported (symbols ?X) ?q = Some _ |- _ =>
           unfold symbol_imported in Hi; by rewrite Hn in Hi
       end.
  all: split_and!;
    [ | eapply lookup_weaken; [| apply (ext_bySymbol _ _ Hext)];
        simpl; apply lookup_insert_eq
      | eapply lookup_weaken; [| apply (ext_byImportKey _ _ Hext)];
        simpl; apply lookup_insert_eq ].
  all: try done.
  intros r0 _.
  match goal with
  | Hc : createDeclarations _ _ _ _ _ _ = (_, Ok _) |- _ =>
      destruct (created_node P _ _ _ _ _ _ _ _ _ Hc eq_refl eq_refl)
        as (node' & Hnode' & _ & _ & Hn3 & _); simpl in Hn3
  end.
  match goal with
  | Hp : symbols T1 !! p = Some ?pn |- _ =>
      destruct (ext_symbols _ _ Hext p pn) as (pnode' & Hpnode' & Hs);
        [simpl; by apply lookup_app_l_Some |];
      destruct Hs as (_ & _ & _ & _ & Hroot & _)
  end.
  match goal with
  | Hi : symbol_imported (symbols T') (length (symbols T1)) = Some ?b,
    Hb : negb ?b = false |- _ =>
      rewrite (same_root_imported _ _ p _ _ Hnode' Hpnode') in Hi by congruence;
      rewrite (extends_symbol_imported _ _ _ _ Hext
                 (symbol_imported_snoc _ _ _ _ Himp)) in Hi;
      destruct b; simplify_eq
  end.
Qed.
End LocalParent.

(** ** The table only grows *)

Section DeclarationKeys.
Context (P : TsProgram).

Lemma declaration_keys_kept_frame T0 f :
  (∀ T, _astDeclarationsByDeclaration (f T) = _astDeclarationsByDeclaration T) →
  keeps (declaration_keys_kept T0) (modify f).
Proof.
  intros Hf. apply keeps_modify. intros T HT. unfold declaration_keys_kept. by rewrite Hf.
Qed.

Lemma declaration_keys_kept_insert T0 n d :
  keeps (declaration_keys_kept T0) (modify (with_byDeclaration (<[n := d]>))).
Proof.
  apply keeps_modify. intros T HT. unfold declaration_keys_kept in *. simpl.
  rewrite dom_insert. set_solver.
Qed.

Lemma declaration_keys_kept_fetchAstSymbol T0 fuel s a o :
  keeps (declaration_keys_kept T0) (_fetchAstSymbol P fuel s a o).
Proof.
  revert s a o. induction fuel as [| fuel IH]; intros s a o; simpl.
  { apply keeps_outOfFuel. }
  unfold new_AstSymbol, createDeclarations, createDeclaration, new_AstDeclaration.
  repeat keeps_step;
    try apply IH;
    try apply keeps_requireAstDeclarations;
    try apply keeps_tryFindFirstAstDeclarationParent;
    try apply declaration_keys_kept_insert;
    try (by apply declaration_keys_kept_frame).
Qed.

Lemma declaration_keys_kept_methods T0 :
  (∀ fuel sf spec,
     keeps (declaration_keys_kept T0) (fetchAstModuleBySourceFile P fuel sf spec)) ∧
  (∀ fuel a, keeps (declaration_keys_kept T0) (analyze P fuel a)).
Proof.
  assert (∀ d r, keeps (declaration_keys_kept T0) (_notifyReferencedAstSymbol d r)) as Href.
  { intros. unfold _notifyReferencedAstSymbol. repeat keeps_step.
    by apply declaration_keys_kept_frame. }
  assert (∀ r, keeps (declaration_keys_kept T0) (_notifyAnalyzed r)) as Hana.
  { intros. unfold _notifyAnalyzed. repeat keeps_step.
    by apply declaration_keys_kept_frame. }
  split.
  - intros. apply preserved_fetchAstModuleBySourceFile.
    + apply declaration_keys_kept_fetchAstSymbol.
    + intros. by apply declaration_keys_kept_frame.
    + intros sf0 A k Hk. unfold new_AstModule. repeat keeps_step;
        try (by apply declaration_keys_kept_frame); try apply Hk.
  - intros. apply preserved_analyze; [apply declaration_keys_kept_fetchAstSymbol | done..].
Qed.

(** X1: the three public methods only add to the table.  Whatever the
    outcome of [fetchAstModuleBySourceFile], [analyze] or [tryGetAstSymbol],
    the table they leave extends the one they found: every entry of the
    caches of symbols, of import keys and of source files is kept, every
    key of the cache of declarations is kept, and every node keeps its
    identity, with children, references, exports and the [_analyzed] flag
    only added. *)
Theorem table_only_grows T :
  (∀ fuel sf spec,
     extends T (fetchAstModuleBySourceFile P fuel sf spec T).1 ∧
     declaration_keys_kept T (fetchAstModuleBySourceFile P fuel sf spec T).1) ∧
  (∀ fuel a,
     extends T (analyze P fuel a T).1 ∧
     declaration_keys_kept T (analyze P fuel a T).1) ∧
  (∀ fuel s,
     extends T (tryGetAstSymbol P fuel s T).1 ∧
     declaration_keys_kept T (tryGetAstSymbol P fuel s T).1).
Proof.
  destruct (declaration_keys_kept_methods T) as [Hfetch Hanalyze].
  assert (declaration_keys_kept T T) as Hrefl by (unfold declaration_keys_kept; set_solver).
  split_and!; intros; split.
  - apply monotone_fetchAstModuleBySourceFile.
  - by apply Hfetch.
  - apply monotone_analyze.
  - by apply Hanalyze.
  - apply monotone_fetchAstSymbol.
  - by apply declaration_keys_kept_fetchAstSymbol.
Qed.
End DeclarationKeys.

(** ** Termination of the lookup of an export *)

Section ModulesWf.
Context (P : TsProgram).

Lemma modules_wf_frame f :
  (∀ T, modules (f T) = modules T) →
  (∀ T, _astModulesBySourceFile (f T) = _astModulesBySourceFile T) →
  keeps modules_wf (modify f).
Proof.
  intros H1 H2. apply keeps_modify. intros T HT.
  unfold modules_wf, modules_closed. by rewrite H1, H2.
Qed.

Lemma modules_wf_alter f i :
  (∀ x, starExportedModules (f x) = starExportedModules x) →
  keeps modules_wf (modify (with_modules (alter f i))).
Proof.
  intros Hf. apply keeps_modify. intros T [Hc Hr]. split.
  - intros j m k Hm Hk. simpl in *. rewrite length_alter.
    destruct (decide (i = j)) as [-> | Hne].
    + rewrite list_lookup_alter_eq in Hm.
      destruct (modules T !! j) as [m0 |] eqn:Hm0; simplify_eq/=.
      rewrite Hf in Hk. by eapply Hc.
    + rewrite list_lookup_alter_ne in Hm by done. by eapply Hc.
  - intros sf m Hm. simpl in *. rewrite length_alter. by eapply Hr.
Qed.

Lemma modules_wf_star_add astModule target T :
  modules_wf T → target < length (modules T) →
  modules_wf (starExportedModules_add astModule target T).1.
Proof.
  intros [Hc Hr] Ht.
  destruct (starExportedModules_add astModule target T) as [T' o] eqn:H.
  unfold starExportedModules_add in H. run H; [| done].
  split.
  - intros j m k Hm Hk. simpl in *. rewrite length_alter.
    destruct (decide (astModule = j)) as [-> | Hne].
    + rewrite list_lookup_alter_eq in Hm.
      destruct (modules T !! j) as [m0 |] eqn:Hm0; simplify_eq/=.
      unfold set_add in Hk. case_bool_decide.
      * by eapply Hc.
      * apply elem_of_app in Hk as [Hk | Hk]; [by eapply Hc |].
        apply list_elem_of_singleton in Hk. by subst.
    + rewrite list_lookup_alter_ne in Hm by done. by eapply Hc.
  - intros sf m Hm. simpl in *. rewrite length_alter. by eapply Hr.
Qed.

Lemma modules_wf_register sf A (k : nat → M A) :
  (∀ m, keeps modules_wf (k m)) →
  keeps modules_wf (bind (new_AstModule sf) (λ m,
    bind (modify (with_bySourceFile (<[sf := m]>))) (λ _, k m))).
Proof.
  intros Hk T [Hc Hr]. unfold new_AstModule, bind, gets, modify, ret. simpl.
  apply Hk. split.
  - intros j m i Hm Hi. simpl in *. rewrite length_app. simpl.
    apply lookup_snoc in Hm as [Hm | [-> ->]].
    + pose proof (Hc _ _ _ Hm Hi). lia.
    + by apply elem_of_nil in Hi.
  - intros sf' m Hm. simpl in *. rewrite length_app. simpl.
    destruct (decide (sf = sf')) as [-> | Hne].
    + rewrite lookup_insert_eq in Hm. injection Hm as <-. lia.
    + rewrite lookup_insert_ne in Hm by done. pose proof (Hr _ _ Hm). lia.
Qed.

Lemma modules_wf_fetchAstSymbol fuel s a o :
  keeps modules_wf (_fetchAstSymbol P fuel s a o).
Proof.
  revert s a o. induction fuel as [| fuel IH]; intros s a o; simpl.
  { apply keeps_outOfFuel. }
  unfold new_AstSymbol, createDeclarations, createDeclaration, new_AstDeclaration.
  repeat keeps_step;
    try apply IH;
    try apply keeps_requireAstDeclarations;
    try apply keeps_tryFindFirstAstDeclarationParent;
    try (by apply modules_wf_frame).
Qed.

Lemma modules_wf_exportedSymbols_set m name a :
  keeps modules_wf (exportedSymbols_set m name a).
Proof. unfold exportedSymbols_set. repeat keeps_step. by apply modules_wf_alter. Qed.

Section Open.
Context (recur : nat → option string → M nat).
Context (Hrecur : ∀ sf spec T T' m,
           modules_wf T → recur sf spec T = (T', Ok m) →
           m < length (modules T')).
Context (Hkeeps : ∀ sf spec, keeps modules_wf (recur sf spec)).

Lemma modules_wf_fetchSpecifierAstModule d :
  keeps modules_wf (_fetchSpecifierAstModule P recur d).
Proof using Hkeeps. unfold _fetchSpecifierAstModule. repeat keeps_step; apply Hkeeps. Qed.

Lemma fetchSpecifierAstModule_allocated d T T' m :
  modules_wf T → _fetchSpecifierAstModule P recur d T = (T', Ok (Some m)) →
  m < length (modules T').
Proof using Hrecur.
  intros HT H. unfold _fetchSpecifierAstModule in H. run H. by eapply Hrecur.
Qed.

Lemma modules_wf_collectExportsFromExportStar astModule d :
  keeps modules_wf (_collectExportsFromExportStar P recur astModule d).
Proof using Hrecur Hkeeps.
  intros T HT. unfold _collectExportsFromExportStar.
  case_bool_decide; [| done].
  destruct (_fetchSpecifierAstModule P recur d T) as [T1 o] eqn:Hrun.
  pose proof (keeps_run _ _ _ _ _ (modules_wf_fetchSpecifierAstModule d) HT Hrun) as HT1.
  rewrite (bind_run _ _ _ _ _ Hrun).
  destruct o as [[m |] | | |]; simpl; try done.
  apply modules_wf_star_add; [done |].
  exact (fetchSpecifierAstModule_allocated d T T1 m HT Hrun).
Qed.

Lemma modules_wf_forCurrentDeclarations fuel m e decls :
  keeps modules_wf (forCurrentDeclarations P recur fuel m e decls).
Proof using Hkeeps.
  induction decls as [| d decls IH]; simpl; repeat keeps_step;
    try apply modules_wf_fetchSpecifierAstModule;
    try apply keeps_getExportOfAstModule;
    try apply modules_wf_exportedSymbols_set.
Qed.

Lemma modules_wf_whileTrue steps fuel m e c :
  keeps modules_wf (whileTrue P recur steps fuel m e c).
Proof using Hkeeps.
  revert c. induction steps as [| steps IH]; intros c; simpl;
    unfold collectNormalDeclaration; repeat keeps_step;
    try apply modules_wf_forCurrentDeclarations;
    try apply modules_wf_fetchAstSymbol;
    try apply modules_wf_exportedSymbols_set;
    try apply IH.
Qed.

Lemma modules_wf_collectLocalExport fuel m e :
  keeps modules_wf (collectLocalExport P recur fuel m e).
Proof using Hrecur Hkeeps.
  unfold collectLocalExport, _collectExportForAstModule.
  repeat keeps_step;
    try apply modules_wf_collectExportsFromExportStar;
    try apply modules_wf_whileTrue.
Qed.
End Open.

Lemma modules_wf_collectExternalExport fuel m e :
  keeps modules_wf (collectExternalExport P fuel m e).
Proof.
  unfold collectExternalExport. repeat keeps_step;
    try apply modules_wf_fetchAstSymbol;
    try apply modules_wf_exportedSymbols_set.
Qed.

Lemma modules_wf_fetchAstModuleBySourceFile fuel sf spec :
  keeps modules_wf (fetchAstModuleBySourceFile P fuel sf spec) ∧
  ∀ T T' m, modules_wf T → fetchAstModuleBySourceFile P fuel sf spec T = (T', Ok m) →
            m < length (modules T').
Proof.
  revert sf spec. induction fuel as [| fuel IH]; intros sf spec.
  { split; [apply keeps_outOfFuel | done]. }
  assert (keeps modules_wf (fetchAstModuleBySourceFile P (S fuel) sf spec)) as Hkeeps.
  { simpl. unfold fetchAstModuleBySourceFile_body.
    apply keeps_bind_gets. intros T HT.
    destruct (_astModulesBySourceFile T !! sf); [apply keeps_ret |].
    apply modules_wf_register. intros m.
    unfold populateExternalModule, populateLocalModule.
    repeat keeps_step;
      try (by apply modules_wf_alter);
      try apply modules_wf_collectExternalExport;
      try (apply modules_wf_collectLocalExport; intros; by eapply IH). }
  split; [done |].
  intros T T' m HT H.
  pose proof (keeps_run _ _ _ _ _ Hkeeps HT H) as [_ Hreg].
  eapply Hreg. by eapply fetchAstModuleBySourceFile_cached.
Qed.

Lemma modules_wf_reachable T : reachable P T → modules_wf T.
Proof.
  induction 1 as [| fuel sf spec T _ IH | fuel a T _ IH | fuel s T _ IH].
  - split; [intros i m j Hm | intros sf m Hm]; simpl in *; by rewrite ?lookup_empty in *.
  - by apply modules_wf_fetchAstModuleBySourceFile.
  - revert IH. apply preserved_analyze.
    + apply modules_wf_fetchAstSymbol.
    + intros. unfold _notifyReferencedAstSymbol. repeat keeps_step.
      by apply modules_wf_frame.
    + intros. unfold _notifyAnalyzed. repeat keeps_step. by apply modules_wf_frame.
  - by apply modules_wf_fetchAstSymbol.
Qed.
End ModulesWf.

(** C2 (termination of the name lookup across wildcard re-exports).  With
    more fuel than there are modules, the lookup that
    [_getExportOfAstModule] starts with an empty set of visited modules
    never runs out of fuel and throws nothing, however the modules
    wildcard-export one another, and it leaves the table as it is.  When
    it returns, it reports "not found" exactly when no module that is
    reachable from the start through wildcard re-exports exports the name.
    Where every wildcard target is allocated it does return.  A module
    that is already in the set of visited modules gives "not found" at
    once, with the set unchanged.  The references to modules are allocated
    in every state of a run, and module resolution keeps them so and
    returns an allocated module. *)
Theorem tryGetExportOfAstModule_terminates fuel exportName astModule T :
  length (modules T) < fuel →
  (∃ out, _tryGetExportOfAstModule fuel exportName astModule ∅ T = (T, out) ∧
      out ≠ OutOfFuel ∧ (∀ e, out ≠ Throw e) ∧
      (∀ r visited, out = Ok (r, visited) →
         (r = None ↔
          ∀ m' md', starReachable T astModule m' → modules T !! m' = Some md' →
                    exportedSymbols md' !! exportName = None)) ∧
      (astModule < length (modules T) → modules_closed T →
       ∃ r visited, out = Ok (r, visited))) ∧
  (∀ visited, astModule ∈ visited →
     _tryGetExportOfAstModule fuel exportName astModule visited T
     = (T, Ok (None, visited))) ∧
  (∀ P, (reachable P T → modules_wf T) ∧
        ∀ fuel0 sf spec T1 m,
          modules_wf T →
          fetchAstModuleBySourceFile P fuel0 sf spec T = (T1, Ok m) →
          modules_wf T1 ∧ m < length (modules T1)).
Proof.
  intros Hfuel.
  destruct (tryGetExportOfAstModule_total fuel exportName astModule T Hfuel)
    as [(out & Hrun & Hout & Hok) Hvisited].
  split_and!; [| done |].
  - exists out. split_and!; try done.
    + intros e ->.
      pose proof (tryGetExportOfAstModule_spec T exportName fuel astModule ∅) as [_ Hs].
      by rewrite Hrun in Hs.
    + intros r visited ->.
      pose proof (tryGetExportOfAstModule_spec T exportName fuel astModule ∅) as [_ Hs].
      rewrite Hrun in Hs. simpl in Hs. destruct r as [a |].
      * destruct Hs as (m' & md' & Hreach & Hmd' & Ha). split; [done |].
        intros Hnone. specialize (Hnone _ _ Hreach Hmd'). congruence.
      * destruct Hs as [Hm Hp]. split; [| done]. intros _ m' md' Hreach Hmd'.
        pose proof (probed_closed _ _ _ _ _ Hp Hm Hreach) as Hin.
        destruct Hp as [_ Hp].
        destruct (Hp m' Hin ltac:(set_solver)) as (md & Hmd & Hnone & _).
        congruence.
    + intros Hm Hc. destruct (Hok Hm Hc) as (r & visited & -> & _). eauto.
  - intros P. split; [apply modules_wf_reachable |].
    intros fuel0 sf spec T1 m HT H.
    destruct (modules_wf_fetchAstModuleBySourceFile P fuel0 sf spec) as [Hk Ha].
    split; [exact (keeps_run _ _ _ _ _ Hk HT H) | by eapply Ha].
Qed.

(** ** What [tryGetAstSymbol] constructs *)

Section Constructs.
Context (P : TsProgram).

(** The search for a parent declaration reads nothing of the table. *)
Lemma whileCurrentNode_pure fuel n T T' o :
  whileCurrentNode P fuel n T = (T, o) → whileCurrentNode P fuel n T' = (T', o).
Proof.
  revert n. induction fuel as [| fuel IH]; intros n; simpl.
  { unfold outOfFuel. by intros [= <-]. }
  destruct n as [n |]; [| unfold ret; by intros [= <-]].
  destruct (isAstDeclaration P (node_kind P n)); [unfold ret; by intros [= <-] |].
  apply IH.
Qed.

Lemma tryFindFirstAstDeclarationParent_pure fuel d T T' o :
  _tryFindFirstAstDeclarationParent P fuel d T = (T, o) →
  _tryFindFirstAstDeclarationParent P fuel d T' = (T', o).
Proof. apply whileCurrentNode_pure. Qed.

(** With a parent symbol, the declaration nodes are created when every
    declaration has a parent declaration that has a declaration node. *)
Lemma createDeclarations_attached fuel decls r p T :
  (∀ d, d ∈ decls →
     ∃ pd, _tryFindFirstAstDeclarationParent P fuel d T = (T, Ok (Some pd)) ∧
           is_Some (_astDeclarationsByDeclaration T !! pd)) →
  ∃ T', createDeclarations P fuel decls r (Some p) T = (T', Ok tt).
Proof.
  unfold createDeclarations. revert T.
  induction decls as [| d decls IH]; intros T Hall; simpl.
  - by eexists.
  - destruct (Hall d) as (pd & Hfind & [pad Hpad]); [left |].
    destruct (createDeclaration P fuel r (Some p) d T) as [T1 o] eqn:H.
    assert (o = Ok tt) as ->.
    { unfold createDeclaration, new_AstDeclaration in H.
      rewrite (bind_assoc _ _ _) in H.
      rewrite (bind_run _ _ _ _ _ Hfind) in H. simpl in H.
      unfold bind at 1 in H. simpl in H. unfold bind at 1 in H. simpl in H.
      rewrite Hpad in H. unfold bind, ret, gets, modify in H. simpl in H.
      by injection H as _ <-. }
    rewrite (bind_run _ _ _ _ _ H). simpl.
    apply IH. intros d' Hd'.
    destruct (Hall d') as (pd' & Hfind' & Hpad'); [by right |].
    exists pd'. split; [by eapply tryFindFirstAstDeclarationParent_pure |].
    destruct (createDeclaration_effect _ _ _ _ _ _ _ _ H) as [-> _].
    destruct (decide (d = pd')) as [-> | Hne].
    + rewrite lookup_insert_eq. by eexists.
    + by rewrite lookup_insert_ne.
Qed.

(** What the construction of a node leaves behind once the declaration
    nodes are created. *)
Lemma constructed_node fuel decls par node0 T1 s T' :
  createDeclarations P fuel decls (length (symbols T1)) par
    (with_bySymbol (<[s := length (symbols T1)]>)
       (with_symbols (λ ss, ss ++ [node0]) T1)) = (T', Ok tt) →
  (∃ node, symbols T' !! length (symbols T1) = Some node ∧
           followedSymbol node = followedSymbol node0 ∧
           localName node = localName node0 ∧
           astImport node = astImport node0 ∧
           parentAstSymbol node = parentAstSymbol node0) ∧
  length (symbols T') = S (length (symbols T1)) ∧
  _astSymbolsBySymbol T' !! s = Some (length (symbols T1)) ∧
  ∀ d, d ∈ decls →
    declared T' (length (declarations T1)) (length (symbols T1)) d.
Proof.
  intros Hc.
  pose proof (keeps_run (extends _) _ _ _ _
                (extends_createDeclarations P _ _ _ _ _) (reflexivity _) Hc) as Hext.
  split_and!.
  - destruct (ext_symbols _ _ Hext (length (symbols T1)) node0)
      as (node & Hnode & Hs).
    { simpl. apply lookup_snoc. by right. }
    exists node. destruct Hs as (? & ? & ? & ? & _). done.
  - pose proof (createDeclarations_lengths _ _ _ _ _ _ _ _ Hc) as Hl.
    simpl in Hl. rewrite length_app in Hl. simpl in Hl. lia.
  - eapply lookup_weaken; [| apply (ext_bySymbol _ _ Hext)].
    simpl. apply lookup_insert_eq.
  - intros d Hd. exact (createDeclarations_declares _ _ _ _ _ _ _ _ Hc d Hd).
Qed.

(** C9 ([addIfMissing] is not consulted).  [_fetchAstSymbol] computes the
    same for either value of [addIfMissing], on every symbol, with any
    options and in any state.  So [tryGetAstSymbol], which passes [false],
    constructs: on a symbol that passes the filters, is absent from the
    cache and has declarations, every normal return hands back a node that
    was not in the heap before, entered in [_astSymbolsBySymbol], with a
    declaration node for each declaration of the symbol.  The call does
    return when the first declaration has no parent declaration, and, for
    a nested symbol, when the lookup of the parent symbol (made with the
    same [false]) returns a node and the parent declarations have their
    declaration nodes; the nested symbol is then built below that node. *)
Theorem tryGetAstSymbol_constructs fuel s T d0 ds :
  Z.land (sym_flags P s) filteredFlags = 0%Z →
  isAmbient P s = false →
  _astSymbolsBySymbol T !! s = None →
  sym_declarations P s = Some (d0 :: ds) →
  Forall (λ d, isAstDeclaration P (node_kind P d) = true) (d0 :: ds) →
  (∀ fuel' s' b b' o T0,
     _fetchAstSymbol P fuel' s' b o T0 = _fetchAstSymbol P fuel' s' b' o T0) ∧
  (∀ T' r, tryGetAstSymbol P (S fuel) s T = (T', Ok r) →
     ∃ r0, r = Some r0 ∧ length (symbols T) ≤ r0 ∧
       (∃ node, symbols T' !! r0 = Some node ∧ followedSymbol node = s ∧
                localName node = sym_name P s ∧ astImport node = None) ∧
       _astSymbolsBySymbol T' !! s = Some r0 ∧
       ∀ d, d ∈ d0 :: ds → declared T' (length (declarations T)) r0 d) ∧
  (_tryFindFirstAstDeclarationParent P fuel d0 T = (T, Ok None) →
   ∃ T', tryGetAstSymbol P (S fuel) s T = (T', Ok (Some (length (symbols T)))) ∧
     (∃ node, symbols T' !! length (symbols T) = Some node ∧
              followedSymbol node = s ∧ localName node = sym_name P s ∧
              astImport node = None ∧ parentAstSymbol node = None) ∧
     length (symbols T') = S (length (symbols T)) ∧
     _astSymbolsBySymbol T' !! s = Some (length (symbols T)) ∧
     ∀ d, d ∈ d0 :: ds →
       declared T' (length (declarations T)) (length (symbols T)) d) ∧
  (∀ pd ps T1 p,
     ¬ (ds = [] ∧ node_kind P d0 = SourceFile) →
     _tryFindFirstAstDeclarationParent P fuel d0 T = (T, Ok (Some pd)) →
     getSymbolForDeclaration P pd = Some ps →
     tryGetAstSymbol P fuel ps T = (T1, Ok (Some p)) →
     is_Some (symbols T1 !! p) →
     (∀ d, d ∈ d0 :: ds →
        ∃ pd', _tryFindFirstAstDeclarationParent P fuel d T = (T, Ok (Some pd')) ∧
               is_Some (_astDeclarationsByDeclaration T1 !! pd')) →
     ∃ T', tryGetAstSymbol P (S fuel) s T = (T', Ok (Some (length (symbols T1)))) ∧
       (∃ node, symbols T' !! length (symbols T1) = Some node ∧
                followedSymbol node = s ∧ localName node = sym_name P s ∧
                astImport node = None ∧ parentAstSymbol node = Some p) ∧
       length (symbols T') = S (length (symbols T1)) ∧
       _astSymbolsBySymbol T' !! s = Some (length (symbols T1)) ∧
       ∀ d, d ∈ d0 :: ds →
         declared T' (length (declarations T1)) (length (symbols T1)) d).
Proof.
  intros Hflags Hamb Hmiss Hdecls Hkinds.
  pose proof (requireAstDeclarations_ok P s _ T Hkinds) as Hreq.
  split_and!.
  - intros fuel' s' b b' o T0.
    rewrite (fetchAstSymbol_addIfMissing P fuel' s' b o T0).
    by rewrite (fetchAstSymbol_addIfMissing P fuel' s' b' o T0).
  - intros T' r H. unfold tryGetAstSymbol in H. destruct r as [r0 |].
    + destruct (fetchAstSymbol_miss_constructs P _ _ _ None _ _ _ Hmiss I H)
        as (Hlen & Hnode & Hreg & _ & Hd).
      exists r0. split_and!; try done. intros d Hin. apply Hd. by rewrite Hdecls.
    + destruct (fetchAstSymbol_None P _ _ _ _ _ _ H) as [_ [? | ?]]; congruence.
  - intros Hparent. unfold tryGetAstSymbol.
    destruct (_fetchAstSymbol P (S fuel) s false None T) as [T' out] eqn:H.
    simpl in H. rewrite Hflags, Hamb in H. simpl in H.
    run H; frames;
      try match goal with
      | Hc : createDeclarations _ ?f ?l ?r None ?T0 = _ |- _ =>
          let E := fresh in
          destruct (createDeclarations_parentless P f l r T0) as [? E];
          rewrite E in Hc; simplify_eq
      end.
    all: rewrite ?Hparent, ?Hreq in *; simplify_eq.
    all: match goal with
         | Hc : createDeclarations _ _ _ _ _ _ = (?T1, Ok ?u) |- _ =>
             destruct u;
             destruct (constructed_node _ _ _ _ _ _ _ Hc)
               as ((node & Hnode & ? & ? & ? & ?) & ? & ? & ?)
         end.
    all: eexists; split_and!; try done.
    all: by exists node.
  - intros pd ps T1 p Hsf Hparent Hps Hpf [pnode Hp] Hparents. unfold tryGetAstSymbol in *.
    destruct (createDeclarations_attached fuel (d0 :: ds) (length (symbols T1)) p
                (with_bySymbol (<[s := length (symbols T1)]>)
                   (with_symbols (λ ss, ss ++
                      [ {| localName := sym_name P s; followedSymbol := s;
                           astImport := None; parentAstSymbol := Some p;
                           rootAstSymbol :=
                             default (length (symbols T1)) (Some (rootAstSymbol pnode));
                           nominal := false; astDeclarations := [];
                           _analyzed := false |} ]) T1)))
      as [T' Hc].
    { intros d Hd. destruct (Hparents d Hd) as (pd' & Hfind & Hpad).
      exists pd'. split; [by eapply tryFindFirstAstDeclarationParent_pure | done]. }
    exists T'.
    destruct (constructed_node _ _ _ _ _ _ _ Hc)
      as ((node & Hnode & ? & ? & ? & ?) & ? & ? & ?).
    split_and!; try done; [| by exists node].
    destruct (_fetchAstSymbol P (S fuel) s false None T) as [T'' out] eqn:Hrun.
    simpl in Hrun. rewrite Hflags, Hamb in Hrun. simpl in Hrun.
    run Hrun; frames.
    all: try (exfalso; apply Hsf;
              match goal with
              | Hb : _ && _ || _ = true |- _ =>
                  rewrite orb_false_r in Hb; apply andb_true_iff in Hb as [Hb1 Hb2];
                  split; [by apply bool_decide_eq_true_1 in Hb1
                         | by apply bool_decide_eq_true_1 in Hb2]
              end).
    all: rewrite ?Hparent, ?Hreq in *; simplify_eq.
    all: repeat match goal with
         | Hr : _fetchAstSymbol _ _ _ _ None _ = _ |- _ =>
             rewrite Hpf in Hr; simplify_eq
         end.
    all: rewrite ?Hc in *; simplify_eq.
    all: try done.
Qed.
End Constructs.

(** ** Import options on a node that is not imported *)

Section ImportConsistency.
Context (P : TsProgram).

(** A node found under the import key that is not imported makes the call
    throw, after the symbol was bound to it. *)
Lemma fetchAstSymbol_key_hit_not_imported fuel s a opts T r d0 ds :
  Z.land (sym_flags P s) filteredFlags = 0%Z →
  isAmbient P s = false →
  _astSymbolsBySymbol T !! s = None →
  sym_declarations P s = Some (d0 :: ds) →
  _astSymbolsByImportKey T !! key (new_AstImport opts) = Some r →
  symbol_imported (symbols T) r = Some false →
  ∃ node, symbols T !! r = Some node ∧
    _fetchAstSymbol P (S fuel) s a (Some opts) T
    = (with_bySymbol (<[s := r]>) T,
       Throw (InternalError_ImportedAfterNonImported (localName node))).
Proof.
  intros Hflags Hamb Hmiss Hdecls Hkey Himp.
  assert (∃ node, symbols T !! r = Some node) as [node Hnode].
  { unfold symbol_imported in Himp. destruct (symbols T !! r); [eauto | done]. }
  exists node. split; [done |].
  destruct (_fetchAstSymbol P (S fuel) s a (Some opts) T) as [T' out] eqn:H.
  simpl in H. rewrite Hflags, Hamb in H. simpl in H.
  run H; simplify_eq/=; try done.
Qed.

(** A node built with import options below a parent that is not imported
    makes the call throw, once its declaration nodes are created. *)
Lemma fetchAstSymbol_fresh_not_imported fuel s a opts T d0 ds pd ps T1 p :
  Z.land (sym_flags P s) filteredFlags = 0%Z →
  isAmbient P s = false →
  _astSymbolsBySymbol T !! s = None →
  _astSymbolsByImportKey T !! key (new_AstImport opts) = None →
  sym_declarations P s = Some (d0 :: ds) →
  ¬ (ds = [] ∧ node_kind P d0 = SourceFile) →
  isAedocSupportedFor P (sourceFile_fileName P (node_getSourceFile P d0)) = true →
  Forall (λ d, isAstDeclaration P (node_kind P d) = true) (d0 :: ds) →
  _tryFindFirstAstDeclarationParent P fuel d0 T = (T, Ok (Some pd)) →
  getSymbolForDeclaration P pd = Some ps →
  _fetchAstSymbol P fuel ps a None T = (T1, Ok (Some p)) →
  symbol_imported (symbols T1) p = Some false →
  (∀ d, d ∈ d0 :: ds →
     ∃ pd', _tryFindFirstAstDeclarationParent P fuel d T = (T, Ok (Some pd')) ∧
            is_Some (_astDeclarationsByDeclaration T1 !! pd')) →
  ∃ T', _fetchAstSymbol P (S fuel) s a (Some opts) T
        = (T', Throw (InternalError_ImportedAfterNonImported (sym_name P s))) ∧
    _astSymbolsBySymbol T' !! s = Some (length (symbols T1)) ∧
    _astSymbolsByImportKey T' !! key (new_AstImport opts) = Some (length (symbols T1)) ∧
    symbol_imported (symbols T') (length (symbols T1)) = Some false.
Proof.
  intros Hflags Hamb Hmiss Hkey Hdecls Hsf Haedoc Hkinds Hparent Hps Hpf Himp Hparents.
  pose proof (requireAstDeclarations_ok P s _ T Hkinds) as Hreq.
  assert (∃ pnode, symbols T1 !! p = Some pnode) as [pnode Hp].
  { unfold symbol_imported in Himp. destruct (symbols T1 !! p); [eauto | done]. }
  set (node0 := {| localName := sym_name P s; followedSymbol := s;
                   astImport := Some (new_AstImport opts); parentAstSymbol := Some p;
                   rootAstSymbol :=
                     default (length (symbols T1)) (Some (rootAstSymbol pnode));
                   nominal := false; astDeclarations := [];
                   _analyzed := false |}).
  set (X := with_byImportKey (<[key (new_AstImport opts) := length (symbols T1)]>)
              (with_bySymbol (<[s := length (symbols T1)]>)
                 (with_symbols (λ ss, ss ++ [node0]) T1))).
  destruct (createDeclarations_attached P fuel (d0 :: ds) (length (symbols T1)) p X)
    as [T' Hc].
  { intros d Hd. destruct (Hparents d Hd) as (pd' & Hfind & Hpad).
    exists pd'. split; [by eapply tryFindFirstAstDeclarationParent_pure | done]. }
  pose proof (keeps_run (extends X) _ _ _ _
                (extends_createDeclarations P _ _ _ _ _) (reflexivity _) Hc) as Hext.
  destruct (created_node P _ _ _ _ _ _ _ _ _ Hc eq_refl eq_refl)
    as (node' & Hnode' & _ & _ & Hroot' & _).
  destruct (ext_symbols _ _ Hext p pnode) as (pnode' & Hpnode' & Hs).
  { simpl. by apply lookup_app_l_Some. }
  destruct Hs as (_ & _ & _ & _ & Hroot & _).
  assert (symbol_imported (symbols T') (length (symbols T1)) = Some false) as Himp'.
  { rewrite (same_root_imported _ _ p _ _ Hnode' Hpnode') by (simpl in Hroot'; congruence).
    apply (extends_symbol_imported _ _ _ _ Hext).
    by apply symbol_imported_snoc. }
  exists T'. split_and!; [| | | done].
  2: { eapply lookup_weaken; [| apply (ext_bySymbol _ _ Hext)].
       simpl. apply lookup_insert_eq. }
  2: { eapply lookup_weaken; [| apply (ext_byImportKey _ _ Hext)].
       simpl. apply lookup_insert_eq. }
  assert (localName node' = sym_name P s) as Hname.
  { destruct (ext_symbols _ _ Hext (length (symbols T1)) node0) as (n2 & Hn2 & Hs2).
    { simpl. apply lookup_snoc. by right. }
    destruct Hs2 as (Hl & _). assert (n2 = node') as -> by congruence. exact Hl. }
  destruct (_fetchAstSymbol P (S fuel) s a (Some opts) T) as [T'' out] eqn:Hrun.
  simpl in Hrun. rewrite Hflags, Hamb in Hrun. simpl in Hrun.
  run Hrun; frames.
  all: try (exfalso; apply Hsf;
            match goal with
            | Hb : _ && _ || _ = true |- _ =>
                rewrite Haedoc in Hb; simpl in Hb;
                rewrite orb_false_r in Hb; apply andb_true_iff in Hb as [Hb1 Hb2];
                split; [by apply bool_decide_eq_true_1 in Hb1
                       | by apply bool_decide_eq_true_1 in Hb2]
            end).
  all: rewrite ?Hparent, ?Hreq in *; simplify_eq.
  all: repeat match goal with
       | Hr : _fetchAstSymbol _ _ _ _ None _ = _ |- _ =>
           rewrite Hpf in Hr; simplify_eq
       end.
  all: subst X node0; rewrite ?Hc in *; simplify_eq.
  all: try congruence.
Qed.

(** C4, amended.  A call of [_fetchAstSymbol] with import options throws
    the internal error whenever the node it resolves is not imported,
    however the node is resolved: from the cache of symbols (the table is
    then left as it is), through the import key (after the symbol is bound
    to the node), or by construction, where the new node is not imported
    exactly when it is built below a parent that is not (the new node then
    stays registered).  A call with import options that returns a node
    returns an imported one.  And no call changes whether an existing node
    is imported, in either direction: nothing ever sets the flag. *)
Theorem fetchAstSymbol_import_consistency fuel s a o T T' out :
  _fetchAstSymbol P fuel s a o T = (T', out) →
  (∀ r, is_Some o → fuel ≠ 0 →
     Z.land (sym_flags P s) filteredFlags = 0%Z → isAmbient P s = false →
     _astSymbolsBySymbol T !! s = Some r →
     symbol_imported (symbols T) r = Some false →
     T' = T ∧ ∃ node, symbols T !! r = Some node ∧
       out = Throw (InternalError_ImportedAfterNonImported (localName node))) ∧
  (∀ opts r d0 ds, o = Some opts → fuel ≠ 0 →
     Z.land (sym_flags P s) filteredFlags = 0%Z → isAmbient P s = false →
     _astSymbolsBySymbol T !! s = None →
     sym_declarations P s = Some (d0 :: ds) →
     _astSymbolsByImportKey T !! key (new_AstImport opts) = Some r →
     symbol_imported (symbols T) r = Some false →
     T' = with_bySymbol (<[s := r]>) T ∧ ∃ node, symbols T !! r = Some node ∧
       out = Throw (InternalError_ImportedAfterNonImported (localName node))) ∧
  (∀ opts fuel' d0 ds pd ps T1 p, o = Some opts → fuel = S fuel' →
     Z.land (sym_flags P s) filteredFlags = 0%Z → isAmbient P s = false →
     _astSymbolsBySymbol T !! s = None →
     _astSymbolsByImportKey T !! key (new_AstImport opts) = None →
     sym_declarations P s = Some (d0 :: ds) →
     ¬ (ds = [] ∧ node_kind P d0 = SourceFile) →
     isAedocSupportedFor P (sourceFile_fileName P (node_getSourceFile P d0)) = true →
     Forall (λ d, isAstDeclaration P (node_kind P d) = true) (d0 :: ds) →
     _tryFindFirstAstDeclarationParent P fuel' d0 T = (T, Ok (Some pd)) →
     getSymbolForDeclaration P pd = Some ps →
     _fetchAstSymbol P fuel' ps a None T = (T1, Ok (Some p)) →
     symbol_imported (symbols T1) p = Some false →
     (∀ d, d ∈ d0 :: ds →
        ∃ pd', _tryFindFirstAstDeclarationParent P fuel' d T = (T, Ok (Some pd')) ∧
               is_Some (_astDeclarationsByDeclaration T1 !! pd')) →
     out = Throw (InternalError_ImportedAfterNonImported (sym_name P s)) ∧
     _astSymbolsBySymbol T' !! s = Some (length (symbols T1)) ∧
     _astSymbolsByImportKey T' !! key (new_AstImport opts) = Some (length (symbols T1)) ∧
     symbol_imported (symbols T') (length (symbols T1)) = Some false) ∧
  (∀ r, is_Some o → out = Ok (Some r) →
     symbol_imported (symbols T') r = Some true) ∧
  (∀ r b, symbol_imported (symbols T) r = Some b →
     symbol_imported (symbols T') r = Some b).
Proof.
  intros Hrun. split_and!.
  - intros r [opts ->] Hfuel Hflags Hamb Hhit Himp.
    destruct fuel as [| fuel]; [done |].
    destruct (fetchAstSymbol_hit_not_imported P fuel s a opts T r)
      as (node & Hnode & Heq); try done.
    rewrite Heq in Hrun. injection Hrun as <- <-. eauto.
  - intros opts r d0 ds -> Hfuel Hflags Hamb Hmiss Hdecls Hkey Himp.
    destruct fuel as [| fuel]; [done |].
    destruct (fetchAstSymbol_key_hit_not_imported fuel s a opts T r d0 ds)
      as (node & Hnode & Heq); try done.
    rewrite Heq in Hrun. injection Hrun as <- <-. eauto.
  - intros opts fuel' d0 ds pd ps T1 p -> -> Hflags Hamb Hmiss Hkey Hdecls Hsf Haedoc
      Hkinds Hparent Hps Hpf Himp Hparents.
    destruct (fetchAstSymbol_fresh_not_imported fuel' s a opts T d0 ds pd ps T1 p)
      as (T2 & Heq & Hreg & Hregk & Himp'); try done.
    rewrite Heq in Hrun. injection Hrun as <- <-. done.
  - intros r [opts ->] ->. by eapply fetchAstSymbol_import_result.
  - intros r b. apply extends_symbol_imported.
    eapply monotone_run; [apply monotone_fetchAstSymbol | done].
Qed.
End ImportConsistency.

(** ** Exports that resolve to nothing *)

Section Unresolved.
Context (P : TsProgram).


End Unresolved.

(** ** The exports of a local module are resolved eagerly *)

Lemma forEach_split {A} (body : A → M unit) pre x post T T' u :
  forEach (pre ++ x :: post) body T = (T', Ok u) →
  ∃ T1 T2, forEach pre body T = (T1, Ok tt) ∧ body x T1 = (T2, Ok tt) ∧
           forEach post body T2 = (T', Ok u).
Proof.
  revert T. induction pre as [| y pre IH]; intros T H; simpl in H.
  - destruct (body x T) as [T2 o] eqn:Hb. rewrite (bind_run _ _ _ _ _ Hb) in H.
    destruct o as [[] | | |]; try done. by exists T, T2.
  - destruct (body y T) as [T0 o] eqn:Hb. rewrite (bind_run _ _ _ _ _ Hb) in H.
    destruct o as [[] | | |]; try done.
    destruct (IH _ H) as (T1 & T2 & H1 & H2 & H3).
    exists T1, T2. split_and!; try done.
    simpl. by rewrite (bind_run _ _ _ _ _ Hb).
Qed.

Section ModuleFrames.
Context (P : TsProgram).

Lemma module_is_alter i md f j :
  j ≠ i → keeps (module_is i md) (modify (with_modules (alter f j))).
Proof.
  intros Hne. apply keeps_modify. intros T HT. unfold module_is, on_modules in *.
  simpl. by rewrite list_lookup_alter_ne.
Qed.

Lemma module_is_exportedSymbols_set i md m name a :
  m ≠ i → keeps (module_is i md) (exportedSymbols_set m name a).
Proof.
  intros Hne. unfold exportedSymbols_set. repeat keeps_step. by apply module_is_alter.
Qed.

Lemma module_is_starExportedModules_add i md m t :
  m ≠ i → keeps (module_is i md) (starExportedModules_add m t).
Proof.
  intros Hne. unfold starExportedModules_add. repeat keeps_step. by apply module_is_alter.
Qed.

Section Open.
Context (i : nat) (md : AstModule) (astModule : nat).
Context (recur : nat → option string → M nat).
Context (Hne : astModule ≠ i).
Context (Hrecur : ∀ sf spec, keeps (module_is i md) (recur sf spec)).

Lemma module_is_fetchSpecifierAstModule d :
  keeps (module_is i md) (_fetchSpecifierAstModule P recur d).
Proof using Hrecur. unfold _fetchSpecifierAstModule. repeat keeps_step; apply Hrecur. Qed.

Lemma module_is_forCurrentDeclarations fuel e decls :
  keeps (module_is i md) (forCurrentDeclarations P recur fuel astModule e decls).
Proof using Hrecur Hne.
  induction decls as [| d decls IH]; simpl; repeat keeps_step;
    try apply module_is_fetchSpecifierAstModule;
    try apply keeps_getExportOfAstModule;
    try (by apply module_is_exportedSymbols_set).
Qed.

Lemma module_is_whileTrue steps fuel e c :
  keeps (module_is i md) (whileTrue P recur steps fuel astModule e c).
Proof using Hrecur Hne.
  revert c. induction steps as [| steps IH]; intros c; simpl;
    unfold collectNormalDeclaration; repeat keeps_step;
    try apply module_is_forCurrentDeclarations;
    try apply on_modules_fetchAstSymbol;
    try (by apply module_is_exportedSymbols_set);
    try apply IH.
Qed.

Lemma module_is_collectLocalExport fuel e :
  keeps (module_is i md) (collectLocalExport P recur fuel astModule e).
Proof using Hrecur Hne.
  unfold collectLocalExport, _collectExportForAstModule, _collectExportsFromExportStar.
  repeat keeps_step;
    try apply module_is_fetchSpecifierAstModule;
    try (by apply module_is_starExportedModules_add);
    try apply module_is_whileTrue.
Qed.
End Open.

Lemma module_is_collectExternalExport i md fuel m e :
  m ≠ i → keeps (module_is i md) (collectExternalExport P fuel m e).
Proof.
  intros Hne. unfold collectExternalExport. repeat keeps_step;
    try apply on_modules_fetchAstSymbol;
    try (by apply module_is_exportedSymbols_set).
Qed.

(** Module resolution leaves the modules that exist as they are: it
    writes to the module it creates, and to those that the calls below it
    create. *)
Lemma module_is_fetchAstModuleBySourceFile i md fuel sf spec :
  keeps (module_is i md) (fetchAstModuleBySourceFile P fuel sf spec).
Proof.
  revert sf spec. induction fuel as [| fuel IH]; intros sf spec; simpl.
  { apply keeps_outOfFuel. }
  unfold fetchAstModuleBySourceFile_body.
  apply keeps_bind_gets. intros T HT.
  destruct (_astModulesBySourceFile T !! sf); [apply keeps_ret |].
  clear HT. intros T0 HT0.
  assert (length (modules T0) ≠ i) as Hne.
  { unfold module_is, on_modules in HT0. apply lookup_lt_Some in HT0. lia. }
  unfold new_AstModule. rewrite bind_assoc. unfold bind at 1. simpl.
  rewrite bind_assoc. unfold bind at 1. simpl.
  unfold bind at 1. simpl. unfold bind at 1. simpl.
  set (m := length (modules T0)) in *.
  match goal with
  | |- module_is _ _ (bind ?pop _ ?X).1 =>
      assert (keeps (module_is i md) pop) as Hpop;
      [| assert (module_is i md X) as HX ]
  end.
  - unfold populateExternalModule, populateLocalModule.
    repeat keeps_step;
      try (by apply module_is_alter);
      try (by apply module_is_collectExternalExport);
      try (by apply module_is_collectLocalExport).
  - unfold module_is, on_modules. simpl. by apply lookup_app_l_Some.
  - match goal with
    | |- module_is _ _ (bind ?pop ?k ?X).1 =>
        pose proof (Hpop X HX) as H1;
        destruct (pop X) as [X1 o] eqn:Hrun;
        rewrite (bind_run pop k X X1 o Hrun)
    end.
    by destruct o.
Qed.
End ModuleFrames.

Section ExportBindings.
Context (P : TsProgram).

Lemma export_is_fetchAstModuleBySourceFile r n v fuel sf spec :
  keeps (export_is r n v) (fetchAstModuleBySourceFile P fuel sf spec).
Proof.
  intros T (md & Hmd & Hv).
  exists md. split; [| done].
  by apply (module_is_fetchAstModuleBySourceFile P r md fuel sf spec T).
Qed.

Lemma export_is_exportedSymbols_set r n v m n' a :
  n' ≠ n → keeps (export_is r n v) (exportedSymbols_set m n' a).
Proof.
  intros Hne. unfold exportedSymbols_set. repeat keeps_step.
  apply keeps_modify. intros T (md & Hmd & Hv). unfold export_is, on_modules. simpl.
  destruct (decide (m = r)) as [-> | Hm].
  - rewrite list_lookup_alter_eq, Hmd. simpl. eexists. split; [done |].
    simpl. by rewrite lookup_insert_ne.
  - rewrite list_lookup_alter_ne by done. by exists md.
Qed.

Lemma export_is_starExportedModules_add r n v m t :
  keeps (export_is r n v) (starExportedModules_add m t).
Proof.
  unfold starExportedModules_add. repeat keeps_step.
  apply keeps_modify. intros T (md & Hmd & Hv). unfold export_is, on_modules. simpl.
  destruct (decide (m = r)) as [-> | Hm].
  - rewrite list_lookup_alter_eq, Hmd. simpl. by eexists.
  - rewrite list_lookup_alter_ne by done. by exists md.
Qed.

Lemma export_is_fetchSpecifierAstModule r n v fuel0 d :
  keeps (export_is r n v) (_fetchSpecifierAstModule P (fetchAstModuleBySourceFile P fuel0) d).
Proof.
  unfold _fetchSpecifierAstModule. repeat keeps_step.
  apply export_is_fetchAstModuleBySourceFile.
Qed.

Lemma export_is_forCurrentDeclarations r n v fuel0 fuel m e decls :
  sym_name P e ≠ n →
  keeps (export_is r n v)
    (forCurrentDeclarations P (fetchAstModuleBySourceFile P fuel0) fuel m e decls).
Proof.
  intros Hne. induction decls as [| d decls IH]; simpl; repeat keeps_step;
    try apply export_is_fetchSpecifierAstModule;
    try apply keeps_getExportOfAstModule;
    try (by apply export_is_exportedSymbols_set).
Qed.

Lemma export_is_whileTrue r n v fuel0 steps fuel m e c :
  sym_name P e ≠ n →
  keeps (export_is r n v)
    (whileTrue P (fetchAstModuleBySourceFile P fuel0) steps fuel m e c).
Proof.
  intros Hne. revert c. induction steps as [| steps IH]; intros c; simpl;
    unfold collectNormalDeclaration; repeat keeps_step;
    try (by apply export_is_forCurrentDeclarations);
    try apply on_modules_fetchAstSymbol;
    try (by apply export_is_exportedSymbols_set);
    try apply IH.
Qed.

(** Collecting the export [e] leaves the binding of another name as it
    is. *)
Lemma export_is_collectLocalExport r n v fuel0 fuel m e :
  sym_name P e ≠ n →
  keeps (export_is r n v)
    (collectLocalExport P (fetchAstModuleBySourceFile P fuel0) fuel m e).
Proof.
  intros Hne.
  unfold collectLocalExport, _collectExportForAstModule, _collectExportsFromExportStar.
  repeat keeps_step;
    try apply export_is_fetchSpecifierAstModule;
    try apply export_is_starExportedModules_add;
    try (by apply export_is_whileTrue).
Qed.

Lemma export_is_forEach r n v fuel0 fuel m es :
  (∀ e, e ∈ es → sym_name P e ≠ n) →
  keeps (export_is r n v)
    (forEach es (collectLocalExport P (fetchAstModuleBySourceFile P fuel0) fuel m)).
Proof.
  intros Hes. induction es as [| e es IH]; simpl.
  - apply keeps_ret.
  - apply keeps_bind.
    + apply export_is_collectLocalExport, Hes. left.
    + intros _. apply IH. intros e' He'. apply Hes. by right.
Qed.

Lemma NoDup_fmap_split {A B} (f : A → B) pre x post :
  NoDup (f <$> pre ++ x :: post) →
  (∀ y, y ∈ pre → f y ≠ f x) ∧ (∀ y, y ∈ post → f y ≠ f x).
Proof.
  rewrite fmap_app, fmap_cons. intros Hnd.
  apply NoDup_app in Hnd as (_ & Hpre & Hpost).
  apply NoDup_cons in Hpost as [Hx _]. split.
  - intros y Hy Heq. apply (Hpre (f x)); [| left].
    rewrite <- Heq. apply list_elem_of_fmap. eauto.
  - intros y Hy Heq. apply Hx. rewrite <- Heq. apply list_elem_of_fmap. eauto.
Qed.

(** What a successful call for a local module that was not yet in the
    registry starts from: the new, empty module is entered, and the loop
    over the exports runs. *)
Lemma fetchAstModuleBySourceFile_local_start fuel sf spec T T' r :
  fetchAstModuleBySourceFile P fuel sf spec T = (T', Ok r) →
  _astModulesBySourceFile T !! sf = None →
  isLocalSpecifier P spec →
  ∃ fuel' moduleSymbol u,
    fuel = S fuel' ∧ r = length (modules T) ∧
    getSymbolForDeclaration P sf = Some moduleSymbol ∧
    forEach (default [] (sym_exports P moduleSymbol))
      (collectLocalExport P (fetchAstModuleBySourceFile P fuel') fuel' r)
      (with_bySourceFile (<[sf := r]>)
         (with_modules (λ ms, ms ++
            [ {| sourceFile := sf; externalModulePath := None;
                 exportedSymbols := ∅; starExportedModules := [] |} ]) T))
    = (T', Ok u).
Proof.
  destruct fuel as [| fuel]; simpl; [done |].
  unfold fetchAstModuleBySourceFile_body. intros H Hmiss Hlocal.
  run H.
  all: unfold isLocalSpecifier in Hlocal; simplify_eq/=.
  all: unfold populateLocalModule in *.
  all: try match goal with
       | Hb : negb ?b = true, Hl : ?b = true |- _ => rewrite Hl in Hb; discriminate
       end.
  all: match goal with
       | Hp : match getSymbolForDeclaration P ?x with _ => _ end _ = _ |- _ =>
           destruct (getSymbolForDeclaration P x) as [ms |] eqn:Hms; [| done]
       end.
  all: match goal with
       | Hf : forEach _ _ ?T0 = (_, Ok ?u) |- _ =>
           exists fuel, ms, u; split_and!; done
       end.
Qed.

(** Every direct export of a local module is collected while the module
    is resolved, and with distinct export names the binding that its
    collection finds is empty and the binding that it leaves is the one of
    the returned entry. *)
Lemma direct_export_collected fuel sf spec T T' r e :
  fetchAstModuleBySourceFile P fuel sf spec T = (T', Ok r) →
  _astModulesBySourceFile T !! sf = None →
  isLocalSpecifier P spec →
  directExport P sf e →
  ∃ fuel' T1 T2 md2 md',
    fuel = S fuel' ∧ extends T T1 ∧ extends T2 T' ∧
    _collectExportForAstModule P (fetchAstModuleBySourceFile P fuel') fuel' r e T1
    = (T2, Ok tt) ∧
    modules T2 !! r = Some md2 ∧ modules T' !! r = Some md' ∧
    (distinctExportNames P sf →
     export_is r (sym_name P e) None T1 ∧
     exportedSymbols md' !! sym_name P e = exportedSymbols md2 !! sym_name P e).
Proof.
  intros H Hmiss Hlocal (ms & exps & Hms & Hexps & He & Hstar).
  destruct (fetchAstModuleBySourceFile_local_start _ _ _ _ _ _ H Hmiss Hlocal)
    as (fuel' & ms' & u & -> & Hr & Hms' & Hloop).
  assert (ms' = ms) as -> by congruence.
  rewrite Hexps in Hloop. simpl in Hloop.
  apply list_elem_of_split in He as (pre & post & ->).
  destruct (forEach_split _ _ _ _ _ _ _ Hloop) as (T1 & T2 & Hpre & Hbody & Hpost).
  set (T0 := with_bySourceFile (<[sf := r]>)
               (with_modules (λ ms0, ms0 ++
                  [ {| sourceFile := sf; externalModulePath := None;
                       exportedSymbols := ∅; starExportedModules := [] |} ]) T)) in *.
  assert (extends T T0) as Hext0.
  { split; simpl; try done; try (by apply insert_subseteq);
      apply heap_extends_app; [apply _ | reflexivity]. }
  assert (∀ es X X' o,
            forEach es (collectLocalExport P (fetchAstModuleBySourceFile P fuel') fuel' r)
              X = (X', o) → extends X X') as Hmono.
  { intros es X X' o Hrun.
    eapply (keeps_run (extends X)); [| reflexivity | exact Hrun].
    apply keeps_forEach. intros z. apply monotone_keeps, monotone_collectLocalExport. }
  pose proof (Hmono _ _ _ _ Hpre) as Hext1.
  pose proof (Hmono _ _ _ _ Hpost) as Hext2.
  pose proof (monotone_run _ _ _ _ (monotone_collectLocalExport P _ _ _ _) Hbody) as Hext12.
  unfold collectLocalExport in Hbody. rewrite bool_decide_eq_false_2 in Hbody by done.
  assert (modules T0 !! r = Some {| sourceFile := sf; externalModulePath := None;
                                    exportedSymbols := ∅; starExportedModules := [] |})
    as Hmd0.
  { subst T0 r. simpl. by apply list_lookup_middle. }
  assert (extends T0 T2) as Hext02 by (by etrans).
  destruct (ext_modules _ _ Hext02 _ _ Hmd0) as (md2 & Hmd2 & _).
  destruct (ext_modules _ _ Hext2 _ _ Hmd2) as (md' & Hmd' & _).
  exists fuel', T1, T2, md2, md'. split_and!; try done; [by etrans |].
  intros Hnames. specialize (Hnames _ _ Hms Hexps).
  apply NoDup_fmap_split in Hnames as [Hnpre Hnpost]. split.
  - eapply (keeps_run _ _ _ _ _ (export_is_forEach r _ None fuel' fuel' r pre Hnpre));
      [| exact Hpre].
    eexists. split; [exact Hmd0 | done].
  - assert (export_is r (sym_name P e) (exportedSymbols md2 !! sym_name P e) T')
      as (md'' & Hmd'' & Hv).
    { eapply (keeps_run _ _ _ _ _ (export_is_forEach r _ _ fuel' fuel' r post Hnpost));
        [| exact Hpost].
      by exists md2. }
    unfold on_modules in Hmd''. congruence.
Qed.
End ExportBindings.

Section Eager.
Context (P : TsProgram).

(** An alias chain that is longer than the loop has steps uses them up. *)
Lemma whileTrue_aliasChain_outOfFuel recur n steps fuel m e c t T :
  aliasChain P n c t → steps ≤ n →
  whileTrue P recur steps fuel m e c T = (T, OutOfFuel).
Proof.
  intros Hchain. revert steps.
  induction Hchain as [c Hplain Hend | n c a t Hplain Halias Hnext Hne Hchain IH];
    intros steps Hsteps; (destruct steps as [| steps]; [done |]); [lia |].
  cbn [whileTrue]. unfold bind at 1.
  rewrite (forCurrentDeclarations_notReexported P recur fuel m e _ T Hplain).
  apply Z.eqb_neq in Halias. rewrite Halias, Hnext.
  rewrite bool_decide_eq_false_2 by done. apply IH. lia.
Qed.

(** C3, amended.  When [fetchAstModuleBySourceFile] returns the new entry
    of a local module, all its exports are resolved.  Every direct export
    was collected by [_collectExportForAstModule] during the call, and the
    binding that its collection left is the binding of the returned entry.
    So an export whose aliases end at a symbol that passes the filters is
    bound to the node of that symbol, and one whose aliases end at a
    filtered symbol is not bound; an export that is re-exported from
    another module is bound to the node that [_getExportOfAstModule] found
    in that module, which was resolved for it.  And every target of an
    [export * from] declaration of the module is resolved too: the target
    has an entry of its own in the registry, and that entry is listed in
    [starExportedModules].  Wildcard targets are resolved eagerly, not on
    lookup.  (The bindings are exact where the exports of the module have
    distinct names, as the entries of a map have.) *)
Theorem fetchAstModuleBySourceFile_eager fuel sf spec T T' r :
  fetchAstModuleBySourceFile P fuel sf spec T = (T', Ok r) →
  _astModulesBySourceFile T !! sf = None →
  isLocalSpecifier P spec →
  ∃ fuel' md,
    fuel = S fuel' ∧ modules T' !! r = Some md ∧ sourceFile md = sf ∧
    (∀ e, directExport P sf e →
       ∃ T1 T2 md2,
         extends T T1 ∧ extends T2 T' ∧
         _collectExportForAstModule P (fetchAstModuleBySourceFile P fuel') fuel' r e T1
         = (T2, Ok tt) ∧
         modules T2 !! r = Some md2 ∧
         (distinctExportNames P sf →
          exportedSymbols md !! sym_name P e = exportedSymbols md2 !! sym_name P e)) ∧
    (∀ e n t, directExport P sf e → aliasChain P n e t →
       (¬ filteredOut P t →
        ∃ a, _astSymbolsBySymbol T' !! t = Some a ∧
             is_Some (exportedSymbols md !! sym_name P e) ∧
             (distinctExportNames P sf →
              exportedSymbols md !! sym_name P e = Some a)) ∧
       (filteredOut P t → distinctExportNames P sf →
        exportedSymbols md !! sym_name P e = None)) ∧
    (∀ e d rest ed X spec' file msf,
       directExport P sf e →
       sym_declarations P e = Some (d :: rest) →
       findFirstParent P d ExportDeclaration = Some ed →
       node_kind P d = ExportSpecifier →
       default (exportSpecifier_name P d) (exportSpecifier_propertyName P d) = X →
       getModuleSpecifier P ed = Some spec' → spec' ≠ "" →
       getResolvedModule P (node_getSourceFile P ed) spec' = Some file →
       program_getSourceFile P file = Some msf →
       ∃ tm a Tm,
         _astModulesBySourceFile T' !! msf = Some tm ∧
         extends T Tm ∧ extends Tm T' ∧
         _getExportOfAstModule fuel' X tm Tm = (Tm, Ok a) ∧
         is_Some (exportedSymbols md !! sym_name P e) ∧
         (distinctExportNames P sf →
          exportedSymbols md !! sym_name P e = Some a)) ∧
    (∀ target, wildcardTarget P sf target →
       ∃ tm, _astModulesBySourceFile T' !! target = Some tm ∧
             tm ∈ starExportedModules md).
Proof.
  intros H Hmiss Hlocal.
  destruct (fetchAstModuleBySourceFile_local_run P _ _ _ _ _ _ H Hmiss Hlocal)
    as (fuel' & ms & T0 & u & -> & Hms & Hext0 & (md0 & Hmd0 & Hsf0) & Hloop).
  assert (extends T0 T') as Hext0'.
  { eapply (keeps_run (extends T0)); [| reflexivity | exact Hloop].
    apply keeps_forEach. intros z. apply monotone_keeps, monotone_collectLocalExport. }
  destruct (ext_modules _ _ Hext0' _ _ Hmd0) as (md & Hmd & Hsf & _).
  exists fuel', md. split_and!; try done; [congruence | ..].
  - intros e He.
    destruct (direct_export_collected P _ _ _ _ _ _ e H Hmiss Hlocal He)
      as (fuel0 & T1 & T2 & md2 & md' & [= <-] & Hext1 & Hext2 & Hc & Hmd2 & Hmd' & Hst).
    exists T1, T2, md2. split_and!; try done.
    intros Hnames. destruct (Hst Hnames) as [_ Heq]. congruence.
  - intros e n t He Hchain.
    destruct (direct_export_collected P _ _ _ _ _ _ e H Hmiss Hlocal He)
      as (fuel0 & T1 & T2 & md2 & md' & [= <-] & Hext1 & Hext2 & Hc & Hmd2 & Hmd' & Hst).
    assert (md' = md) as -> by congruence.
    assert (n < fuel') as Hfuel.
    { destruct (decide (n < fuel')) as [| Hge]; [done |].
      unfold _collectExportForAstModule in Hc.
      rewrite (whileTrue_aliasChain_outOfFuel _ n fuel' _ _ _ _ t T1 Hchain) in Hc by lia.
      done. }
    unfold _collectExportForAstModule in Hc.
    rewrite (whileTrue_aliasChain P _ n fuel' fuel' r e e t T1 Hchain Hfuel) in Hc.
    unfold collectNormalDeclaration in Hc. split.
    + intros Hpass. run Hc.
      * match goal with
        | Hf : _fetchAstSymbol _ _ _ _ _ _ = (_, Ok (Some ?a)) |- _ =>
            apply fetchAstSymbol_cached in Hf; exists a
        end.
        destruct (exportedSymbols_set_run _ _ _ _ _ _ Hc) as (md3 & Hmd3 & Hname & Hsame).
        assert (md3 = md2) as -> by congruence.
        destruct (ext_modules _ _ Hext2 _ _ Hmd2) as (md4 & Hmd4 & _ & Hdom & _).
        assert (md4 = md) as -> by congruence.
        split_and!.
        -- eapply lookup_weaken; [| apply (ext_bySymbol _ _ Hext2)]. by rewrite Hsame.
        -- apply elem_of_dom, Hdom, elem_of_dom. by eexists.
        -- intros Hnames. destruct (Hst Hnames) as [_ ->]. done.
      * match goal with
        | Hf : _fetchAstSymbol _ _ _ _ _ _ = (_, Ok None) |- _ =>
            apply fetchAstSymbol_None in Hf as [_ Hf]
        end.
        by destruct Hpass.
    + intros Hfiltered Hnames. destruct (Hst Hnames) as [(md1 & Hmd1 & Hnone) ->].
      destruct fuel' as [| fuel0]; [lia |].
      unfold bind in Hc.
      rewrite (fetchAstSymbol_filtered P fuel0 t true None T1 Hfiltered) in Hc.
      unfold ret in Hc. injection Hc as <-.
      unfold on_modules in Hmd1. congruence.
  - intros e d rest ed X spec' file msf He Hdecls Hed Hkind HX Hspec Hne Hres Hfile.
    destruct (direct_export_collected P _ _ _ _ _ _ e H Hmiss Hlocal He)
      as (fuel0 & T1 & T2 & md2 & md' & [= <-] & Hext1 & Hext2 & Hc & Hmd2 & Hmd' & Hst).
    assert (md' = md) as -> by congruence.
    unfold _collectExportForAstModule in Hc.
    destruct fuel' as [| fuel0]; [done |].
    cbn [whileTrue] in Hc. rewrite Hdecls in Hc.
    cbn [default from_option id forCurrentDeclarations] in Hc.
    rewrite Hed, bool_decide_eq_true_2, HX in Hc by done.
    unfold _fetchSpecifierAstModule in Hc. rewrite Hspec in Hc.
    destruct spec' as [| c spec']; [done |]. rewrite Hres, Hfile in Hc.
    run Hc.
    match goal with
    | Hg : _getExportOfAstModule _ _ _ ?X1 = (?X2, _) |- _ =>
        pose proof (getExportOfAstModule_frame _ _ _ _ _ _ Hg); subst X2
    end.
    match goal with
    | Hf : fetchAstModuleBySourceFile _ _ _ _ _ = (?Tm, Ok ?tm),
      Hg : _getExportOfAstModule _ _ _ _ = (_, Ok ?a),
      Hs : exportedSymbols_set _ _ _ _ = (_, Ok _) |- _ =>
        pose proof (fetchAstModuleBySourceFile_cached P _ _ _ _ _ _ Hf) as Hreg;
        pose proof (monotone_run _ _ _ _
                      (monotone_fetchAstModuleBySourceFile P _ _ _) Hf) as Hextm;
        pose proof (keeps_run (extends Tm) _ _ _ _
                      (extends_exportedSymbols_set Tm _ _ _) (reflexivity _) Hs) as Hexts;
        destruct (exportedSymbols_set_run _ _ _ _ _ _ Hs) as (md3 & Hmd3 & Hname & _);
        exists tm, a, Tm
    end.
    assert (md3 = md2) as -> by congruence.
    destruct (ext_modules _ _ Hext2 _ _ Hmd2) as (md4 & Hmd4 & _ & Hdom & _).
    assert (md4 = md) as -> by congruence.
    split_and!; try done.
    + eapply lookup_weaken; [done |]. apply ext_bySourceFile. by etrans.
    + by etrans.
    + by etrans.
    + apply elem_of_dom, Hdom, elem_of_dom. by eexists.
    + intros Hnames. destruct (Hst Hnames) as [_ ->]. done.
  - intros target Htarget.
    destruct (wildcard_targets_resolved P _ _ _ _ _ _ H Hmiss Hlocal target Htarget)
      as (tm & md' & Htm & Hmd' & Hin).
    exists tm. split; [done | congruence].
Qed.
End Eager.

(** C1 at [flatProgram]: the symbol 10 is fetched twice from the empty
    table. *)
Lemma fetchAstSymbol_identity_unique_witness :
  _astSymbolsBySymbol widgetTable !! 10 = Some 0 ∧ 0 = 0 ∧ widgetTable = widgetTable.
Proof.
  apply (fetchAstSymbol_identity_unique flatProgram 2 2 10 false true None None
           new_AstSymbolTable widgetTable widgetTable widgetTable 0 0).
  - vm_compute. reflexivity.
  - reflexivity.
  - vm_compute. reflexivity.
Defined.

(** C2 at [islandTable], where the modules 0 and 1 wildcard-export each
    other: the name "b" is looked up from the module 0 with fuel 4. *)
Lemma tryGetExportOfAstModule_terminates_witness :
  (∃ out, _tryGetExportOfAstModule 4 "b" 0 ∅ islandTable = (islandTable, out) ∧
      out ≠ OutOfFuel ∧ (∀ e, out ≠ Throw e) ∧
      (∀ r visited, out = Ok (r, visited) →
         (r = None ↔
          ∀ m' md', starReachable islandTable 0 m' → modules islandTable !! m' = Some md' →
                    exportedSymbols md' !! "b" = None)) ∧
      (0 < length (modules islandTable) → modules_closed islandTable →
       ∃ r visited, out = Ok (r, visited))) ∧
  (∀ visited, 0 ∈ visited →
     _tryGetExportOfAstModule 4 "b" 0 visited islandTable
     = (islandTable, Ok (None, visited))) ∧
  (∀ P, (reachable P islandTable → modules_wf islandTable) ∧
        ∀ fuel0 sf spec T1 m,
          modules_wf islandTable →
          fetchAstModuleBySourceFile P fuel0 sf spec islandTable = (T1, Ok m) →
          modules_wf T1 ∧ m < length (modules T1)).
Proof.
  apply (tryGetExportOfAstModule_terminates 4 "b" 0 islandTable).
  simpl. lia.
Defined.

(** The lookup of "b" from the module 0 visits the modules 0 and 1 and
    finds nothing, though the module 2, which is out of reach, exports the
    name; from the module 2 it is found. *)
Example tryGetExportOfAstModule_island :
  _tryGetExportOfAstModule 4 "b" 0 ∅ islandTable = (islandTable, Ok (None, {[0; 1]})) ∧
  _tryGetExportOfAstModule 4 "b" 2 ∅ islandTable = (islandTable, Ok (Some 0, {[2]})).
Proof. split; vm_compute; reflexivity. Qed.

(** The lookup of "b" in the cycle visits both modules and finds nothing. *)
Example tryGetExportOfAstModule_cycle :
  _tryGetExportOfAstModule 3 "b" 0 ∅ cycleTable = (cycleTable, Ok (None, {[0; 1]})).
Proof. vm_compute. reflexivity. Qed.

(** C3 as stated fails: it is not so that the targets of the wildcard
    re-exports of a local module are still unresolved when
    [fetchAstModuleBySourceFile] returns.  In [starOnlyProgram], where
    this.ts has no export but [export * from './m'], resolving this.ts
    from the empty table leaves m.ts in the registry. *)
Lemma wildcard_targets_not_lazy :
  ¬ (∀ (P : TsProgram) fuel sf spec T T' r target,
       fetchAstModuleBySourceFile P fuel sf spec T = (T', Ok r) →
       _astModulesBySourceFile T !! sf = None →
       isLocalSpecifier P spec →
       wildcardTarget P sf target →
       _astModulesBySourceFile T !! target = None →
       _astModulesBySourceFile T' !! target = None).
Proof.
  intros H.
  specialize (H starOnlyProgram 5 1 None new_AstSymbolTable
                (fetchAstModuleBySourceFile starOnlyProgram 5 1 None new_AstSymbolTable).1
                0 2).
  assert ((fetchAstModuleBySourceFile starOnlyProgram 5 1 None
             new_AstSymbolTable).1.(_astModulesBySourceFile) !! 2 = None) as Hno.
  { apply H.
    - vm_compute. reflexivity.
    - reflexivity.
    - exact I.
    - exists 100, [102], 102, [12], 12, "./m"%string, "/src/m.ts"%string.
      split_and!; try reflexivity.
      + apply list_elem_of_here.
      + apply list_elem_of_here.
      + discriminate.
    - reflexivity. }
  vm_compute in Hno. discriminate Hno.
Qed.

(** C3, amended, at [exportsProgram]: this.ts resolved from the empty
    table. *)
Lemma fetchAstModuleBySourceFile_eager_witness :
  ∃ fuel' md,
    5 = S fuel' ∧ modules exportsTable !! 0 = Some md ∧ sourceFile md = 1 ∧
    (∀ e, directExport exportsProgram 1 e →
       ∃ T1 T2 md2,
         extends new_AstSymbolTable T1 ∧ extends T2 exportsTable ∧
         _collectExportForAstModule exportsProgram
           (fetchAstModuleBySourceFile exportsProgram fuel') fuel' 0 e T1
         = (T2, Ok tt) ∧
         modules T2 !! 0 = Some md2 ∧
         (distinctExportNames exportsProgram 1 →
          exportedSymbols md !! sym_name exportsProgram e
          = exportedSymbols md2 !! sym_name exportsProgram e)) ∧
    (∀ e n t, directExport exportsProgram 1 e → aliasChain exportsProgram n e t →
       (¬ filteredOut exportsProgram t →
        ∃ a, _astSymbolsBySymbol exportsTable !! t = Some a ∧
             is_Some (exportedSymbols md !! sym_name exportsProgram e) ∧
             (distinctExportNames exportsProgram 1 →
              exportedSymbols md !! sym_name exportsProgram e = Some a)) ∧
       (filteredOut exportsProgram t → distinctExportNames exportsProgram 1 →
        exportedSymbols md !! sym_name exportsProgram e = None)) ∧
    (∀ e d rest ed X spec' file msf,
       directExport exportsProgram 1 e →
       sym_declarations exportsProgram e = Some (d :: rest) →
       findFirstParent exportsProgram d ExportDeclaration = Some ed →
       node_kind exportsProgram d = ExportSpecifier →
       default (exportSpecifier_name exportsProgram d)
               (exportSpecifier_propertyName exportsProgram d) = X →
       getModuleSpecifier exportsProgram ed = Some spec' → spec' ≠ "" →
       getResolvedModule exportsProgram (node_getSourceFile exportsProgram ed) spec'
       = Some file →
       program_getSourceFile exportsProgram file = Some msf →
       ∃ tm a Tm,
         _astModulesBySourceFile exportsTable !! msf = Some tm ∧
         extends new_AstSymbolTable Tm ∧ extends Tm exportsTable ∧
         _getExportOfAstModule fuel' X tm Tm = (Tm, Ok a) ∧
         is_Some (exportedSymbols md !! sym_name exportsProgram e) ∧
         (distinctExportNames exportsProgram 1 →
          exportedSymbols md !! sym_name exportsProgram e = Some a)) ∧
    (∀ target, wildcardTarget exportsProgram 1 target →
       ∃ tm, _astModulesBySourceFile exportsTable !! target = Some tm ∧
             tm ∈ starExportedModules md).
Proof.
  apply (fetchAstModuleBySourceFile_eager exportsProgram 5 1 None new_AstSymbolTable
           exportsTable 0).
  - vm_compute. reflexivity.
  - reflexivity.
  - exact I.
Defined.

(** The entry of this.ts in [exportsTable]: the class [A] and the
    re-export [Y] are bound, to the nodes of [A] and of the class [X] of
    m.ts, the alias [G] of an ambient declaration is omitted, and m.ts is
    resolved and listed as a wildcard target.  The exports of this.ts
    have distinct names. *)
Example fetchAstModuleBySourceFile_eager_entry :
  modules exportsTable !! 0
  = Some {| sourceFile := 1; externalModulePath := None;
            exportedSymbols := {[ "A" := 0; "Y" := 1 ]};
            starExportedModules := [1] |} ∧
  _astSymbolsBySymbol exportsTable !! 103 = Some 0 ∧
  _astSymbolsBySymbol exportsTable !! 201 = Some 1 ∧
  _astModulesBySourceFile exportsTable !! 2 = Some 1 ∧
  distinctExportNames exportsProgram 1.
Proof.
  split_and!; try (vm_compute; reflexivity).
  intros ms exps Hms Hexps. vm_compute in Hms. injection Hms as <-.
  vm_compute in Hexps. injection Hexps as <-.
  apply (bool_decide_unpack _). vm_compute. exact I.
Qed.

(** C4 as stated fails: a call that finds a node that is not imported
    does not set its flag.  In [flatProgram], fetching the symbol 10 again
    without import options returns its node, still not imported. *)
Lemma imported_flag_not_set :
  ¬ (∀ (P : TsProgram) fuel s a o T T' r,
       _fetchAstSymbol P fuel s a o T = (T', Ok (Some r)) →
       symbol_imported (symbols T) r = Some false →
       symbol_imported (symbols T') r = Some true).
Proof.
  intros H.
  specialize (H flatProgram 2 10 true None widgetTable widgetTable 0).
  assert (symbol_imported (symbols widgetTable) 0 = Some true) as Habs.
  { apply H; vm_compute; reflexivity. }
  vm_compute in Habs. discriminate Habs.
Qed.

(** C4, amended, at [analysisProgram]: the class [C], nested in the
    namespace [R], is fetched as the export C of pkg2 from the empty
    table; its node is built below the node of [R], which is not imported,
    and the call throws. *)
Lemma fetchAstSymbol_import_consistency_witness :
  (∀ r, is_Some (Some nestedImport) → 9 ≠ 0 →
     Z.land (sym_flags analysisProgram 802) filteredFlags = 0%Z →
     isAmbient analysisProgram 802 = false →
     _astSymbolsBySymbol new_AstSymbolTable !! 802 = Some r →
     symbol_imported (symbols new_AstSymbolTable) r = Some false →
     failedImportTable = new_AstSymbolTable ∧
     ∃ node, symbols new_AstSymbolTable !! r = Some node ∧
       @Throw (option nat) (InternalError_ImportedAfterNonImported "C")
       = Throw (InternalError_ImportedAfterNonImported (localName node))) ∧
  (∀ opts r d0 ds, Some nestedImport = Some opts → 9 ≠ 0 →
     Z.land (sym_flags analysisProgram 802) filteredFlags = 0%Z →
     isAmbient analysisProgram 802 = false →
     _astSymbolsBySymbol new_AstSymbolTable !! 802 = None →
     sym_declarations analysisProgram 802 = Some (d0 :: ds) →
     _astSymbolsByImportKey new_AstSymbolTable !! key (new_AstImport opts) = Some r →
     symbol_imported (symbols new_AstSymbolTable) r = Some false →
     failedImportTable = with_bySymbol (<[802 := r]>) new_AstSymbolTable ∧
     ∃ node, symbols new_AstSymbolTable !! r = Some node ∧
       @Throw (option nat) (InternalError_ImportedAfterNonImported "C")
       = Throw (InternalError_ImportedAfterNonImported (localName node))) ∧
  (∀ opts fuel' d0 ds pd ps T1 p, Some nestedImport = Some opts → 9 = S fuel' →
     Z.land (sym_flags analysisProgram 802) filteredFlags = 0%Z →
     isAmbient analysisProgram 802 = false →
     _astSymbolsBySymbol new_AstSymbolTable !! 802 = None →
     _astSymbolsByImportKey new_AstSymbolTable !! key (new_AstImport opts) = None →
     sym_declarations analysisProgram 802 = Some (d0 :: ds) →
     ¬ (ds = [] ∧ node_kind analysisProgram d0 = SourceFile) →
     isAedocSupportedFor analysisProgram
       (sourceFile_fileName analysisProgram (node_getSourceFile analysisProgram d0))
     = true →
     Forall (λ d, isAstDeclaration analysisProgram (node_kind analysisProgram d) = true)
       (d0 :: ds) →
     _tryFindFirstAstDeclarationParent analysisProgram fuel' d0 new_AstSymbolTable
     = (new_AstSymbolTable, Ok (Some pd)) →
     getSymbolForDeclaration analysisProgram pd = Some ps →
     _fetchAstSymbol analysisProgram fuel' ps true None new_AstSymbolTable
     = (T1, Ok (Some p)) →
     symbol_imported (symbols T1) p = Some false →
     (∀ d, d ∈ d0 :: ds →
        ∃ pd', _tryFindFirstAstDeclarationParent analysisProgram fuel' d new_AstSymbolTable
               = (new_AstSymbolTable, Ok (Some pd')) ∧
               is_Some (_astDeclarationsByDeclaration T1 !! pd')) →
     @Throw (option nat) (InternalError_ImportedAfterNonImported "C")
     = Throw (InternalError_ImportedAfterNonImported (sym_name analysisProgram 802)) ∧
     _astSymbolsBySymbol failedImportTable !! 802 = Some (length (symbols T1)) ∧
     _astSymbolsByImportKey failedImportTable !! key (new_AstImport opts)
     = Some (length (symbols T1)) ∧
     symbol_imported (symbols failedImportTable) (length (symbols T1)) = Some false) ∧
  (∀ r, is_Some (Some nestedImport) →
     @Throw (option nat) (InternalError_ImportedAfterNonImported "C") = Ok (Some r) →
     symbol_imported (symbols failedImportTable) r = Some true) ∧
  (∀ r b, symbol_imported (symbols new_AstSymbolTable) r = Some b →
     symbol_imported (symbols failedImportTable) r = Some b).
Proof.
  apply (fetchAstSymbol_import_consistency analysisProgram 9 802 true (Some nestedImport)
           new_AstSymbolTable failedImportTable
           (Throw (InternalError_ImportedAfterNonImported "C"))).
  vm_compute. reflexivity.
Defined.

(** The three ways to a node that is not imported, at [analysisProgram]:
    the class [C], nested in the namespace [R], is fetched as the export C
    of pkg2 from the empty table and is built below the node of [R], which
    has no import; the call throws and leaves the node of [C] under the
    import key.  The interface [H], fetched with the same options next,
    finds that node under the key, and [C] itself finds it in the cache of
    symbols: both calls throw. *)
Example fetchAstSymbol_import_consistency_paths :
  _fetchAstSymbol analysisProgram 9 802 true (Some nestedImport) new_AstSymbolTable
  = (failedImportTable, Throw (InternalError_ImportedAfterNonImported "C")) ∧
  _fetchAstSymbol analysisProgram 9 803 true (Some nestedImport) failedImportTable
  = (with_bySymbol (<[803 := 1]>) failedImportTable,
     Throw (InternalError_ImportedAfterNonImported "C")) ∧
  _fetchAstSymbol analysisProgram 9 802 true (Some nestedImport) failedImportTable
  = (failedImportTable, Throw (InternalError_ImportedAfterNonImported "C")).
Proof. split_and!; vm_compute; reflexivity. Qed.

(** C5 at [reexportProgram]: the export [Y] of this.ts, declared by
    [export { X as Y } from './m'], is bound to the node of [X]. *)
Lemma collectExportForAstModule_reexport_witness :
  ∃ Tm m a,
    fetchAstModuleBySourceFile reexportProgram 4 2 (Some "./m") enteredTable
    = (Tm, Ok m) ∧
    _getExportOfAstModule 4 "X" m Tm = (Tm, Ok a) ∧
    exportedSymbols_set 0 "Y" a Tm
    = ((_collectExportForAstModule reexportProgram
          (fetchAstModuleBySourceFile reexportProgram 4) 4 0 101 enteredTable).1, Ok tt) ∧
    (∃ md,
       modules (_collectExportForAstModule reexportProgram
                  (fetchAstModuleBySourceFile reexportProgram 4) 4 0 101 enteredTable).1
         !! 0 = Some md ∧
       exportedSymbols md !! "Y" = Some a) ∧
    ∀ fuel',
      _getExportOfAstModule (S fuel') "Y" 0
        (_collectExportForAstModule reexportProgram
           (fetchAstModuleBySourceFile reexportProgram 4) 4 0 101 enteredTable).1
      = ((_collectExportForAstModule reexportProgram
            (fetchAstModuleBySourceFile reexportProgram 4) 4 0 101 enteredTable).1, Ok a).
Proof.
  apply (collectExportForAstModule_reexport reexportProgram 4 4 0 101 enteredTable _
           11 [] 10 "X" "./m" "/src/m.ts" 2);
    first [ vm_compute; reflexivity | discriminate ].
Defined.


(** The same through [fetchAstModuleBySourceFile] alone: the two copies of
    the package widgets, resolved after widgets-core, export Widget as the
    nodes 0 and 1, though both exports carry the import of Widget from
    widgets. *)
Example import_identity_not_merged_modules :
  ∃ m1 m2,
    modules widgetPackagesTable !! 1 = Some m1 ∧
    modules widgetPackagesTable !! 2 = Some m2 ∧
    externalModulePath m1 = Some "widgets" ∧ externalModulePath m2 = Some "widgets" ∧
    exportedSymbols m1 !! "Widget" = Some 0 ∧
    exportedSymbols m2 !! "Widget" = Some 1 ∧
    _astSymbolsBySymbol widgetPackagesTable !! 10 = Some 0 ∧
    _astSymbolsBySymbol widgetPackagesTable !! 11 = Some 1.
Proof. eexists _, _. vm_compute. repeat split. Qed.


(** C7 at [analysisProgram]: [f] is analyzed twice. *)
Lemma analyze_idempotent_witness :
  analyze analysisProgram 1 1 (analyze analysisProgram 9 1 fetchedTable).1
  = ((analyze analysisProgram 9 1 fetchedTable).1, Ok tt).
Proof.
  apply (analyze_idempotent analysisProgram 9 0 1 fetchedTable
           (analyze analysisProgram 9 1 fetchedTable).1).
  - vm_compute. reflexivity.
  - reflexivity.
Defined.

(** C9 at [analysisProgram]: [tryGetAstSymbol] on the class [C], which is
    nested in the namespace [R], in the empty table. *)
Lemma tryGetAstSymbol_constructs_witness :
  (∀ fuel' s' b b' o T0,
     _fetchAstSymbol analysisProgram fuel' s' b o T0
     = _fetchAstSymbol analysisProgram fuel' s' b' o T0) ∧
  (∀ T' r, tryGetAstSymbol analysisProgram 9 802 new_AstSymbolTable = (T', Ok r) →
     ∃ r0, r = Some r0 ∧ length (symbols new_AstSymbolTable) ≤ r0 ∧
       (∃ node, symbols T' !! r0 = Some node ∧ followedSymbol node = 802 ∧
                localName node = sym_name analysisProgram 802 ∧ astImport node = None) ∧
       _astSymbolsBySymbol T' !! 802 = Some r0 ∧
       ∀ d, d ∈ [81] → declared T' (length (declarations new_AstSymbolTable)) r0 d) ∧
  (_tryFindFirstAstDeclarationParent analysisProgram 8 81 new_AstSymbolTable
   = (new_AstSymbolTable, Ok None) →
   ∃ T', tryGetAstSymbol analysisProgram 9 802 new_AstSymbolTable
         = (T', Ok (Some (length (symbols new_AstSymbolTable)))) ∧
     (∃ node, symbols T' !! length (symbols new_AstSymbolTable) = Some node ∧
              followedSymbol node = 802 ∧ localName node = sym_name analysisProgram 802 ∧
              astImport node = None ∧ parentAstSymbol node = None) ∧
     length (symbols T') = S (length (symbols new_AstSymbolTable)) ∧
     _astSymbolsBySymbol T' !! 802 = Some (length (symbols new_AstSymbolTable)) ∧
     ∀ d, d ∈ [81] →
       declared T' (length (declarations new_AstSymbolTable))
         (length (symbols new_AstSymbolTable)) d) ∧
  (∀ pd ps T1 p,
     ¬ ([] = @nil nat ∧ node_kind analysisProgram 81 = SourceFile) →
     _tryFindFirstAstDeclarationParent analysisProgram 8 81 new_AstSymbolTable
     = (new_AstSymbolTable, Ok (Some pd)) →
     getSymbolForDeclaration analysisProgram pd = Some ps →
     tryGetAstSymbol analysisProgram 8 ps new_AstSymbolTable = (T1, Ok (Some p)) →
     is_Some (symbols T1 !! p) →
     (∀ d, d ∈ [81] →
        ∃ pd', _tryFindFirstAstDeclarationParent analysisProgram 8 d new_AstSymbolTable
               = (new_AstSymbolTable, Ok (Some pd')) ∧
               is_Some (_astDeclarationsByDeclaration T1 !! pd')) →
     ∃ T', tryGetAstSymbol analysisProgram 9 802 new_AstSymbolTable
           = (T', Ok (Some (length (symbols T1)))) ∧
       (∃ node, symbols T' !! length (symbols T1) = Some node ∧
                followedSymbol node = 802 ∧ localName node = sym_name analysisProgram 802 ∧
                astImport node = None ∧ parentAstSymbol node = Some p) ∧
       length (symbols T') = S (length (symbols T1)) ∧
       _astSymbolsBySymbol T' !! 802 = Some (length (symbols T1)) ∧
       ∀ d, d ∈ [81] →
         declared T' (length (declarations T1)) (length (symbols T1)) d).
Proof.
  apply (tryGetAstSymbol_constructs analysisProgram 8 802 new_AstSymbolTable 81 []).
  - reflexivity.
  - reflexivity.
  - reflexivity.
  - reflexivity.
  - repeat constructor.
Defined.

(** [tryGetAstSymbol] on the nested class [C] in the empty table builds
    two symbol nodes, for the namespace [R] and for [C], and their two
    declaration nodes, and enters them in the caches. *)
Example tryGetAstSymbol_constructs_nested :
  ∃ T', tryGetAstSymbol analysisProgram 9 802 new_AstSymbolTable = (T', Ok (Some 1)) ∧
    length (symbols T') = 2 ∧ length (declarations T') = 2 ∧
    _astSymbolsBySymbol T' !! 801 = Some 0 ∧ _astSymbolsBySymbol T' !! 802 = Some 1 ∧
    _astDeclarationsByDeclaration T' !! 80 = Some 0 ∧
    _astDeclarationsByDeclaration T' !! 81 = Some 1.
Proof. eexists. split_and!; vm_compute; reflexivity. Qed.



(** The three outcomes at [ambientTable]: the alias [G] of m.ts is
    omitted; the export [G] of the package globals is unsupported; the
    re-export of [G] by this.ts cannot be analyzed. *)
Example unresolved_export_outcomes :
  _collectExportForAstModule reexportAmbientProgram
    (fetchAstModuleBySourceFile reexportAmbientProgram 4) 4 1 201 ambientTable
  = (ambientTable, Ok tt) ∧
  collectExternalExport reexportAmbientProgram 4 2 301 ambientTable
  = (ambientTable, Throw (Error_UnsupportedExport "G")) ∧
  _collectExportForAstModule reexportAmbientProgram
    (fetchAstModuleBySourceFile reexportAmbientProgram 4) 4 0 101 ambientTable
  = (ambientTable, Throw (InternalError_UnableToAnalyzeExport "G")).
Proof. split_and!; vm_compute; reflexivity. Qed.

(** A heap without nominal symbols satisfies [nominal_roots]. *)
Lemma nominal_roots_none ss :
  Forall (λ s, nominal s = false) ss → nominal_roots ss.
Proof.
  intros Hall i s Hi Hn.
  rewrite Forall_forall in Hall.
  apply list_elem_of_lookup_2 in Hi. apply Hall in Hi. congruence.
Qed.

(** C8 as stated fails: [analyze] on a symbol without an import need not
    analyze the references recorded under its root.  In [namespaceTable]
    the imported namespace [R] is analyzed already; its member class [C]
    has no import of its own and references [H], which is not imported.
    [analyze] on [C] returns at once, and [H] stays unanalyzed. *)
Lemma analyze_skips_nested_references :
  ¬ (∀ (P : TsProgram) fuel astSymbol s T T',
       symbols T !! astSymbol = Some s →
       astImport s = None →
       analyze P fuel astSymbol T = (T', Ok tt) →
       ∀ root d0 d x r,
         symbols T' !! rootAstSymbol s = Some root → d0 ∈ astDeclarations root →
         subtree (declarations T') d0 d →
         declarations T' !! d = Some x → r ∈ referencedAstSymbols x →
         symbol_imported (symbols T') r = Some false →
         symbol_analyzed (symbols T') r = Some true).
Proof.
  intros H.
  specialize (H analysisProgram 1 1 cNode namespaceTable namespaceTable).
  assert (symbol_analyzed (symbols namespaceTable) 2 = Some true) as Habs.
  { eapply (H ltac:(vm_compute; reflexivity) eq_refl ltac:(vm_compute; reflexivity)
              _ 0 1 _ 2).
    - vm_compute. reflexivity.
    - apply list_elem_of_here.
    - eapply subtree_child; [| | apply subtree_here].
      + vm_compute. reflexivity.
      + apply list_elem_of_here.
    - vm_compute. reflexivity.
    - apply list_elem_of_here.
    - vm_compute. reflexivity. }
  vm_compute in Habs. discriminate Habs.
Qed.

(** C8, amended, at [analysisProgram]: [f] is analyzed in
    [fetchedTable]. *)
Lemma analyze_expands_references_witness :
  ∃ T1,
    analyzeRoot analysisProgram 8 (rootAstSymbol fNode) fetchedTable = (T1, Ok tt) ∧
    (astImport fNode = None →
       ∀ root d0 d x r,
         symbols T1 !! rootAstSymbol fNode = Some root → d0 ∈ astDeclarations root →
         subtree (declarations T1) d0 d →
         declarations T1 !! d = Some x → r ∈ referencedAstSymbols x →
         symbol_imported (symbols T1) r = Some false →
         symbol_analyzed (symbols analyzedTable) r = Some true) ∧
    (is_Some (astImport fNode) → analyzedTable = T1) ∧
    (∀ r sr,
       symbols analyzedTable !! r = Some sr →
       symbol_imported (symbols analyzedTable) r = Some true →
       symbol_analyzed (symbols analyzedTable) r = Some true →
       (∃ root0, symbols fetchedTable !! rootAstSymbol sr = Some root0 ∧
                 _analyzed root0 = true) ∨
       rootAstSymbol sr = rootAstSymbol fNode).
Proof.
  apply (analyze_expands_references analysisProgram 8 1 fNode fetchedTable analyzedTable).
  - apply nominal_roots_none. vm_compute. repeat constructor.
  - vm_compute. reflexivity.
  - vm_compute. reflexivity.
  - reflexivity.
  - vm_compute. reflexivity.
Defined.

(** The example tables are states of a run. *)
Lemma widgetTable_reachable : reachable flatProgram widgetTable.
Proof. apply reachable_tryGetAstSymbol, reachable_new. Qed.

Lemma packageTable_reachable : reachable analysisProgram packageTable.
Proof. apply reachable_fetchAstModuleBySourceFile, reachable_new. Qed.

Lemma package2Table_reachable : reachable analysisProgram package2Table.
Proof. apply reachable_fetchAstModuleBySourceFile, reachable_new. Qed.

Lemma analyzedNamespaceTable_reachable :
  reachable analysisProgram analyzedNamespaceTable.
Proof. apply reachable_analyze, package2Table_reachable. Qed.

Lemma moduleSymbolTable_reachable : reachable reexportProgram moduleSymbolTable.
Proof. apply reachable_tryGetAstSymbol, reachable_new. Qed.

(** X2 at [reexportProgram]: m.ts is resolved a second time. *)
Lemma fetchAstModuleBySourceFile_memoized_witness :
  fetchAstModuleBySourceFile reexportProgram 1 2 None resolvedTable
  = (resolvedTable, Ok 1).
Proof.
  apply (fetchAstModuleBySourceFile_memoized reexportProgram 4 0 2 (Some "./m") None
           enteredTable resolvedTable resolvedTable 1).
  - vm_compute. reflexivity.
  - reflexivity.
Defined.

(** X3 at [namespaceExportProgram]: the resolution of this.ts throws at the
    namespace export; a second call returns the module 0. *)
Lemma fetchAstModuleBySourceFile_failure_registered_witness :
  _astModulesBySourceFile failedTable !! 1 = Some 0 ∧
  fetchAstModuleBySourceFile namespaceExportProgram 1 1 None failedTable
  = (failedTable, Ok 0).
Proof.
  apply (fetchAstModuleBySourceFile_failure_registered namespaceExportProgram 5 0 1
           None None new_AstSymbolTable failedTable
           (Error_UnimplementedExportDeclarationKind "* as ns")).
  - reflexivity.
  - vm_compute. reflexivity.
Defined.

(** X4 at [reexportProgram]: the symbol 999 has no declarations. *)
Lemma fetchAstSymbol_no_declarations_witness :
  _fetchAstSymbol reexportProgram 1 999 false None new_AstSymbolTable
  = (new_AstSymbolTable, Throw InternalError_FollowedSymbolWithNoDeclarations).
Proof.
  apply (fetchAstSymbol_no_declarations reexportProgram 0 999 false None
           new_AstSymbolTable).
  - reflexivity.
  - reflexivity.
  - reflexivity.
  - left. reflexivity.
Defined.

(** X5 at [reexportProgram]: the only declaration of the symbol 102 is an
    export declaration. *)
Lemma fetchAstSymbol_unimplemented_construct_witness :
  _fetchAstSymbol reexportProgram 1 102 false None new_AstSymbolTable
  = (new_AstSymbolTable,
     Throw (InternalError_UnimplementedLanguageFeature
              (sym_name reexportProgram 102) (node_kind reexportProgram 12))).
Proof.
  apply (fetchAstSymbol_unimplemented_construct reexportProgram 0 102 false None
           new_AstSymbolTable 12 [] [] 12 []).
  - reflexivity.
  - reflexivity.
  - reflexivity.
  - reflexivity.
  - intros [_ H]. discriminate H.
  - exact I.
  - reflexivity.
  - constructor.
  - reflexivity.
Defined.

(** X6 at [widgetTable]: the key 10. *)
Lemma filtered_symbols_have_no_node_witness :
  Z.land (sym_flags flatProgram 10) filteredFlags = 0%Z ∧
  isAmbient flatProgram 10 = false.
Proof.
  apply (filtered_symbols_have_no_node flatProgram widgetTable 10 0).
  - apply widgetTable_reachable.
  - vm_compute. reflexivity.
Defined.

(** X7 at [analysisProgram]: the identifier 83 lies in the type reference
    82, which lies in the class declaration 81. *)
Lemma tryFindFirstAstDeclarationParent_nearest_witness :
  _tryFindFirstAstDeclarationParent analysisProgram 2 83 new_AstSymbolTable
  = (new_AstSymbolTable, Ok (ancestor analysisProgram 2 83)).
Proof.
  apply (tryFindFirstAstDeclarationParent_nearest analysisProgram 2 83 1
           new_AstSymbolTable).
  - lia.
  - intros j Hj. assert (j = 0) as -> by lia. exists 82. split; reflexivity.
  - right. exists 81. split; reflexivity.
Defined.

(** X8 at [analyzedNamespaceTable]: the class declaration 81 is looked up
    under the declaration of the namespace. *)
Lemma getChildAstDeclarationByNode_found_witness :
  ∃ cd pd,
    declarations analyzedNamespaceTable !! 1 = Some cd ∧
    declarations analyzedNamespaceTable !! 0 = Some pd ∧
    _astDeclarationsByDeclaration analyzedNamespaceTable !! 81 = Some 1 ∧
    declaration cd = 81 ∧
    parent cd = Some 0 ∧
    1 ∈ children pd ∧
    symbol_analyzed (symbols analyzedNamespaceTable) (astSymbol pd) = Some true.
Proof.
  apply (getChildAstDeclarationByNode_found analysisProgram 81 0
           analyzedNamespaceTable 1).
  - apply analyzedNamespaceTable_reachable.
  - vm_compute. reflexivity.
Defined.

(** X9 at [package2Table]: the namespace [R] is analyzed. *)
Lemma analyze_ensures_analyzed_witness :
  symbol_analyzed (symbols analyzedNamespaceTable) 0 = Some true.
Proof.
  apply (analyze_ensures_analyzed analysisProgram 9 0 package2Table
           analyzedNamespaceTable).
  - apply package2Table_reachable.
  - vm_compute. reflexivity.
Defined.

(** X10 at [cycleTable]: the module 1 finds the name "a" in the module 0. *)
Lemma getExportOfAstModule_spec_witness :
  cycleTable = cycleTable ∧
  (∀ a, @Ok nat 0 = Ok a →
     ∃ m' md', starReachable cycleTable 1 m' ∧ modules cycleTable !! m' = Some md' ∧
               exportedSymbols md' !! "a" = Some a) ∧
  (∀ e, @Ok nat 0 = Throw e →
     e = InternalError_UnableToAnalyzeExport "a" ∧
     ∀ m' md', starReachable cycleTable 1 m' → modules cycleTable !! m' = Some md' →
               exportedSymbols md' !! "a" = None).
Proof.
  apply (getExportOfAstModule_spec 4 "a" 1 cycleTable cycleTable (Ok 0)).
  vm_compute. reflexivity.
Defined.

(** X11 at [moduleSymbolTable]: the module symbol of this.ts is nominal. *)
Lemma analyze_nominal_witness :
  analyze reexportProgram 1 0 moduleSymbolTable
  = (with_symbols (alter set_analyzed 0) moduleSymbolTable, Ok tt).
Proof.
  apply (analyze_nominal reexportProgram 0 0 moduleNode moduleSymbolTable).
  - apply moduleSymbolTable_reachable.
  - vm_compute. reflexivity.
  - reflexivity.
Defined.

(** X12 at [namespaceExportProgram]: the export [ns]. *)
Lemma collectExportForAstModule_unimplemented_kind_witness :
  _collectExportForAstModule namespaceExportProgram
    (fetchAstModuleBySourceFile namespaceExportProgram 4) 1 0 101 new_AstSymbolTable
  = (new_AstSymbolTable, Throw (Error_UnimplementedExportDeclarationKind "* as ns")).
Proof.
  apply (collectExportForAstModule_unimplemented_kind namespaceExportProgram
           (fetchAstModuleBySourceFile namespaceExportProgram 4) 0 0 101 [] 11 [] 10
           new_AstSymbolTable).
  - reflexivity.
  - constructor.
  - reflexivity.
  - discriminate.
Defined.

(** X13 at [analysisProgram]: the package pkg is resolved from the empty
    table. *)
Lemma fetchAstModuleBySourceFile_external_witness :
  ∃ md moduleSymbol,
    modules packageTable !! 0 = Some md ∧ sourceFile md = 3 ∧
    externalModulePath md = Some "pkg" ∧
    getSymbolForDeclaration analysisProgram 3 = Some moduleSymbol ∧
    ∀ e, e ∈ getExportsOfModule analysisProgram moduleSymbol →
      ∃ a, _astSymbolsBySymbol packageTable !! followAliases analysisProgram e = Some a ∧
           symbol_imported (symbols packageTable) a = Some true ∧
           is_Some (exportedSymbols md !! sym_name analysisProgram e).
Proof.
  apply (fetchAstModuleBySourceFile_external analysisProgram 9 3 "pkg"
           new_AstSymbolTable packageTable 0).
  - vm_compute. reflexivity.
  - reflexivity.
  - reflexivity.
Defined.

(** X14 at [analyzedNamespaceTable]. *)
Lemma caches_agree_with_nodes_witness :
  (∀ s r, _astSymbolsBySymbol analyzedNamespaceTable !! s = Some r →
     ∃ x, symbols analyzedNamespaceTable !! r = Some x ∧
          (followedSymbol x = s ∨ is_Some (astImport x))) ∧
  (∀ k r, _astSymbolsByImportKey analyzedNamespaceTable !! k = Some r →
     ∃ x i, symbols analyzedNamespaceTable !! r = Some x ∧ astImport x = Some i ∧
            key i = k) ∧
  (∀ n d, _astDeclarationsByDeclaration analyzedNamespaceTable !! n = Some d →
     ∃ x, declarations analyzedNamespaceTable !! d = Some x ∧ declaration x = n) ∧
  (∀ sf m, _astModulesBySourceFile analyzedNamespaceTable !! sf = Some m →
     ∃ x, modules analyzedNamespaceTable !! m = Some x ∧ sourceFile x = sf).
Proof.
  apply (caches_agree_with_nodes analysisProgram analyzedNamespaceTable).
  apply analyzedNamespaceTable_reachable.
Defined.

(** X15 at [analyzedNamespaceTable]: the node of the class [C]. *)
Lemma roots_are_parentless_witness :
  rootAstSymbol cNode ≤ 1 ∧
  (parentAstSymbol cNode = None ↔ rootAstSymbol cNode = 1) ∧
  ∃ root, symbols analyzedNamespaceTable !! rootAstSymbol cNode = Some root ∧
          parentAstSymbol root = None ∧
          rootAstSymbol root = rootAstSymbol cNode.
Proof.
  apply (roots_are_parentless analysisProgram analyzedNamespaceTable 1 cNode).
  - apply analyzedNamespaceTable_reachable.
  - vm_compute. reflexivity.
Defined.

(** X16 at [reexportProgram]: the class [X], which is no alias, is collected
    as an export of the module 0. *)
Lemma collectExportForAstModule_alias_witness :
  ∃ a md,
    _astSymbolsBySymbol
      (_collectExportForAstModule reexportProgram
         (fetchAstModuleBySourceFile reexportProgram 4) 4 0 201 enteredTable).1
      !! 201 = Some a ∧
    modules
      (_collectExportForAstModule reexportProgram
         (fetchAstModuleBySourceFile reexportProgram 4) 4 0 201 enteredTable).1
      !! 0 = Some md ∧
    exportedSymbols md !! sym_name reexportProgram 201 = Some a.
Proof.
  apply (collectExportForAstModule_alias reexportProgram
           (fetchAstModuleBySourceFile reexportProgram 4) 4 0 0 201 201 enteredTable).
  - apply aliasChain_break.
    + intros d Hd. apply list_elem_of_singleton in Hd as ->. exact I.
    + left. reflexivity.
  - lia.
  - intros [H | H]; [by apply H | discriminate H].
  - vm_compute. reflexivity.
Defined.

(** X17 at [cycleTable]: the module 0 exports "a" itself. *)
Lemma getExportOfAstModule_direct_wins_witness :
  _getExportOfAstModule 1 "a" 0 cycleTable = (cycleTable, Ok 0).
Proof.
  apply (getExportOfAstModule_direct_wins 0 "a" 0
           {| sourceFile := 1; externalModulePath := None;
              exportedSymbols := {[ "a" := 0 ]}; starExportedModules := [1] |}
           0 cycleTable).
  - reflexivity.
  - vm_compute. reflexivity.
Defined.

(** X18 at [analyzedNamespaceTable]. *)
Lemma declaration_parents_and_children_agree_witness :
  (∀ d x p, declarations analyzedNamespaceTable !! d = Some x → parent x = Some p →
     ∃ px, declarations analyzedNamespaceTable !! p = Some px ∧ d ∈ children px) ∧
  (∀ p px d, declarations analyzedNamespaceTable !! p = Some px → d ∈ children px →
     ∃ x, declarations analyzedNamespaceTable !! d = Some x ∧ parent x = Some p).
Proof.
  apply (declaration_parents_and_children_agree analysisProgram analyzedNamespaceTable).
  apply analyzedNamespaceTable_reachable.
Defined.

(** X19 at [reexportProgram]: the module symbol of this.ts is fetched from
    the empty table. *)
Lemma fetchAstSymbol_nominal_witness :
  ∃ T' node,
    _fetchAstSymbol reexportProgram 2 100 false None new_AstSymbolTable
    = (T', Ok (Some (length (symbols new_AstSymbolTable)))) ∧
    symbols T' !! length (symbols new_AstSymbolTable) = Some node ∧
    nominal node = true ∧ parentAstSymbol node = None ∧
    rootAstSymbol node = length (symbols new_AstSymbolTable) ∧
    astImport node = new_AstImport <$> None ∧
    ∀ d, d ∈ [1] →
      declared T' (length (declarations new_AstSymbolTable))
        (length (symbols new_AstSymbolTable)) d.
Proof.
  apply (fetchAstSymbol_nominal reexportProgram 1 100 false None new_AstSymbolTable 1 []).
  - reflexivity.
  - reflexivity.
  - reflexivity.
  - reflexivity.
  - exact I.
  - left. split; reflexivity.
Defined.

(** X20 at [widgetTable]: the node of the class 10. *)
Lemma nodes_named_after_symbols_witness :
  localName widgetNode = sym_name flatProgram (followedSymbol widgetNode) ∧
  Z.land (sym_flags flatProgram (followedSymbol widgetNode)) filteredFlags = 0%Z ∧
  isAmbient flatProgram (followedSymbol widgetNode) = false.
Proof.
  apply (nodes_named_after_symbols flatProgram widgetTable 0 widgetNode).
  - apply widgetTable_reachable.
  - vm_compute. reflexivity.
Defined.

(** X21 at [packageTable]. *)
Lemma import_keys_identify_nodes_witness :
  (∀ r x i, symbols packageTable !! r = Some x → astImport x = Some i →
     _astSymbolsByImportKey packageTable !! key i = Some r) ∧
  (∀ r1 r2 x1 x2 i1 i2,
     symbols packageTable !! r1 = Some x1 → symbols packageTable !! r2 = Some x2 →
     astImport x1 = Some i1 → astImport x2 = Some i2 →
     key i1 = key i2 → r1 = r2).
Proof.
  apply (import_keys_identify_nodes analysisProgram packageTable).
  apply packageTable_reachable.
Defined.

(** X22 at [analysisProgram]: the class [C] is fetched from the empty table;
    its parent is the namespace [R]. *)
Lemma fetchAstSymbol_constructs_parent_witness :
  ∃ T1 p node pnode,
    _fetchAstSymbol analysisProgram 8 801 false None new_AstSymbolTable
    = (T1, Ok (Some p)) ∧
    1 = length (symbols T1) ∧ p < 1 ∧
    symbols (_fetchAstSymbol analysisProgram 9 802 false None new_AstSymbolTable).1 !! 1
    = Some node ∧
    symbols (_fetchAstSymbol analysisProgram 9 802 false None new_AstSymbolTable).1 !! p
    = Some pnode ∧
    parentAstSymbol node = Some p ∧
    rootAstSymbol node = rootAstSymbol pnode ∧
    nominal node = false.
Proof.
  apply (fetchAstSymbol_constructs_parent analysisProgram 8 802 false
           new_AstSymbolTable _ 1 81 [] 80 801).
  - reflexivity.
  - reflexivity.
  - reflexivity.
  - reflexivity.
  - intros [_ H]. discriminate H.
  - vm_compute. reflexivity.
  - reflexivity.
  - vm_compute. reflexivity.
Defined.

(** X23 at [analysisProgram]: the class [C] is fetched as an export of pkg2
    from the empty table, where its namespace [R] gets a node without an
    import. *)
Lemma fetchAstSymbol_import_under_local_parent_witness :
  (∀ r, @Throw (option nat) (InternalError_ImportedAfterNonImported "C") ≠ Ok r) ∧
  _astSymbolsBySymbol
    (_fetchAstSymbol analysisProgram 9 802 true (Some nestedImport) new_AstSymbolTable).1
    !! 802 = Some (length (symbols parentTable)) ∧
  _astSymbolsByImportKey
    (_fetchAstSymbol analysisProgram 9 802 true (Some nestedImport) new_AstSymbolTable).1
    !! key (new_AstImport nestedImport) = Some (length (symbols parentTable)).
Proof.
  apply (fetchAstSymbol_import_under_local_parent analysisProgram 8 802 true
           nestedImport new_AstSymbolTable _ _ 81 [] 80 801 parentTable 0).
  - reflexivity.
  - reflexivity.
  - reflexivity.
  - reflexivity.
  - reflexivity.
  - intros [_ H]. discriminate H.
  - reflexivity.
  - repeat constructor.
  - vm_compute. reflexivity.
  - reflexivity.
  - vm_compute. reflexivity.
  - vm_compute. reflexivity.
  - vm_compute. reflexivity.
Defined.
